(** * The vg genotyper: allele enumeration, affinity scoring, diploid
      genotyping and variant emission (src/src/genotyper.cpp)

    A shallow embedding of the functions of [Genotyper] that the
    specification's testable properties talk about, followed by the
    properties themselves.

    Conventions of the embedding.
    - A [Node*] is identified with the id of the node it points to (the
      graph owns exactly one node per id), so a [NodeTraversal] is a pair
      of an id and the [backward] flag, and [graph.get_node(id)->sequence()]
      is the graph's total map from ids to sequences.
    - A [Mapping*] handed out by the path index is a path name together
      with a position in that path.
    - [std::map] and [std::set] are association lists kept sorted by key,
      so iterating them visits keys in increasing order, as in C++.
    - [double] values are idealised as real numbers; the result of
      [logprob_invert], which can be minus infinity or not a number, is
      kept as a [logprob]. *)

From Stdlib Require Import List String Ascii Bool Arith ZArith Lia.
From Stdlib Require Import Permutation Sorted.
From Stdlib Require Import Reals Lra.
Import ListNotations.

Set Implicit Arguments.

(* ================================================================= *)
(** ** Ordered maps: [std::map<K, V>] as a key-sorted association list *)

Section OrdMap.
Variables (K V : Type) (cmp : K -> K -> comparison).

(** [m.find(k)], [m.count(k)] and [m.at(k)]. *)
Fixpoint find (k : K) (m : list (K * V)) : option V :=
  match m with
  | [] => None
  | (k', v) :: m' =>
      match cmp k k' with
      | Eq => Some v
      | _ => find k m'
      end
  end.

Definition count (k : K) (m : list (K * V)) : bool :=
  match find k m with Some _ => true | None => false end.

(** [m[k] = v]: overwrite the binding of [k], or add it at its place in
    key order. *)
Fixpoint insert (k : K) (v : V) (m : list (K * V)) : list (K * V) :=
  match m with
  | [] => [(k, v)]
  | (k', v') :: m' =>
      match cmp k k' with
      | Eq => (k, v) :: m'
      | Lt => (k, v) :: m
      | Gt => (k', v') :: insert k v m'
      end
  end.

Definition keys (m : list (K * V)) : list K := map fst m.

(** Key order: the list is strictly increasing in its keys. *)
Definition key_lt (x y : K * V) : Prop := cmp (fst x) (fst y) = Lt.

Definition sorted (m : list (K * V)) : Prop := StronglySorted key_lt m.
End OrdMap.

(* ================================================================= *)
(** ** Graph model *)

Definition id_t := Z.
Bind Scope Z_scope with id_t.

(** Modelled from the spec: the messages [Mapping], [Path], [Alignment],
    [Support], [Genotype] and [Locus] are declared outside the sources.  A
    path is "an ordered sequence of (node_id, reversed, edits...)"; of a
    [Mapping] the functions here read its [position()] (node id and
    strand), the [to_length] of each of its edits, and its rank. *)
Record Mapping := {
  node_id : id_t;
  is_reverse : bool;
  edit_to_length : list nat;
  rank : Z
}.

(** Modelled from the spec: "NodeTraversal. Pair (node_id, reversed:
    bool)"; the class is declared outside the sources. *)
Record NodeTraversal := {
  node : id_t;
  backward : bool
}.

(** [NodeTraversal::operator==] and [NodeTraversal::reverse]. *)
Definition nt_eqb (a b : NodeTraversal) : bool :=
  (node a =? node b)%Z && Bool.eqb (backward a) (backward b).

Definition nt_reverse (a : NodeTraversal) : NodeTraversal :=
  {| node := node a; backward := negb (backward a) |}.

(** Modelled from the spec: [Genotyper::Site] is declared in a header
    that is not part of the sources; a site is "bounded by two
    NodeTraversals start and end", with [contents] a set of node ids. *)
Record Site := {
  start : NodeTraversal;
  end_ : NodeTraversal;
  contents : list id_t
}.

(** Modelled from the spec: the graph class is outside the sources; the
    functions here use its [get_node(id)->sequence()] and its embedded
    paths.  The graph is its node sequences by id and its paths by name,
    in the iteration order of [graph.paths._paths]. *)
Record VG := {
  node_sequence : id_t -> string;
  paths : list (string * list Mapping)
}.

(** Modelled from the spec: [reverse_complement] is declared in a header
    that is not part of the sources; "reversed flips the sequence (reverse
    complement)" over the alphabet A/C/G/T/N. *)
Definition complement (c : ascii) : ascii :=
  if Ascii.eqb c "A" then "T"
  else if Ascii.eqb c "T" then "A"
  else if Ascii.eqb c "C" then "G"
  else if Ascii.eqb c "G" then "C"
  else "N"%char.

Fixpoint reverse_complement (s : string) : string :=
  match s with
  | EmptyString => EmptyString
  | String c s' => (reverse_complement s' ++ String (complement c) EmptyString)%string
  end.

(** *** The path index ([graph.paths]) *)

(** Modelled from the spec: the path index is outside the sources;
    "iteration over an embedded path (traverse_left, traverse_right)
    giving the predecessor/successor mapping of a given path position",
    and for a node the mappings on it by path name.  A [Mapping*] into an
    embedded path is the path (its name and its list of mappings) and the
    position pointed at. *)
Record MappingPtr := {
  ptr_name : string;
  ptr_path : list Mapping;
  ptr_index : nat
}.

Definition deref (p : MappingPtr) : option Mapping :=
  nth_error (ptr_path p) (ptr_index p).

(** [graph.paths.get_path(name)]. *)
Definition get_path (g : VG) (name : string) : list Mapping :=
  match find String.compare name (paths g) with
  | Some ms => ms
  | None => []
  end.

(** Positions of [ms], counted from [i], that lie on node [id]. *)
Fixpoint positions_on (id : id_t) (ms : list Mapping) (i : nat) : list nat :=
  match ms with
  | [] => []
  | m :: ms' =>
      if (node_id m =? id)%Z then i :: positions_on id ms' (S i)
      else positions_on id ms' (S i)
  end.

(** [graph.paths.get_node_mapping(id)]: for every path that visits the
    node, the mappings of that path on it. *)
Fixpoint node_mapping_of (id : id_t) (ps : list (string * list Mapping))
  : list (string * list MappingPtr) :=
  match ps with
  | [] => []
  | (name, ms) :: ps' =>
      match positions_on id ms 0 with
      | [] => node_mapping_of id ps'
      | ixs =>
          (name,
           map (fun i => {| ptr_name := name; ptr_path := ms; ptr_index := i |}) ixs)
          :: node_mapping_of id ps'
      end
  end.

Definition get_node_mapping (g : VG) (id : id_t) : list (string * list MappingPtr) :=
  node_mapping_of id (paths g).

Definition has_node_mapping (g : VG) (id : id_t) : bool :=
  match get_node_mapping g id with [] => false | _ => true end.

(** [graph.paths.traverse_left] and [traverse_right]: the neighbouring
    mapping of the same path, or [nullptr] at either end. *)
Definition traverse_left (p : MappingPtr) : option MappingPtr :=
  match ptr_index p with
  | O => None
  | S i => Some {| ptr_name := ptr_name p; ptr_path := ptr_path p; ptr_index := i |}
  end.

Definition traverse_right (p : MappingPtr) : option MappingPtr :=
  if S (ptr_index p) <? List.length (ptr_path p)
  then Some {| ptr_name := ptr_name p; ptr_path := ptr_path p;
               ptr_index := S (ptr_index p) |}
  else None.

(** [Genotyper::traversals_to_string]. *)
Definition oriented_sequence (g : VG) (t : NodeTraversal) : string :=
  if backward t then reverse_complement (node_sequence g (node t))
  else node_sequence g (node t).

Fixpoint traversals_to_string (g : VG) (path : list NodeTraversal) : string :=
  match path with
  | [] => EmptyString
  | t :: path' => (oriented_sequence g t ++ traversals_to_string g path')%string
  end.

(* ================================================================= *)
(** ** The genotyper's settings (data members of [Genotyper]) *)

(** Modelled from the spec: the class is declared in a header that is
    not part of the sources; these are the "Configuration options" that
    the functions here read. *)
Record Genotyper := {
  max_path_search_steps : nat;
  min_recurrence : Z;
  default_sequence_quality : Z;
  use_mapq : bool;
  het_prior_logprob : R
}.

(* ================================================================= *)
(** ** Allele enumeration: [Genotyper::get_paths_through_site] *)

Section Enumerator.
Variables (self : Genotyper) (g : VG) (site : Site).

(** The [while] loop that follows one embedded path from [mapping].
    [steps] is [max_path_search_steps - traversal_count]; the result is
    the traversal and the sequence recorded when the end node is met in
    the expected orientation, and [None] when the loop is left without
    recording anything. *)
Fixpoint walk (traversal_direction expected_end_orientation : bool)
    (steps : nat) (mapping : option MappingPtr)
    (path_traversed : list NodeTraversal) (allele_stream : string)
  : option (list NodeTraversal * string) :=
  match steps with
  | O => None
  | S steps' =>
      match mapping with
      | None => None
      | Some p =>
          match deref p with
          | None => None
          | Some m =>
              let t := {| node := node_id m;
                          backward := xorb (is_reverse m) traversal_direction |} in
              let path_traversed' := path_traversed ++ [t] in
              let allele_stream' :=
                (allele_stream ++ oriented_sequence g t)%string in
              if (node_id m =? node (end_ site))%Z
                 && Bool.eqb (is_reverse m) expected_end_orientation
              then Some (path_traversed', allele_stream')
              else walk traversal_direction expected_end_orientation steps'
                     (if traversal_direction then traverse_left p
                      else traverse_right p)
                     path_traversed' allele_stream'
          end
      end
  end.

(** The body of the loop over the mappings on the start node, up to the
    update of [results]. *)
Definition walk_from (mapping : MappingPtr) : option (list NodeTraversal * string) :=
  match deref mapping with
  | None => None
  | Some m =>
      let traversal_direction := xorb (is_reverse m) (backward (start site)) in
      let expected_end_orientation :=
        xorb (backward (end_ site)) traversal_direction in
      walk traversal_direction expected_end_orientation
        (max_path_search_steps self) (Some mapping) [] EmptyString
  end.

Definition results_t := list (string * (list NodeTraversal * Z)).

(** [results[seq].second++] for a known sequence, and
    [results[seq] = make_pair(path_traversed, 1)] for a new one.  The
    count is an [int]; it stays below its bound for fewer than 2^31
    walks, and is an integer here. *)
Definition record_traversal (results : results_t)
    (found : list NodeTraversal * string) : results_t :=
  let (path_traversed, seq) := found in
  match find String.compare seq results with
  | Some (traversals, n) =>
      insert String.compare seq (traversals, (n + 1)%Z) results
  | None => insert String.compare seq (path_traversed, 1%Z) results
  end.

Definition visit_mapping (results : results_t) (mapping : MappingPtr) : results_t :=
  match walk_from mapping with
  | Some found => record_traversal results found
  | None => results
  end.

(** The mappings the two nested loops start from, in the order the
    loops reach them: the mappings on the start node of every path that
    also has a mapping on the end node. *)
Definition start_mappings : list MappingPtr :=
  if has_node_mapping g (node (start site)) && has_node_mapping g (node (end_ site))
  then
    let endmappings_by_name := get_node_mapping g (node (end_ site)) in
    flat_map (fun name_and_mappings : string * list MappingPtr =>
                if count String.compare (fst name_and_mappings) endmappings_by_name
                then snd name_and_mappings
                else [])
             (get_node_mapping g (node (start site)))
  else [].

(** The final loop over [results], in key order. *)
Definition collect_unique (results : results_t) : list (list NodeTraversal) :=
  flat_map (fun result : string * (list NodeTraversal * Z) =>
              if (snd (snd result) <? min_recurrence self)%Z then []
              else [fst (snd result)])
           results.

(** The function with the order in which the start mappings are visited
    made explicit. *)
Definition get_paths_through_site_in (order : list MappingPtr)
  : list (list NodeTraversal) :=
  collect_unique (fold_left visit_mapping order []).

Definition get_paths_through_site : list (list NodeTraversal) :=
  get_paths_through_site_in start_mappings.

(** The walks that record something, for the statements about the
    enumerator. *)
Definition completed_walks (order : list MappingPtr)
  : list (list NodeTraversal * string) :=
  flat_map (fun p => match walk_from p with
                     | Some found => [found]
                     | None => []
                     end) order.

(** How many of the walks spell [seq], and the traversal of the first one
    that does. *)
Definition spells (seq : string) (found : list NodeTraversal * string) : bool :=
  String.eqb (snd found) seq.

Definition occurrences (seq : string) (walks : list (list NodeTraversal * string)) : Z :=
  Z.of_nat (List.length (filter (spells seq) walks)).

Definition first_traversal (seq : string) (walks : list (list NodeTraversal * string))
  : option (list NodeTraversal) :=
  option_map fst (List.find (spells seq) walks).
End Enumerator.

(* ================================================================= *)
(** ** Reads and affinities *)

(** Modelled from the spec: "Alignment. A named path plus the original
    read sequence, base qualities (possibly empty), and a mapping-quality
    score"; the base qualities are one [char] each. *)
Record Alignment := {
  name : string;
  path : list Mapping;
  sequence : string;
  quality : list Z;
  mapping_quality : Z
}.

(** Modelled from the spec: [Genotyper::Affinity] is declared in a header
    that is not part of the sources; "Affinity. (allele_index,
    consistent: bool, is_reverse: bool, weight: real in [0,1])", the allele
    index being the position in the vector of a read.  A
    default-constructed one has weight 0 and both flags false. *)
Module Affinity.
Record t := {
  affinity : R;
  is_reverse : bool;
  consistent : bool
}.
End Affinity.
Abbreviation Affinity := Affinity.t.

(** [site.contents.count(id)]. *)
Definition in_contents (site : Site) (id : id_t) : bool :=
  existsb (Z.eqb id) (contents site).

(** [Genotyper::get_traversal_of_site]. *)
Definition get_traversal_of_site (g : VG) (site : Site) (p : list Mapping)
  : list NodeTraversal :=
  flat_map (fun m =>
              let traversal := {| node := node_id m; backward := is_reverse m |} in
              if in_contents site (node traversal) then [traversal] else [])
           p.

(** [std::mismatch(first1, last1, first2).first == last1] on the
    characters of two strings: whether the first range is exhausted before
    a difference is met.  The call is given the beginning of the second
    range only and goes on comparing when the second string is the
    shorter one.  Behind its last character it then finds the terminator
    of the string, a zero byte, which differs from a character of a
    sequence: the answer is [false].  In front of its first character
    (the call with reverse iterators) it is outside the characters of the
    string, on the byte next to them, which the string (its length) or
    the allocator (the size of the block) owns and which is a zero byte as
    well with the library the program is built with.  Only when the
    character of the first range is a zero byte too does the comparison
    go on into memory that the source says nothing about: the result is
    undefined ([None]), unless the first range ends there. *)
Fixpoint mismatch_at_end (s1 s2 : list ascii) : option bool :=
  match s1 with
  | [] => Some true
  | c1 :: s1' =>
      match s2 with
      | [] =>
          if Ascii.eqb c1 Ascii.zero
          then match s1' with
               | [] => Some true
               | _ :: _ => None
               end
          else Some false
      | c2 :: s2' =>
          if Ascii.eqb c1 c2 then mismatch_at_end s1' s2' else Some false
      end
  end.

Section FastAffinities.
Variable g : VG.
Variable reads_by_name : list (string * nat).
Variable alignments : list Alignment.
Variable site : Site.

Definition affinities_t := list (nat * list Affinity).

(** The first loop: the names of the reads that visit a node of the site
    ([relevant_read_names], a [set<string>]). *)
Definition relevant_read_names : list (string * unit) :=
  fold_left
    (fun names id =>
       fold_left
         (fun names (name_and_mappings : string * list MappingPtr) =>
            if count String.compare (fst name_and_mappings) reads_by_name
            then insert String.compare (fst name_and_mappings) tt names
            else names)
         (get_node_mapping g id) names)
    (contents site) [].

(** Whether the read went through the site backward, and its traversal
    turned around if it did.  [front] and [back] of an empty list are
    undefined; the scorer below does not get here for one. *)
Definition traversed_backward (read_traversal : list NodeTraversal) : bool :=
  match read_traversal with
  | [] => false
  | front :: _ =>
      nt_eqb front (nt_reverse (end_ site))
      || nt_eqb (last read_traversal front) (nt_reverse (start site))
  end.

Definition canonical_traversal (read_traversal : list NodeTraversal)
  : list NodeTraversal :=
  if traversed_backward read_traversal
  then map nt_reverse (rev read_traversal)
  else read_traversal.

(** The body of the loop over the allele strings, up to the [push_back]:
    the affinity of a read with (turned) traversal [read_traversal] and
    sequence [seq] for the allele spelling [path_seq]. *)
Definition affinity_for (read_traversal : list NodeTraversal) (seq : string)
    (base_affinity : Affinity) (path_seq : string) : option Affinity :=
  match read_traversal with
  | [] => None
  | front :: _ =>
      let back := last read_traversal front in
      let finish (consistent : bool) : Affinity :=
        {| Affinity.affinity := if consistent then 1 else 0;
           Affinity.is_reverse := Affinity.is_reverse base_affinity;
           Affinity.consistent := consistent |} in
      if nt_eqb front (start site) && nt_eqb back (end_ site) then
        Some (finish (String.eqb seq path_seq))
      else if nt_eqb front (start site) then
        option_map finish
          (mismatch_at_end (list_ascii_of_string seq) (list_ascii_of_string path_seq))
      else if nt_eqb back (end_ site) then
        option_map finish
          (mismatch_at_end (rev (list_ascii_of_string seq))
                           (rev (list_ascii_of_string path_seq)))
      else Some (finish (Affinity.consistent base_affinity))
  end.

(** [to_return[read].push_back(affinity)]. *)
Definition push_back_at (read : nat) (a : Affinity) (to_return : affinities_t)
  : affinities_t :=
  match find Nat.compare read to_return with
  | Some v => insert Nat.compare read (v ++ [a]) to_return
  | None => insert Nat.compare read [a] to_return
  end.

Fixpoint score_alleles (read : nat) (read_traversal : list NodeTraversal)
    (seq : string) (base_affinity : Affinity) (allele_strings : list string)
    (to_return : affinities_t) : option affinities_t :=
  match allele_strings with
  | [] => Some to_return
  | path_seq :: rest =>
      match affinity_for read_traversal seq base_affinity path_seq with
      | None => None
      | Some a =>
          score_alleles read read_traversal seq base_affinity rest
            (push_back_at read a to_return)
      end
  end.

(** The body of the loop over the relevant reads.  [None] stands for
    undefined behaviour: a dangling [Alignment*], [front()] of an empty
    traversal, or a [std::mismatch] that goes on past the terminator of
    an allele string, which takes a read sequence with a zero byte in
    it. *)
Definition score_read (allele_strings : list string) (read_name : string)
    (to_return : affinities_t) : option affinities_t :=
  match find String.compare read_name reads_by_name with
  | None => None
  | Some read =>
      match nth_error alignments read with
      | None => None
      | Some alignment =>
          let read_traversal := get_traversal_of_site g site (path alignment) in
          match read_traversal with
          | [] => None
          | _ :: _ =>
              let base_affinity :=
                {| Affinity.affinity := 0;
                   Affinity.is_reverse := traversed_backward read_traversal;
                   Affinity.consistent := false |} in
              let read_traversal := canonical_traversal read_traversal in
              let seq := traversals_to_string g read_traversal in
              score_alleles read read_traversal seq base_affinity
                allele_strings to_return
          end
      end
  end.

Fixpoint score_reads (allele_strings : list string) (names : list string)
    (to_return : affinities_t) : option affinities_t :=
  match names with
  | [] => Some to_return
  | read_name :: rest =>
      match score_read allele_strings read_name to_return with
      | None => None
      | Some to_return' => score_reads allele_strings rest to_return'
      end
  end.

(** [Genotyper::get_affinities_fast]. *)
Definition get_affinities_fast (superbubble_paths : list (list NodeTraversal))
  : option affinities_t :=
  let allele_strings := map (traversals_to_string g) superbubble_paths in
  score_reads allele_strings (keys relevant_read_names) [].

(** The entry of a read in the map, empty when there is none. *)
Definition entry (to_return : affinities_t) (read : nat) : list Affinity :=
  match find Nat.compare read to_return with Some v => v | None => [] end.

(** What the scorer has stored for a read: the alignment behind the
    pointer, and one affinity per allele string for its turned traversal. *)
Definition scored (strs : list string) (read : nat) (affs : list Affinity) : Prop :=
  exists read_name alignment,
    find String.compare read_name reads_by_name = Some read /\
    nth_error alignments read = Some alignment /\
    let read_traversal := get_traversal_of_site g site (path alignment) in
    read_traversal <> [] /\
    Forall2
      (fun s a =>
         affinity_for (canonical_traversal read_traversal)
           (traversals_to_string g (canonical_traversal read_traversal))
           {| Affinity.affinity := 0;
              Affinity.is_reverse := traversed_backward read_traversal;
              Affinity.consistent := false |} s = Some a)
      strs affs.
End FastAffinities.

(** Notions for the statements about the scorer: prefixes and suffixes
    of strings, where a traversal starts and ends, and a [reads_by_name]
    that gives different names different alignments. *)

Definition is_prefix (s t : string) : Prop := exists rest, t = (s ++ rest)%string.
Definition is_suffix (s t : string) : Prop := exists init, t = (init ++ s)%string.

Definition starts_at (x : NodeTraversal) (l : list NodeTraversal) : Prop :=
  exists rest, l = x :: rest.
Definition ends_at (x : NodeTraversal) (l : list NodeTraversal) : Prop :=
  exists init, l = init ++ [x].

(** The sequences of a graph are DNA ("Node. Stable integer identity, a
    DNA sequence (A/C/G/T/N)"); what the statements about the scorer need
    of that is that no sequence holds a zero byte, the terminator of a
    string. *)
Definition zero_free (g : VG) : Prop :=
  forall id, ~ In Ascii.zero (list_ascii_of_string (node_sequence g id)).

Definition distinct_reads (reads_by_name : list (string * nat)) : Prop :=
  forall n1 n2 read,
    find String.compare n1 reads_by_name = Some read ->
    find String.compare n2 reads_by_name = Some read -> n1 = n2.

(** *** The filter of the aligning scorer, [Genotyper::get_affinities]

    The test that [get_affinities] applies to a read before scoring it:
    the read has to touch two nodes of the site, or a node that is neither
    its start nor its end. *)

Definition erase (id : id_t) (s : list (id_t * unit)) : list (id_t * unit) :=
  filter (fun kv => negb (Z.eqb (fst kv) id)) s.

Definition informative (site : Site) (read : Alignment) : bool :=
  let touched_set :=
    fold_left
      (fun touched_set m =>
         let touched := node_id m in
         if in_contents site touched then insert Z.compare touched tt touched_set
         else touched_set)
      (path read) [] in
  if 2 <=? List.length touched_set then true
  else
    let touched_set := erase (node (end_ site)) (erase (node (start site)) touched_set) in
    match touched_set with
    | [] => false
    | _ :: _ => true
    end.

(** [run] fills [reads_by_name] with the address of every alignment under
    its name. *)
Fixpoint index_reads (alignments : list Alignment) (i : nat)
    (reads_by_name : list (string * nat)) : list (string * nat) :=
  match alignments with
  | [] => reads_by_name
  | alignment :: rest =>
      index_reads rest (S i) (insert String.compare (name alignment) i reads_by_name)
  end.

Definition build_reads_by_name (alignments : list Alignment) : list (string * nat) :=
  index_reads alignments 0 [].

(* ================================================================= *)
(** ** Log-probabilities *)

(** Modelled from the spec: the conversions between probabilities, Phred
    scores and log-probabilities, and the multinomial PMF, are declared in
    headers that are not part of the sources.  "Phred: integer encoding of
    probability p as -10 log10 p"; [logprob_invert] takes [log p] to
    [log (1 - p)] ("log P(i=j) = log (1 - h)" is computed as
    [logprob_invert(het_prior_logprob)]); [multinomial_sampling_prob_ln]
    is "the log multinomial PMF".

    [prob_to_logprob] is called on 1 and on [k / 2] for [k >= 1] only, and
    [phred_to_logprob] is a product: both are numbers.  [logprob_invert]
    is not always one: the logarithm of 0 is minus infinity, and that of a
    negative value is not a number.  A [logprob] is a [double] as these
    helpers hold it. *)
Definition prob_to_logprob (p : R) : R := ln p.

Definition phred_to_prob (phred : Z) : R := exp (- (IZR phred / 10) * ln 10).

Definition phred_to_logprob (phred : Z) : R := - (IZR phred / 10) * ln 10.

Inductive logprob : Type :=
| Finite (x : R)
| MinusInfinity
| NotANumber.

(** [a + b] on doubles. *)
Definition logprob_add (a b : logprob) : logprob :=
  match a, b with
  | Finite x, Finite y => Finite (x + y)
  | NotANumber, _ => NotANumber
  | _, NotANumber => NotANumber
  | _, _ => MinusInfinity
  end.

(** [log(1 - exp(x))]: [exp] of minus infinity is 0; [1 - exp(x)] is 0 at
    [x = 0] and negative above. *)
Definition logprob_invert (x : logprob) : logprob :=
  match x with
  | Finite x =>
      if Rlt_dec x 0 then Finite (ln (1 - exp x))
      else if Req_dec_T x 0 then MinusInfinity
      else NotANumber
  | MinusInfinity => Finite 0
  | NotANumber => NotANumber
  end.

(** The likelihoods are sums of real numbers in the model.  A [double]
    that is a number is that number; minus infinity and what is not a
    number have no counterpart among the reals (0 stands in for them),
    and the statements about a value that went through [logprob_invert]
    say when it is a number. *)
Definition finite_value (x : logprob) : R :=
  match x with
  | Finite x => x
  | MinusInfinity => 0
  | NotANumber => 0
  end.

Definition factorial_ln (n : Z) : R := ln (INR (fact (Z.to_nat n))).

Definition sum_R (l : list R) : R := fold_right Rplus 0%R l.

Definition multinomial_sampling_prob_ln (probs : list R) (obs : list Z) : R :=
  (factorial_ln (fold_right Z.add 0%Z obs)
   - sum_R (map factorial_ln obs)
   + sum_R (map (fun po => IZR (snd po) * ln (fst po)) (combine probs obs)))%R.

(* ================================================================= *)
(** ** Genotype likelihoods *)

(** [v.at(i)] for an [int] index: out of range, and so an exception, for
    a negative index as well. *)
Definition at_ (A : Type) (v : list A) (i : Z) : option A :=
  if (i <? 0)%Z then None else nth_error v (Z.to_nat i).

(** [round(total / n)] for the mean of [n > 0] quality values whose sum
    is [total]: to the nearest integer, halves away from zero. *)
Definition round_mean (total n : Z) : Z :=
  if (0 <=? total)%Z then ((2 * total + n) / (2 * n))%Z
  else (- ((2 * (- total) + n) / (2 * n)))%Z.

Section Likelihood.
Variable self : Genotyper.

(** [Genotyper::alignment_qual_score]. *)
Definition alignment_qual_score (alignment : Alignment) : Z :=
  match quality alignment with
  | [] => default_sequence_quality self
  | _ :: _ =>
      round_mean (fold_left Z.add (quality alignment) 0%Z)
                 (Z.of_nat (List.length (quality alignment)))
  end.

(** [strand_count_by_allele_and_orientation], a [map<int, pair<int, int>>]:
    forward and reverse counts by allele number. *)
Definition strand_counts := list (Z * (Z * Z)).

(** [strand_count[allele].first++] and [.second++]; [operator[]] starts a
    missing entry at (0, 0). *)
Definition count_strand (reverse : bool) (allele : Z) (counts : strand_counts)
  : strand_counts :=
  let (f, r) := match find Z.compare allele counts with
                | Some fr => fr
                | None => (0, 0)%Z
                end in
  insert Z.compare allele (if reverse then (f, r + 1)%Z else (f + 1, r)%Z) counts.

(** The loop over the alleles of the genotype for one read: the number of
    genotype alleles the read is consistent with, and the strand counts.
    [None] is the exception of [consistency.at(allele)]. *)
Fixpoint count_consistent (consistency : list Affinity) (genotype : list Z)
    (consistent_alleles : Z) (counts : strand_counts)
  : option (Z * strand_counts) :=
  match genotype with
  | [] => Some (consistent_alleles, counts)
  | allele :: rest =>
      match at_ consistency allele with
      | None => None
      | Some a =>
          if Affinity.consistent a
          then count_consistent consistency rest (consistent_alleles + 1)%Z
                 (count_strand (Affinity.is_reverse a) allele counts)
          else count_consistent consistency rest consistent_alleles counts
      end
  end.

(** The log-probability that a read consistent with no allele of the
    genotype is wrong, as the helpers compute it and as the number that
    is added to [all_non_supporting_wrong]. *)
Definition logprob_wrong_double (read : Alignment) : logprob :=
  let read_qual := alignment_qual_score read in
  if use_mapq self
  then logprob_invert
         (logprob_add
            (logprob_invert (Finite (phred_to_logprob (mapping_quality read))))
            (logprob_invert (Finite (phred_to_logprob read_qual))))
  else Finite (phred_to_logprob read_qual).

Definition logprob_wrong (read : Alignment) : R :=
  finite_value (logprob_wrong_double read).

(** The state of the loop over the reads: [all_non_supporting_wrong],
    [all_supporting_drawn] and the strand counts. *)
Definition likelihood_state := (R * R * strand_counts)%type.

Definition account_read (genotype : list Z) (state : likelihood_state)
    (read_and_consistency : Alignment * list Affinity) : option likelihood_state :=
  let '(all_non_supporting_wrong, all_supporting_drawn, counts) := state in
  let (read, consistency) := read_and_consistency in
  match count_consistent consistency genotype 0%Z counts with
  | None => None
  | Some (consistent_alleles, counts') =>
      if (consistent_alleles =? 0)%Z
      then Some ((all_non_supporting_wrong + logprob_wrong read)%R,
                 all_supporting_drawn, counts')
      else
        let logprob_drawn :=
          prob_to_logprob (IZR consistent_alleles / INR (List.length genotype)) in
        Some (all_non_supporting_wrong,
              (all_supporting_drawn + logprob_drawn)%R, counts')
  end.

Fixpoint account_reads (genotype : list Z) (state : likelihood_state)
    (alignment_consistency : list (Alignment * list Affinity))
  : option likelihood_state :=
  match alignment_consistency with
  | [] => Some state
  | rc :: rest =>
      match account_read genotype state rc with
      | None => None
      | Some state' => account_reads genotype state' rest
      end
  end.

(** The loop over the strand counts, in key order. *)
Definition strands_as_specified (counts : strand_counts) : R :=
  fold_left
    (fun acc (kv : Z * (Z * Z)) =>
       (acc + multinomial_sampling_prob_ln [/ 2; / 2] [fst (snd kv); snd (snd kv)])%R)
    counts (prob_to_logprob 1).

Definition likelihood_loop (genotype : list Z)
    (alignment_consistency : list (Alignment * list Affinity))
  : option likelihood_state :=
  account_reads genotype (prob_to_logprob 1, prob_to_logprob 1, []) alignment_consistency.

(** [Genotyper::get_genotype_log_likelihood]. *)
Definition get_genotype_log_likelihood (genotype : list Z)
    (alignment_consistency : list (Alignment * list Affinity)) : option R :=
  match likelihood_loop genotype alignment_consistency with
  | None => None
  | Some (all_non_supporting_wrong, all_supporting_drawn, counts) =>
      Some (all_non_supporting_wrong + all_supporting_drawn
            + strands_as_specified counts)%R
  end.

(** [Genotyper::get_genotype_log_prior]; the assertion on the size of the
    genotype fails ([None]) for anything but two alleles. *)
Definition get_genotype_log_prior (genotype : list Z) : option R :=
  match genotype with
  | [a; b] =>
      if negb (a =? b)%Z then Some (het_prior_logprob self)
      else Some (finite_value (logprob_invert (Finite (het_prior_logprob self))))
  | _ => None
  end.
End Likelihood.

(* ================================================================= *)
(** ** Genotyping a site: [Genotyper::genotype_site] *)

(** Modelled from the spec: the messages are declared outside the
    sources.  "Support. (forward_count, reverse_count)"; "Genotype.
    Multiset of two allele indices, plus log_likelihood, log_prior,
    log_posterior", with the phasing flag the emitter reads; "Locus.
    (site, alleles[], per-allele Support, genotypes[] sorted by descending
    posterior, overall Support)". *)
Module Support.
Record t := {
  forward : Z;
  reverse : Z
}.
End Support.
Abbreviation Support := Support.t.

Module Genotype.
Record t := {
  allele : list Z;
  log_likelihood : R;
  log_prior : R;
  log_posterior : R;
  is_phased : bool
}.
End Genotype.
Abbreviation Genotype := Genotype.t.

Module Locus.
Record t := {
  allele : list (list Mapping);
  support : list Support;
  genotype : list Genotype;
  overall_support : Support
}.
End Locus.
Abbreviation Locus := Locus.t.

(** Modelled from the spec: [path_from_node_traversals] is not part of
    the sources.  An allele is the list of its NodeTraversals, and the
    Path of the Locus has one Mapping for each, on the same node in the
    same orientation. *)
Definition path_from_node_traversals (l : list NodeTraversal) : list Mapping :=
  map (fun t => {| node_id := node t; is_reverse := backward t;
                   edit_to_length := []; rank := 0 |}) l.

(** [v[i]] updated in place; writing past the end is undefined ([None]). *)
Fixpoint update_nth (A : Type) (i : nat) (f : A -> A) (v : list A) : option (list A) :=
  match v with
  | [] => None
  | x :: v' =>
      match i with
      | O => Some (f x :: v')
      | S i' => option_map (cons x) (update_nth i' f v')
      end
  end.

(** Running a fallible function over a list, stopping at the first
    failure. *)
Fixpoint map_option (A B : Type) (f : A -> option B) (l : list A) : option (list B) :=
  match l with
  | [] => Some []
  | x :: l' =>
      match f x with
      | None => None
      | Some y => option_map (cons y) (map_option f l')
      end
  end.

(** [std::sort(first, last, comp)].  The standard leaves the order of
    elements that [comp] does not separate open; the model inserts the
    elements one by one, and the statements about it use only that the
    result is a rearrangement of the input in which no element is before
    one that [comp] puts before it. *)
Fixpoint insert_by (A : Type) (comp : A -> A -> bool) (x : A) (l : list A) : list A :=
  match l with
  | [] => [x]
  | y :: l' => if comp x y then x :: l else y :: insert_by comp x l'
  end.

Definition sort_by (A : Type) (comp : A -> A -> bool) (l : list A) : list A :=
  fold_right (insert_by comp) [] l.

(** The comparison handed to [std::sort]:
    [a.log_posterior() > b.log_posterior()]. *)
Definition posterior_gt (a b : Genotype) : bool :=
  if Rgt_dec (Genotype.log_posterior a) (Genotype.log_posterior b) then true
  else false.

(** The order the sorted genotypes are in. *)
Definition posterior_ge (a b : Genotype) : Prop :=
  (Genotype.log_posterior b <= Genotype.log_posterior a)%R.

Section GenotypeSite.
Variables (self : Genotyper) (site : Site).

(** *** [Genotyper::get_qualities_in_site] *)

(** The loop over the [to_length] positions of one edit inside the site:
    [None] is the early [return ""] when the qualities run out. *)
Fixpoint take_qualities (qualities : list Z) (k : nat) (quality_pos : nat)
    (to_return : list Z) : option (nat * list Z) :=
  match k with
  | O => Some (quality_pos, to_return)
  | S k' =>
      match nth_error qualities quality_pos with
      | None => None
      | Some q => take_qualities qualities k' (S quality_pos) (to_return ++ [q])
      end
  end.

Fixpoint scan_edits (qualities : list Z) (in_site : bool) (edits : list nat)
    (quality_pos : nat) (to_return : list Z) : option (nat * list Z) :=
  match edits with
  | [] => Some (quality_pos, to_return)
  | to_length :: rest =>
      if in_site then
        match take_qualities qualities to_length quality_pos to_return with
        | None => None
        | Some (quality_pos', to_return') =>
            scan_edits qualities in_site rest quality_pos' to_return'
        end
      else scan_edits qualities in_site rest (quality_pos + to_length) to_return
  end.

Fixpoint scan_mappings (qualities : list Z) (mappings : list Mapping)
    (in_site : bool) (expected : NodeTraversal) (quality_pos : nat)
    (to_return : list Z) : list Z :=
  match mappings with
  | [] => to_return
  | mapping :: rest =>
      let traversal := {| node := node_id mapping; backward := is_reverse mapping |} in
      let '(in_site, expected) :=
        if in_site then (in_site, expected)
        else if nt_eqb traversal (start site) then (true, end_ site)
        else if nt_eqb traversal (nt_reverse (end_ site))
             then (true, nt_reverse (start site))
        else (in_site, expected) in
      match scan_edits qualities in_site (edit_to_length mapping) quality_pos
              to_return with
      | None => []
      | Some (quality_pos', to_return') =>
          let in_site := if in_site && nt_eqb traversal expected then false
                         else in_site in
          scan_mappings qualities rest in_site expected quality_pos' to_return'
      end
  end.

(** [expected] is default-constructed before the loop: no node, forward. *)
Definition get_qualities_in_site (alignment : Alignment) : list Z :=
  scan_mappings (quality alignment) (path alignment) false
    {| node := 0; backward := false |} 0 [].

(** *** The loop over the reads and their affinities *)

(** The loop over the affinities of one read: the counts of consistent
    reads by allele, the same split by strand, and whether the read
    supports some allele forward, and some in reverse. *)
Definition support_state := (list Z * list (Z * Z) * bool * bool)%type.

Fixpoint count_supports (affs : list Affinity) (i : nat) (state : support_state)
  : option support_state :=
  match affs with
  | [] => Some state
  | a :: rest =>
      let '(reads_consistent_with_allele, strand_support_for_allele,
            is_forward, is_reverse) := state in
      if Affinity.consistent a then
        match update_nth i Z.succ reads_consistent_with_allele with
        | None => None
        | Some reads_consistent_with_allele' =>
            if Affinity.is_reverse a then
              match update_nth i (fun fr : Z * Z => (fst fr, snd fr + 1)%Z)
                      strand_support_for_allele with
              | None => None
              | Some strand_support_for_allele' =>
                  count_supports rest (S i)
                    (reads_consistent_with_allele', strand_support_for_allele',
                     is_forward, true)
              end
            else
              match update_nth i (fun fr : Z * Z => (fst fr + 1, snd fr)%Z)
                      strand_support_for_allele with
              | None => None
              | Some strand_support_for_allele' =>
                  count_supports rest (S i)
                    (reads_consistent_with_allele', strand_support_for_allele',
                     true, is_reverse)
              end
        end
      else count_supports rest (S i) state
  end.

(** The state of the loop over the reads: the two vectors of counts, the
    overall forward and reverse reads, and [alignment_consistency]. *)
Record tally := {
  reads_consistent_with_allele : list Z;
  strand_support_for_allele : list (Z * Z);
  overall_forward_reads : Z;
  overall_reverse_reads : Z;
  alignment_consistency : list (Alignment * list Affinity)
}.

Variable alignments : list Alignment.

(** The body of the loop; [None] is undefined behaviour, a dangling
    [Alignment*] or a write past the end of a vector of counts. *)
Definition tally_read (state : tally)
    (alignment_and_affinities : nat * list Affinity) : option tally :=
  match nth_error alignments (fst alignment_and_affinities) with
  | None => None
  | Some alignment =>
      let trimmed :=
        {| name := name alignment; path := path alignment;
           sequence := sequence alignment;
           quality := get_qualities_in_site alignment;
           mapping_quality := mapping_quality alignment |} in
      match count_supports (snd alignment_and_affinities) 0
              (reads_consistent_with_allele state,
               strand_support_for_allele state, false, false) with
      | None => None
      | Some (consistent', strand', is_forward, is_reverse) =>
          Some {| reads_consistent_with_allele := consistent';
                  strand_support_for_allele := strand';
                  overall_forward_reads :=
                    if is_forward then (overall_forward_reads state + 1)%Z
                    else overall_forward_reads state;
                  overall_reverse_reads :=
                    if is_forward then overall_reverse_reads state
                    else if is_reverse then (overall_reverse_reads state + 1)%Z
                    else overall_reverse_reads state;
                  alignment_consistency :=
                    alignment_consistency state
                    ++ [(trimmed, snd alignment_and_affinities)] |}
      end
  end.

Fixpoint tally_reads (state : tally) (affinities : list (nat * list Affinity))
  : option tally :=
  match affinities with
  | [] => Some state
  | x :: rest =>
      match tally_read state x with
      | None => None
      | Some state' => tally_reads state' rest
      end
  end.

(** *** The genotypes *)

(** The genotype vectors of the two nested loops, in the order the loops
    make them: [allele2 <= allele1 < n]. *)
Definition genotype_vectors (n : nat) : list (list Z) :=
  flat_map (fun allele1 =>
              map (fun allele2 => [Z.of_nat allele1; Z.of_nat allele2])
                  (seq 0 (S allele1)))
           (seq 0 n).

(** The body of the inner loop. *)
Definition make_genotype (consistency : list (Alignment * list Affinity))
    (genotype_vector : list Z) : option Genotype :=
  match get_genotype_log_likelihood self genotype_vector consistency,
        get_genotype_log_prior self genotype_vector with
  | Some log_likelihood, Some log_prior =>
      Some {| Genotype.allele := genotype_vector;
              Genotype.log_likelihood := log_likelihood;
              Genotype.log_prior := log_prior;
              Genotype.log_posterior := (log_likelihood + log_prior)%R;
              Genotype.is_phased := false |}
  | _, _ => None
  end.

Definition genotype_site (superbubble_paths : list (list NodeTraversal))
    (affinities : list (nat * list Affinity)) : option Locus :=
  let n := List.length superbubble_paths in
  match tally_reads
          {| reads_consistent_with_allele := repeat 0%Z n;
             strand_support_for_allele := repeat (0, 0)%Z n;
             overall_forward_reads := 0;
             overall_reverse_reads := 0;
             alignment_consistency := [] |}
          affinities with
  | None => None
  | Some counted =>
      match map_option (make_genotype (alignment_consistency counted))
              (genotype_vectors n) with
      | None => None
      | Some genotypes =>
          let genotypes_sorted := sort_by posterior_gt genotypes in
          Some {| Locus.allele := map path_from_node_traversals superbubble_paths;
                  Locus.support :=
                    map (fun fr : Z * Z =>
                           {| Support.forward := fst fr; Support.reverse := snd fr |})
                        (strand_support_for_allele counted);
                  Locus.genotype := genotypes_sorted;
                  Locus.overall_support :=
                    {| Support.forward := overall_forward_reads counted;
                       Support.reverse := overall_reverse_reads counted |} |}
      end
  end.
End GenotypeSite.

(* ================================================================= *)
(** ** The reference index and the variant emitter *)

(** How a call ends: it returns, it throws, an [assert] fails, or its
    behaviour is undefined. *)
Inductive outcome (A : Type) : Type :=
| Returned (a : A)
| Thrown (what : string)
| AssertionFailed
| Undefined.
Arguments Returned {A} a.
Arguments Thrown {A} what.
Arguments AssertionFailed {A}.
Arguments Undefined {A}.

Definition bind (A B : Type) (c : outcome A) (k : A -> outcome B) : outcome B :=
  match c with
  | Returned a => k a
  | Thrown what => Thrown what
  | AssertionFailed => AssertionFailed
  | Undefined => Undefined
  end.

Notation "x <- c ;; k" := (bind c (fun x => k))
  (at level 61, c at next level, right associativity).

Definition assert (b : bool) : outcome unit :=
  if b then Returned tt else AssertionFailed.

Fixpoint for_each (A S : Type) (body : S -> A -> outcome S) (l : list A) (s : S)
  : outcome S :=
  match l with
  | [] => Returned s
  | x :: l' => s' <- body s x ;; for_each body l' s'
  end.

(** Modelled from the spec: the structure is declared in a header that
    is not part of the sources; it "stores: for each reference-visited
    node id, (start_offset_on_reference, visit_orientation) of its first
    reference visit; for each reference offset, the NodeTraversal starting
    there; and the full linear reference sequence". *)
Module ReferenceIndex.
Record t := {
  byId : list (id_t * (nat * bool));
  byStart : list (nat * NodeTraversal);
  sequence : string
}.
End ReferenceIndex.
Abbreviation ReferenceIndex := ReferenceIndex.t.

Definition valid_leading_base (c : ascii) : bool :=
  Ascii.eqb c "A" || Ascii.eqb c "T" || Ascii.eqb c "C" || Ascii.eqb c "G"
  || Ascii.eqb c "N".

(** The [while] loop that drops invalid leading characters. *)
Fixpoint drop_invalid_leading (s : string) : string :=
  match s with
  | EmptyString => EmptyString
  | String c s' => if valid_leading_base c then s else drop_invalid_leading s'
  end.

(** The state of the loop of the constructor: the index so far, with the
    sequence written so far, [referenceBase] and [lastRank]. *)
Definition index_state := (ReferenceIndex * nat * Z)%type.

Definition index_mapping (g : VG) (state : index_state) (mapping : Mapping)
  : outcome index_state :=
  let '(index, referenceBase, lastRank) := state in
  visit <-
    (if count Z.compare (node_id mapping) (ReferenceIndex.byId index)
     then Returned (ReferenceIndex.byId index, lastRank)
     else
       _ <- assert (lastRank <? rank mapping)%Z ;;
       Returned (insert Z.compare (node_id mapping)
                   (referenceBase, is_reverse mapping) (ReferenceIndex.byId index),
                 rank mapping)) ;;
  let seq := node_sequence g (node_id mapping) in
  let seq := if referenceBase =? 0 then drop_invalid_leading seq else seq in
  Returned
    ({| ReferenceIndex.byId := fst visit;
        ReferenceIndex.byStart :=
          insert Nat.compare referenceBase
            {| node := node_id mapping; backward := is_reverse mapping |}
            (ReferenceIndex.byStart index);
        ReferenceIndex.sequence :=
          (ReferenceIndex.sequence index
           ++ (if is_reverse mapping then reverse_complement seq else seq))%string |},
     referenceBase + String.length seq,
     snd visit).

(** [ReferenceIndex::ReferenceIndex]. *)
Definition build_reference_index (g : VG) (refPathName : string)
  : outcome ReferenceIndex :=
  _ <- assert (count String.compare refPathName (paths g)) ;;
  state <- for_each (index_mapping g) (get_path g refPathName)
             ({| ReferenceIndex.byId := []; ReferenceIndex.byStart := [];
                 ReferenceIndex.sequence := EmptyString |}, 0, (-1)%Z) ;;
  Returned (fst (fst state)).

(** Modelled from the spec: the record class of the variant file library
    is outside the sources.  This is a record as far as [locus_to_variant]
    fills it in: the genotype is kept as the two allele numbers and the phasing,
    the depths as integers, and the likelihoods as the log-likelihoods
    relative to the best genotype ([None] for the infinity of a genotype
    that does not occur), before they are turned into Phred scores and
    text. *)
Module Variant.
Record t := {
  position : nat;
  ref : string;
  alt : list string;
  alleles : list string;
  GT : nat * bool * nat;
  DP : Z;
  AD : list Z;
  PL : list (option R)
}.
End Variant.
Abbreviation Variant := Variant.t.

(** [std::string::substr(pos, len)]: throws when [pos] is past the end. *)
Definition substr (s : string) (pos len : nat) : outcome string :=
  if String.length s <? pos then Thrown "out_of_range"
  else Returned (substring pos len s).

(** Anything but A, C, G and T becomes N. *)
Definition fix_base (c : ascii) : ascii :=
  if Ascii.eqb c "A" || Ascii.eqb c "C" || Ascii.eqb c "G" || Ascii.eqb c "T"
  then c else "N"%char.

Fixpoint fix_bases (s : string) : string :=
  match s with
  | EmptyString => EmptyString
  | String c s' => String (fix_base c) (fix_bases s')
  end.

(** [allele_to_string]: the sequence of the mappings of the allele
    between its first and its last.  The loop bound is
    [mapping_size() - 1]; for a path without mappings it is -1, which the
    comparison with the unsigned counter turns into the largest value,
    and the loop reads mappings that are not there. *)
Definition allele_to_string (g : VG) (allele : list Mapping) : outcome string :=
  match allele with
  | [] => Undefined
  | _ :: rest =>
      Returned
        (fold_left
           (fun acc m =>
              let node_string := node_sequence g (node_id m) in
              (acc ++ (if is_reverse m then reverse_complement node_string
                       else node_string))%string)
           (removelast rest) EmptyString)
  end.

(** The position of the first element equal to [x], as in the search loop
    of [add_alt_allele]. *)
Fixpoint index_of (x : string) (l : list string) (i : nat) : option nat :=
  match l with
  | [] => None
  | y :: l' => if String.eqb y x then Some i else index_of x l' (S i)
  end.

(** The state of the loop over the alleles: the alleles and the alts of
    the variant, [support_by_alt], [allele_to_alt] and [max_alt_number]. *)
Record alt_state := {
  variant_alleles : list string;
  variant_alt : list string;
  support_by_alt : list Support;
  allele_to_alt : list nat;
  max_alt_number : nat
}.

Definition empty_support : Support :=
  {| Support.forward := 0; Support.reverse := 0 |}.

(** [v.resize(n)] when [v] is shorter, and [v[i] = x]. *)
Definition resize_to (n : nat) (v : list Support) : list Support :=
  v ++ repeat empty_support (n - List.length v).

Fixpoint set_nth (A : Type) (i : nat) (x : A) (v : list A) : list A :=
  match v with
  | [] => []
  | y :: v' =>
      match i with
      | O => x :: v'
      | S i' => y :: set_nth i' x v'
      end
  end.

Definition add_allele (supports : list Support) (state : alt_state)
    (i_and_allele : nat * string) : alt_state :=
  let (i, allele) := i_and_allele in
  let fixed := fix_bases allele in
  let '(alt_number, alleles', alt') :=
    match index_of fixed (variant_alleles state) 0 with
    | Some k => (k, variant_alleles state, variant_alt state)
    | None => (List.length (variant_alleles state),
               variant_alleles state ++ [fixed], variant_alt state ++ [fixed])
    end in
  {| variant_alleles := alleles';
     variant_alt := alt';
     support_by_alt :=
       match nth_error supports i with
       | Some support =>
           set_nth alt_number support
             (if List.length (support_by_alt state) <=? alt_number
              then resize_to (alt_number + 1) (support_by_alt state)
              else support_by_alt state)
       | None => support_by_alt state
       end;
     allele_to_alt := allele_to_alt state ++ [alt_number];
     max_alt_number := Nat.max (max_alt_number state) alt_number |}.

(** The two allele numbers of a genotype; the assertion that there are
    two fails otherwise, and a negative number is no index. *)
Definition diploid (gt : Genotype) : outcome (Z * Z) :=
  match Genotype.allele gt with
  | [a; b] => Returned (a, b)
  | _ => AssertionFailed
  end.

(** [allele_to_alt[i]], undefined out of range, and [allele_to_alt.at(i)],
    which throws. *)
Definition alt_of (unchecked : bool) (allele_to_alt : list nat) (i : Z)
  : outcome nat :=
  match at_ allele_to_alt i with
  | Some k => Returned k
  | None => if unchecked then Undefined else Thrown "out_of_range"
  end.

Definition place_likelihood (allele_to_alt : list nat) (best : R)
    (log_likelihoods : list (option R)) (gt : Genotype)
  : outcome (list (option R)) :=
  ab <- diploid gt ;;
  low_alt <- alt_of false allele_to_alt (fst ab) ;;
  high_alt <- alt_of false allele_to_alt (snd ab) ;;
  let (low_alt, high_alt) :=
    if high_alt <? low_alt then (high_alt, low_alt) else (low_alt, high_alt) in
  let index := (high_alt * (high_alt + 1)) / 2 + low_alt in
  match update_nth index (fun _ => Some (Genotype.log_likelihood gt - best)%R)
          log_likelihoods with
  | Some v => Returned v
  | None => Thrown "out_of_range"
  end.

(** The second half of [locus_to_variant], from [create_ref_allele] on:
    the record for the allele strings, the reference string and the start
    of the interval, once they are fixed up. *)
Definition fill_variant (locus : Locus) (allele_strings : list string)
    (refString : string) (referenceIntervalStart : nat) : outcome (list Variant) :=
  let alts :=
    fold_left (add_allele (Locus.support locus))
      (combine (seq 0 (List.length allele_strings)) allele_strings)
      {| variant_alleles := [refString]; variant_alt := [];
         support_by_alt := []; allele_to_alt := []; max_alt_number := 0 |} in
  match Locus.genotype locus with
  | [] => AssertionFailed
  | best_genotype :: _ =>
      best <- diploid best_genotype ;;
      gt0 <- alt_of true (allele_to_alt alts) (fst best) ;;
      gt1 <- alt_of true (allele_to_alt alts) (snd best) ;;
      let max := max_alt_number alts in
      log_likelihoods <-
        for_each (place_likelihood (allele_to_alt alts)
                    (Genotype.log_likelihood best_genotype))
                 (Locus.genotype locus)
                 (repeat None ((max * (max + 1)) / 2 + max + 1)) ;;
      Returned
        [ {| Variant.position := referenceIntervalStart + 1;
             Variant.ref := fix_bases refString;
             Variant.alt := variant_alt alts;
             Variant.alleles := variant_alleles alts;
             Variant.GT := (gt0, Genotype.is_phased best_genotype, gt1);
             Variant.DP :=
               (Support.forward (Locus.overall_support locus)
                + Support.reverse (Locus.overall_support locus))%Z;
             Variant.AD :=
               map (fun s => (Support.forward s + Support.reverse s)%Z)
                   (support_by_alt alts);
             Variant.PL := log_likelihoods |} ]
  end.

(** The loop that spells the alleles of the Locus. *)
Definition spell_alleles (g : VG) (alleles : list (list Mapping))
  : outcome (list string) :=
  for_each (fun acc allele => s <- allele_to_string g allele ;; Returned (acc ++ [s]))
           alleles [].

(** [Genotyper::locus_to_variant]. *)
Definition locus_to_variant (g : VG) (site : Site) (index : ReferenceIndex)
    (locus : Locus) : outcome (list Variant) :=
  match Locus.allele locus with
  | [] => Thrown "Can't turn an empty genotype into VCF"
  | [] :: _ => Thrown "Can't turn an empty allele into VCF"
  | (_ :: _) :: _ =>
      let first_id := node (start site) in
      let last_id := node (end_ site) in
      match find Z.compare first_id (ReferenceIndex.byId index),
            find Z.compare last_id (ReferenceIndex.byId index) with
      | Some first_appearance, Some last_appearance =>
          let referenceIntervalStart :=
            fst first_appearance + String.length (node_sequence g first_id) in
          let referenceIntervalPastEnd := fst last_appearance in
          _ <- assert (referenceIntervalStart <=? referenceIntervalPastEnd) ;;
          refString <- substr (ReferenceIndex.sequence index) referenceIntervalStart
                         (referenceIntervalPastEnd - referenceIntervalStart) ;;
          allele_strings <- spell_alleles g (Locus.allele locus) ;;
          let empty_alleles :=
            String.eqb refString EmptyString
            || existsb (fun allele => String.eqb allele EmptyString) allele_strings in
          if empty_alleles then
            (* [referenceIntervalStart - 1] wraps around at 0 *)
            prefix <- (if referenceIntervalStart =? 0 then Thrown "out_of_range"
                       else substr (ReferenceIndex.sequence index)
                              (referenceIntervalStart - 1) 1) ;;
            fill_variant locus
              (map (fun allele => (prefix ++ allele)%string) allele_strings)
              (prefix ++ refString)%string (referenceIntervalStart - 1)
          else fill_variant locus allele_strings refString referenceIntervalStart
      | _, _ => Returned []
      end
  end.

(** For the statements about the emitter: a node is on the reference
    path; the reference interval of a site; and a Locus the emitter can
    render. *)
Definition on_reference_path (g : VG) (refPathName : string) (id : id_t) : Prop :=
  exists m, In m (get_path g refPathName) /\ node_id m = id.

Definition reference_interval (g : VG) (site : Site) (index : ReferenceIndex)
  : option (nat * nat) :=
  match find Z.compare (node (start site)) (ReferenceIndex.byId index),
        find Z.compare (node (end_ site)) (ReferenceIndex.byId index) with
  | Some first_appearance, Some last_appearance =>
      Some (fst first_appearance
            + String.length (node_sequence g (node (start site))),
            fst last_appearance)
  | _, _ => None
  end.

(** The interval runs forward and starts after the first base of the
    reference and inside it; every allele has a mapping; there is a
    genotype, and every genotype has two allele numbers of the Locus. *)
Definition renderable (g : VG) (site : Site) (index : ReferenceIndex)
    (locus : Locus) : Prop :=
  (exists interval_start interval_end,
     reference_interval g site index = Some (interval_start, interval_end) /\
     0 < interval_start <= interval_end /\
     interval_start <= String.length (ReferenceIndex.sequence index)) /\
  Forall (fun allele => allele <> []) (Locus.allele locus) /\
  Locus.genotype locus <> [] /\
  Forall (fun gt => exists a b,
            Genotype.allele gt = [a; b] /\
            (0 <= a < Z.of_nat (List.length (Locus.allele locus)))%Z /\
            (0 <= b < Z.of_nat (List.length (Locus.allele locus)))%Z)
         (Locus.genotype locus).

(** An entry of the affinities is well-formed when its pointer is to one
    of the alignments and it has one affinity per allele. *)
Definition well_formed_entry (alignments : list Alignment) (n : nat)
    (x : nat * list Affinity) : Prop :=
  fst x < List.length alignments /\ List.length (snd x) = n.

(** For the statements about the likelihood: the number of the two
    allele slots of the genotype [(i, j)] that a read is consistent with,
    and what the read adds to the log-likelihood. *)
Definition slot_consistent (consistency : list Affinity) (allele : Z) : bool :=
  match at_ consistency allele with
  | Some a => Affinity.consistent a
  | None => false
  end.

Definition matched_slots (i j : Z) (consistency : list Affinity) : Z :=
  ((if slot_consistent consistency i then 1 else 0)
   + (if slot_consistent consistency j then 1 else 0))%Z.

Definition read_term (self : Genotyper) (i j : Z)
    (read_and_consistency : Alignment * list Affinity) : R :=
  let k := matched_slots i j (snd read_and_consistency) in
  if (k =? 0)%Z then logprob_wrong self (fst read_and_consistency)
  else ln (IZR k / 2).

(** For the statements about the strand counts: the reads consistent
    with an allele on a given strand, the entry of an allele in the
    strand counts, and the number of slots of a genotype that hold an
    allele. *)
Definition supports (allele : Z) (reverse : bool)
    (read_and_consistency : Alignment * list Affinity) : bool :=
  match at_ (snd read_and_consistency) allele with
  | Some a => Affinity.consistent a && Bool.eqb (Affinity.is_reverse a) reverse
  | None => false
  end.

Definition support_of (allele : Z) (reverse : bool)
    (reads : list (Alignment * list Affinity)) : Z :=
  Z.of_nat (List.length (filter (supports allele reverse) reads)).

Definition strand_of (counts : strand_counts) (allele : Z) : Z * Z :=
  match find Z.compare allele counts with
  | Some fr => fr
  | None => (0, 0)%Z
  end.

Definition slots_of (allele : Z) (genotype : list Z) : Z :=
  Z.of_nat (List.length (filter (Z.eqb allele) genotype)).

(** Pairs of counts: sums, multiples, and the pair of one read. *)
Definition add_pair (p q : Z * Z) : Z * Z := (fst p + fst q, snd p + snd q)%Z.

Definition one_read (a : Z) (rc : Alignment * list Affinity) : Z * Z :=
  ((if supports a false rc then 1 else 0)%Z, (if supports a true rc then 1 else 0)%Z).

Definition scale (n : Z) (p : Z * Z) : Z * Z := (n * fst p, n * snd p)%Z.

(** *** The scorer's view of a read, in the words of the specification

    "For each read that visits a node in site.contents, extract the
    sub-traversal restricted to those nodes, canonicalize its orientation
    (...reverse both order and per-element orientation...).  Obtain the
    read's site-sequence seq."  These definitions say it without the
    functions of the program, for the statements to compare the two; the
    test for a read that goes backward is the one of the program, on the
    first traversal as well as on the last. *)

Definition site_restricted (site : Site) (p : list Mapping) : list NodeTraversal :=
  map (fun m => {| node := node_id m; backward := is_reverse m |})
      (filter (fun m => if in_dec Z.eq_dec (node_id m) (contents site)
                        then true else false) p).

Definition flipped (t : NodeTraversal) : NodeTraversal :=
  {| node := node t; backward := negb (backward t) |}.

Definition nt_eq_dec (a b : NodeTraversal) : {a = b} + {a <> b}.
Proof. decide equality; [apply Bool.bool_dec | apply Z.eq_dec]. Defined.

Definition canonicalized (site : Site) (rt : list NodeTraversal)
  : list NodeTraversal :=
  match rt with
  | [] => []
  | first :: _ =>
      if nt_eq_dec first (flipped (end_ site)) then rev (map flipped rt)
      else if nt_eq_dec (last rt first) (flipped (start site))
           then rev (map flipped rt)
      else rt
  end.

(** "The concatenation of node sequences along the traversal (respecting
    orientation)". *)
Definition site_sequence (g : VG) (rt : list NodeTraversal) : string :=
  String.concat EmptyString
    (map (fun t => if backward t then reverse_complement (node_sequence g (node t))
                   else node_sequence g (node t)) rt).

(** *** The enumerator's walks, in the words of the specification

    "Intersect the sets of embedded path names touching start.node and
    end.node.  For each such path, start from each of its occurrences on
    start.node.  Determine a walking direction: traverse right unless
    exactly one of start.backward and the mapping's own strand is set, in
    which case traverse left.  Determine the expected end orientation
    correspondingly.  Walk up to max_path_search_steps mappings
    collecting a list of NodeTraversals ...  Stop on reaching end.node in
    the expected orientation." *)

Definition names_touching (g : VG) (id : id_t) : list string :=
  map fst (filter (fun p : string * list Mapping =>
                     existsb (fun m => (node_id m =? id)%Z) (snd p))
                  (paths g)).

(** The occurrences on the start node of the paths whose names touch both
    ends of the site. *)
Definition occurrences_on_start (g : VG) (site : Site) : list MappingPtr :=
  flat_map
    (fun p : string * list Mapping =>
       if existsb (String.eqb (fst p)) (names_touching g (node (end_ site)))
       then
         flat_map
           (fun i =>
              match nth_error (snd p) i with
              | Some m =>
                  if (node_id m =? node (start site))%Z
                  then [{| ptr_name := fst p; ptr_path := snd p; ptr_index := i |}]
                  else []
              | None => []
              end)
           (seq 0 (List.length (snd p)))
       else [])
    (paths g).

(** The mappings of a path in walking order from position [i] on, the
    one at [i] first. *)
Definition ahead (left : bool) (ms : list Mapping) (i : nat) : list Mapping :=
  if left then rev (firstn (S i) ms) else skipn i ms.

(** The mappings up to the first one at which to stop, if there is one. *)
Fixpoint up_to (stop : Mapping -> bool) (ms : list Mapping) : option (list Mapping) :=
  match ms with
  | [] => None
  | m :: ms' => if stop m then Some [m] else option_map (cons m) (up_to stop ms')
  end.

(** One pass of a path through the site, from an occurrence on the start
    node: the traversals walked, when the end node is reached in the
    expected orientation within [max_path_search_steps] mappings. *)
Definition pass (self : Genotyper) (site : Site) (p : MappingPtr)
  : option (list NodeTraversal) :=
  match nth_error (ptr_path p) (ptr_index p) with
  | None => None
  | Some m0 =>
      let left := xorb (backward (start site)) (is_reverse m0) in
      let expected := xorb (backward (end_ site)) left in
      option_map
        (map (fun m => {| node := node_id m; backward := xorb (is_reverse m) left |}))
        (up_to (fun m => (node_id m =? node (end_ site))%Z
                         && Bool.eqb (is_reverse m) expected)
               (firstn (max_path_search_steps self)
                       (ahead left (ptr_path p) (ptr_index p))))
  end.

Definition passes (self : Genotyper) (site : Site) (order : list MappingPtr)
  : list (list NodeTraversal) :=
  flat_map (fun p => match pass self site p with
                     | Some t => [t]
                     | None => []
                     end) order.

(** How many of the passes spell [seq]. *)
Definition passes_spelling (g : VG) (seq : string)
    (ts : list (list NodeTraversal)) : Z :=
  Z.of_nat (List.length (filter (fun t => String.eqb (site_sequence g t) seq) ts)).

(** *** A small graph to run the definitions on

    Nodes 1 ("A"), 2 ("C"), 3 ("GG"), 4 ("T"); node 1 is followed by 2 or
    by 3, and both are followed by 4. *)

Definition mk_mapping (id : id_t) (rev : bool) : Mapping :=
  {| node_id := id; is_reverse := rev; edit_to_length := []; rank := 0 |}.

Definition mk_ranked (id : id_t) (rev : bool) (r : Z) : Mapping :=
  {| node_id := id; is_reverse := rev; edit_to_length := []; rank := r |}.

Definition fwd (id : id_t) : NodeTraversal := {| node := id; backward := false |}.
Definition rev_ (id : id_t) : NodeTraversal := {| node := id; backward := true |}.

Definition bubble_sequence (id : id_t) : string :=
  if (id =? 1)%Z then "A"
  else if (id =? 2)%Z then "C"
  else if (id =? 3)%Z then "GG"
  else if (id =? 4)%Z then "T"
  else EmptyString.

Definition bubble_site : Site :=
  {| start := fwd 1; end_ := fwd 4; contents := [1; 2; 3; 4]%Z |}.

Definition bubble_graph : VG :=
  {| node_sequence := bubble_sequence;
     paths :=
       [ ("read1"%string, [mk_mapping 1 false; mk_mapping 3 false; mk_mapping 4 false]);
         ("read2"%string, [mk_mapping 4 true; mk_mapping 3 true; mk_mapping 1 true]);
         ("read3"%string, [mk_mapping 1 false; mk_mapping 2 false]);
         ("ref"%string, [mk_ranked 1 false 1; mk_ranked 2 false 2; mk_ranked 4 false 3]) ] |}.

Definition settings (steps : nat) (recurrence : Z) : Genotyper :=
  {| max_path_search_steps := steps; min_recurrence := recurrence;
     default_sequence_quality := 15; use_mapq := true;
     het_prior_logprob := ln (/ 1000) |}.


(** *** A graph in which two routes spell the same sequence

    Nodes 1 ("A"), 2 ("C"), 3 ("C"), 4 ("T"): the two routes through the
    site both spell "ACT". *)

Definition twin_sequence (id : id_t) : string :=
  if (id =? 1)%Z then "A"
  else if (id =? 2)%Z then "C"
  else if (id =? 3)%Z then "C"
  else if (id =? 4)%Z then "T"
  else EmptyString.

Definition twin_graph : VG :=
  {| node_sequence := twin_sequence;
     paths :=
       [ ("read1"%string, [mk_mapping 1 false; mk_mapping 2 false; mk_mapping 4 false]);
         ("read2"%string, [mk_mapping 1 false; mk_mapping 3 false; mk_mapping 4 false]) ] |}.

Definition twin_order : list MappingPtr := start_mappings twin_graph bubble_site.

(** *** Reads on the example graph

    [read1], [read2] and [read3] are the reads embedded in [bubble_graph];
    [read3] stops inside the site, and [read4] only touches its start. *)

Definition mk_read (n : string) (p : list Mapping) : Alignment :=
  {| name := n; path := p; sequence := EmptyString; quality := [];
     mapping_quality := 60 |}.

Definition bubble_reads : list Alignment :=
  [ mk_read "read1" [mk_mapping 1 false; mk_mapping 3 false; mk_mapping 4 false];
    mk_read "read2" [mk_mapping 4 true; mk_mapping 3 true; mk_mapping 1 true];
    mk_read "read3" [mk_mapping 1 false; mk_mapping 2 false] ].

Definition bubble_alleles : list (list NodeTraversal) :=
  [[fwd 1; fwd 2; fwd 4]; [fwd 1; fwd 3; fwd 4]].

Definition mk_affinity (consistent reverse : bool) : Affinity :=
  {| Affinity.affinity := if consistent then 1 else 0;
     Affinity.is_reverse := reverse;
     Affinity.consistent := consistent |}.

(** What the fast scorer returns for them. *)
Definition bubble_to_return : list (nat * list Affinity) :=
  [ (0, [mk_affinity false false; mk_affinity true false]);
    (1, [mk_affinity false true; mk_affinity true true]);
    (2, [mk_affinity true false; mk_affinity false false]) ].

Definition read2_affinities : list Affinity :=
  [mk_affinity false true; mk_affinity true true].

(** A graph with a read that touches the start of the site and nothing
    else of it. *)
Definition anchor_read : Alignment := mk_read "read1" [mk_mapping 1 false].

Definition anchor_graph : VG :=
  {| node_sequence := bubble_sequence;
     paths :=
       [ ("read1"%string, [mk_mapping 1 false]);
         ("ref"%string, [mk_mapping 1 false; mk_mapping 2 false; mk_mapping 4 false]) ] |}.

(** *** A read consistent with the first allele, on the forward strand *)

Definition forward_read : Alignment * list Affinity :=
  (mk_read "read1" [mk_mapping 1 false; mk_mapping 2 false; mk_mapping 4 false],
   [mk_affinity true false; mk_affinity false false]).

(** The affinities the fast scorer returns for the reads of the example,
    by alignment. *)
Definition bubble_affinities_by_read : list (nat * list Affinity) := bubble_to_return.

(** *** Loci on the example graph *)

Definition mk_genotype (a b : Z) (likelihood prior : R) : Genotype :=
  {| Genotype.allele := [a; b];
     Genotype.log_likelihood := likelihood;
     Genotype.log_prior := prior;
     Genotype.log_posterior := (likelihood + prior)%R;
     Genotype.is_phased := false |}.

Definition bubble_locus : Locus :=
  {| Locus.allele := map path_from_node_traversals bubble_alleles;
     Locus.support := [ {| Support.forward := 1; Support.reverse := 0 |};
                        {| Support.forward := 1; Support.reverse := 1 |} ];
     Locus.genotype := [ mk_genotype 1 0 0 0; mk_genotype 1 1 (-1) 0;
                         mk_genotype 0 0 (-2) 0 ];
     Locus.overall_support := {| Support.forward := 2; Support.reverse := 1 |} |}.

(** A Locus without alleles, a site that starts on node 3, which is not
    on the reference path, and the site of the example with its start and
    end exchanged, so that it runs against the reference. *)
Definition empty_locus : Locus :=
  {| Locus.allele := []; Locus.support := []; Locus.genotype := [];
     Locus.overall_support := {| Support.forward := 0; Support.reverse := 0 |} |}.

(** A Locus whose first allele has no mapping. *)
Definition hollow_locus : Locus :=
  {| Locus.allele := [[]]; Locus.support := []; Locus.genotype := [];
     Locus.overall_support := {| Support.forward := 0; Support.reverse := 0 |} |}.

Definition off_reference_site : Site :=
  {| start := fwd 3; end_ := fwd 4; contents := [3; 4]%Z |}.

Definition backward_site : Site :=
  {| start := fwd 4; end_ := fwd 1; contents := [1; 2; 3; 4]%Z |}.

Definition backward_locus : Locus :=
  {| Locus.allele := [path_from_node_traversals [fwd 4; fwd 1]];
     Locus.support := [ {| Support.forward := 1; Support.reverse := 0 |} ];
     Locus.genotype := [ mk_genotype 0 0 0 0 ];
     Locus.overall_support := {| Support.forward := 1; Support.reverse := 0 |} |}.

(** The reference index of the example graph: the path [ref] visits nodes
    1, 2 and 4 and spells "ACT". *)
Definition bubble_index : ReferenceIndex :=
  {| ReferenceIndex.byId := [ (1%Z, (0, false)); (2%Z, (1, false)); (4%Z, (2, false)) ];
     ReferenceIndex.byStart := [ (0, fwd 1); (1, fwd 2); (2, fwd 4) ];
     ReferenceIndex.sequence := "ACT" |}.

(** *** Reads that run past an allele

    The graph of the example with two more nodes in the site, 6 ("CTG")
    and 7 ("GAC").  [read2] starts at the start of the site and spells
    "ACTG", which runs past the allele "ACT" at its end; [read3] ends at
    the end of the site and spells "GACT", which runs past it at its
    front; [read4] lies on the inner node 3. *)

Definition overrun_sequence (id : id_t) : string :=
  if (id =? 6)%Z then "CTG"
  else if (id =? 7)%Z then "GAC"
  else bubble_sequence id.

Definition overrun_site : Site :=
  {| start := fwd 1; end_ := fwd 4; contents := [1; 2; 3; 4; 6; 7]%Z |}.

Definition overrun_reads : list Alignment :=
  [ mk_read "read1" [mk_mapping 1 false; mk_mapping 3 false; mk_mapping 4 false];
    mk_read "read2" [mk_mapping 1 false; mk_mapping 6 false];
    mk_read "read3" [mk_mapping 7 false; mk_mapping 4 false];
    mk_read "read4" [mk_mapping 3 false] ].

Definition overrun_graph : VG :=
  {| node_sequence := overrun_sequence;
     paths :=
       [ ("read1"%string, [mk_mapping 1 false; mk_mapping 3 false; mk_mapping 4 false]);
         ("read2"%string, [mk_mapping 1 false; mk_mapping 6 false]);
         ("read3"%string, [mk_mapping 7 false; mk_mapping 4 false]);
         ("read4"%string, [mk_mapping 3 false]);
         ("ref"%string, [mk_ranked 1 false 1; mk_ranked 2 false 2; mk_ranked 4 false 3]) ] |}.

Definition overrun_to_return : list (nat * list Affinity) :=
  [ (0, [mk_affinity false false; mk_affinity true false]);
    (1, [mk_affinity false false; mk_affinity false false]);
    (2, [mk_affinity false false; mk_affinity false false]);
    (3, [mk_affinity false false; mk_affinity false false]) ].

(** *** A reference path that goes through the site twice

    The only path of the graph is [ref], which visits 1, 2, 4 and then 1,
    2, 4 again. *)
Definition twice_graph : VG :=
  {| node_sequence := bubble_sequence;
     paths :=
       [ ("ref"%string,
          [mk_ranked 1 false 1; mk_ranked 2 false 2; mk_ranked 4 false 3;
           mk_ranked 1 false 4; mk_ranked 2 false 5; mk_ranked 4 false 6]) ] |}.

(** *** A read with mapping quality 0, consistent with no allele *)
Definition unmapped_read : Alignment * list Affinity :=
  ({| name := "read1"; path := [mk_mapping 1 false; mk_mapping 2 false; mk_mapping 4 false];
      sequence := EmptyString; quality := []; mapping_quality := 0 |},
   [mk_affinity false false; mk_affinity false false]).

(* ================================================================= *)
(** ** Notions and example data for the further properties *)

(** A read touches a node of the site: one of its mappings is on it. *)
Definition touches (site : Site) (read : Alignment) (id : id_t) : Prop :=
  in_contents site id = true /\ exists m, In m (path read) /\ node_id m = id.

(** A path of the graph visits a node. *)
Definition visits (ms : list Mapping) (id : id_t) : Prop :=
  exists m, In m ms /\ node_id m = id.

(** A graph with a read that lies on the inner node 3 of the site and
    touches neither of its ends. *)
Definition inner_read : Alignment := mk_read "read1" [mk_mapping 3 false].

Definition inner_graph : VG :=
  {| node_sequence := bubble_sequence;
     paths :=
       [ ("read1"%string, [mk_mapping 3 false]);
         ("ref"%string, [mk_mapping 1 false; mk_mapping 2 false; mk_mapping 4 false]) ] |}.

(** A site that leaves node 1 forward and comes back into it: its end is
    the reverse of its start.  The read lies on node 1 alone. *)
Definition hairpin_site : Site :=
  {| start := fwd 1; end_ := rev_ 1; contents := [1; 2]%Z |}.

Definition hairpin_graph : VG :=
  {| node_sequence := bubble_sequence;
     paths := [ ("read1"%string, [mk_mapping 1 false]) ] |}.

(** A Locus of the site of the example with the reference allele and a
    deletion, which goes from node 1 to node 4 and spells nothing. *)
Definition deletion_locus : Locus :=
  {| Locus.allele := map path_from_node_traversals
                       [[fwd 1; fwd 2; fwd 4]; [fwd 1; fwd 4]];
     Locus.support := [ {| Support.forward := 1; Support.reverse := 0 |};
                        {| Support.forward := 1; Support.reverse := 1 |} ];
     Locus.genotype := [ mk_genotype 1 0 0 0; mk_genotype 1 1 (-1) 0;
                         mk_genotype 0 0 (-2) 0 ];
     Locus.overall_support := {| Support.forward := 2; Support.reverse := 1 |} |}.

(** A read with two base qualities. *)
Definition qual_read : Alignment :=
  {| name := "read1"; path := [mk_mapping 1 false]; sequence := "AC";
     quality := [30; 41]%Z; mapping_quality := 60 |}.

(** For the statements about the supports of a Locus: an affinity
    supports its allele on a strand; the affinities of a read support
    allele number [a] on a strand; they support some allele on a strand;
    and the number of reads that support allele [a] on a strand. *)
Definition affinity_supports (reverse : bool) (af : Affinity) : bool :=
  Affinity.consistent af && Bool.eqb (Affinity.is_reverse af) reverse.

Definition supports_at (a : nat) (reverse : bool) (affs : list Affinity) : bool :=
  match nth_error affs a with
  | Some af => affinity_supports reverse af
  | None => false
  end.

(** What one read adds to a count. *)
Definition bump (b : bool) : Z := if b then 1%Z else 0%Z.

Definition supports_some (reverse : bool) (x : nat * list Affinity) : bool :=
  existsb (affinity_supports reverse) (snd x).

Definition reads_supporting (a : nat) (reverse : bool)
    (affinities : list (nat * list Affinity)) : Z :=
  Z.of_nat (List.length (filter (fun x => supports_at a reverse (snd x)) affinities)).

(** The reads as [genotype_site] hands them to the likelihood: each
    alignment with its qualities cut down to the site, beside its
    affinities. *)
Definition trimmed (site : Site) (alignment : Alignment) : Alignment :=
  {| name := name alignment; path := path alignment;
     sequence := sequence alignment;
     quality := get_qualities_in_site site alignment;
     mapping_quality := mapping_quality alignment |}.

Definition trimmed_reads (site : Site) (alignments : list Alignment)
    (affinities : list (nat * list Affinity)) : list (Alignment * list Affinity) :=
  flat_map (fun x : nat * list Affinity =>
              match nth_error alignments (fst x) with
              | Some alignment => [(trimmed site alignment, snd x)]
              | None => []
              end)
           affinities.

(** For the statements about the emitted record: a string of called
    bases, A, C, G, T and N only. *)
Definition called_base (c : ascii) : bool :=
  Ascii.eqb c "A" || Ascii.eqb c "C" || Ascii.eqb c "G" || Ascii.eqb c "T"
  || Ascii.eqb c "N".

Fixpoint called_bases (s : string) : bool :=
  match s with
  | EmptyString => true
  | String c s' => called_base c && called_bases s'
  end.

(** What the loop over the alleles of the Locus keeps true of the
    record, once the allele strings [done] are in: the alleles are the
    reference string followed by the alts, without repetition; the
    largest alt number is the number of alts; and every allele string has
    its alt number, under which the record holds its normalised text. *)
Definition alts_wf (refString : string) (done : list string) (state : alt_state)
  : Prop :=
  variant_alleles state = refString :: variant_alt state /\
  NoDup (variant_alleles state) /\
  max_alt_number state = List.length (variant_alt state) /\
  List.length (allele_to_alt state) = List.length done /\
  (forall i s, nth_error done i = Some s ->
     exists k, nth_error (allele_to_alt state) i = Some k /\
               nth_error (variant_alleles state) k = Some (fix_bases s)) /\
  Forall (fun a => exists s, In s done /\ a = fix_bases s) (variant_alt state).

(** What the constructor's loop keeps true: the sequence written so far
    is [referenceBase] long, and at the offset recorded for a node it
    holds the sequence of the node as the path first read it. *)
Definition index_wf (g : VG) (index : ReferenceIndex) (referenceBase : nat) : Prop :=
  String.length (ReferenceIndex.sequence index) = referenceBase /\
  forall id off rev,
    find Z.compare id (ReferenceIndex.byId index) = Some (off, rev) ->
    let s := if off =? 0 then drop_invalid_leading (node_sequence g id)
             else node_sequence g id in
    off + String.length s <= String.length (ReferenceIndex.sequence index) /\
    substring off (String.length s) (ReferenceIndex.sequence index)
    = (if rev then reverse_complement s else s).

(** The two ends of a site exchanged, and the alleles [run] goes on with
    for a site: those of the site as given, or, when there are none,
    those of the site with its ends exchanged, which then replaces the
    site; when that has none either, the site is put back. *)
Definition swap_ends (site : Site) : Site :=
  {| start := end_ site; end_ := start site; contents := contents site |}.

Definition paths_for_site (self : Genotyper) (g : VG) (site : Site)
  : Site * list (list NodeTraversal) :=
  match get_paths_through_site self g site with
  | [] =>
      match get_paths_through_site self g (swap_ends site) with
      | [] => (site, [])
      | reverse_paths => (swap_ends site, reverse_paths)
      end
  | paths => (site, paths)
  end.

(** One list is the other with some elements left out, the order kept. *)
Inductive subsequence (A : Type) : list A -> list A -> Prop :=
| subsequence_nil : forall l, subsequence [] l
| subsequence_take : forall x l1 l2,
    subsequence l1 l2 -> subsequence (x :: l1) (x :: l2)
| subsequence_skip : forall x l1 l2,
    subsequence l1 l2 -> subsequence l1 (x :: l2).

(** A site whose ends are given the wrong way around for the reads of
    the example graph. *)
Definition inside_out_site : Site :=
  {| start := fwd 4; end_ := fwd 1; contents := [1; 2; 3; 4]%Z |}.
(* ================================================================= *)
(** * Properties *)

(* ================================================================= *)
(** ** Facts about ordered maps *)

Section OrdMapFacts.
Variables (K V : Type) (cmp : K -> K -> comparison).

Hypothesis cmp_eq : forall a b, cmp a b = Eq <-> a = b.

Lemma find_insert_same k (v : V) m : find cmp k (insert cmp k v m) = Some v.
Proof.
  assert (Hr : cmp k k = Eq) by now apply cmp_eq.
  induction m as [|[k' v'] m IH]; simpl.
  - now rewrite Hr.
  - destruct (cmp k k') eqn:E; simpl; rewrite ?Hr, ?E; auto.
Qed.

Lemma find_insert_other k k2 (v : V) m :
  k2 <> k -> find cmp k2 (insert cmp k v m) = find cmp k2 m.
Proof.
  intros Hne.
  assert (Hn : cmp k2 k <> Eq) by (intros H; now apply cmp_eq in H).
  induction m as [|[k' v'] m IH]; simpl.
  - destruct (cmp k2 k); congruence.
  - destruct (cmp k k') eqn:E; simpl.
    + apply cmp_eq in E; subst k'. destruct (cmp k2 k); congruence.
    + destruct (cmp k2 k); congruence.
    + now rewrite IH.
Qed.

Lemma find_In k (v : V) m : find cmp k m = Some v -> In (k, v) m.
Proof.
  induction m as [|[k' v'] m IH]; simpl; [discriminate|].
  destruct (cmp k k') eqn:E; intros H; auto.
  apply cmp_eq in E. inversion H. subst. now left.
Qed.

Lemma In_insert x k (v : V) m : In x (insert cmp k v m) -> x = (k, v) \/ In x m.
Proof.
  induction m as [|[k' v'] m IH]; simpl.
  - intros [H|[]]; auto.
  - destruct (cmp k k'); simpl; intros H.
    + destruct H; auto.
    + destruct H as [H|[H|H]]; auto.
    + destruct H as [H|H]; auto. destruct (IH H); auto.
Qed.

Hypothesis cmp_antisym : forall a b, cmp b a = CompOpp (cmp a b).
Hypothesis cmp_trans :
  forall a b c, cmp a b = Lt -> cmp b c = Lt -> cmp a c = Lt.

Lemma insert_sorted k (v : V) m : sorted cmp m -> sorted cmp (insert cmp k v m).
Proof.
  unfold sorted. induction 1 as [|[k' v'] m Hs IH Hall]; simpl.
  - repeat constructor.
  - destruct (cmp k k') eqn:E.
    + apply cmp_eq in E. subst k'. constructor; auto.
    + constructor; [constructor; auto|].
      constructor; [exact E|].
      rewrite Forall_forall in *. intros y Hy.
      unfold key_lt in *; simpl in *. eapply cmp_trans; eauto.
    + constructor; auto.
      rewrite Forall_forall in *. intros y Hy.
      destruct (In_insert _ _ _ _ Hy) as [->|Hy']; auto.
      unfold key_lt; simpl. rewrite cmp_antisym, E. reflexivity.
Qed.

Lemma sorted_In_find k (v : V) m : sorted cmp m -> In (k, v) m -> find cmp k m = Some v.
Proof.
  unfold sorted. induction 1 as [|[k' v'] m Hs IH Hall]; simpl; [tauto|].
  intros [H|H].
  - inversion H; subst. assert (E : cmp k k = Eq) by now apply cmp_eq.
    now rewrite E.
  - rewrite Forall_forall in Hall. specialize (Hall _ H).
    unfold key_lt in Hall; simpl in Hall.
    rewrite cmp_antisym, Hall. simpl. auto.
Qed.
Lemma sorted_NoDup_keys (m : list (K * V)) : sorted cmp m -> NoDup (keys m).
Proof.
  unfold sorted. induction 1 as [|[k v] m Hs IH Hall]; simpl; constructor; auto.
  intros Hin. apply in_map_iff in Hin. destruct Hin as ([k' v'] & Hk & Hin).
  simpl in Hk; subst k'. rewrite Forall_forall in Hall. specialize (Hall _ Hin).
  unfold key_lt in Hall; simpl in Hall.
  assert (E : cmp k k = Eq) by now apply cmp_eq. congruence.
Qed.
End OrdMapFacts.

Lemma string_compare_antisym (a b : string) :
String.compare b a = CompOpp (String.compare a b).
Proof. apply String.compare_antisym. Qed.

Lemma ascii_compare_lt_trans (a b c : ascii) :
Ascii.compare a b = Lt -> Ascii.compare b c = Lt -> Ascii.compare a c = Lt.
Proof.
unfold Ascii.compare. rewrite !N.compare_lt_iff. apply N.lt_trans.
Qed.

Lemma ascii_compare_eq (a b : ascii) : Ascii.compare a b = Eq -> a = b.
Proof.
unfold Ascii.compare. rewrite N.compare_eq_iff. intros H.
rewrite <- (ascii_N_embedding a), <- (ascii_N_embedding b). now rewrite H.
Qed.

Lemma string_compare_lt_trans (a b c : string) :
String.compare a b = Lt -> String.compare b c = Lt -> String.compare a c = Lt.
Proof.
revert b c. induction a as [|x a IH]; intros [|y b] [|z c]; simpl;
  try discriminate; auto.
destruct (Ascii.compare x y) eqn:E1; try discriminate;
  destruct (Ascii.compare y z) eqn:E2; try discriminate; intros H1 H2.
- apply ascii_compare_eq in E1, E2. subst.
  assert (Hz : Ascii.compare z z = Eq).
  { unfold Ascii.compare. apply N.compare_refl. }
  rewrite Hz. eauto.
- apply ascii_compare_eq in E1. subst. now rewrite E2.
- apply ascii_compare_eq in E2. subst. now rewrite E1.
- now rewrite (ascii_compare_lt_trans _ _ _ E1 E2).
Qed.

Lemma string_compare_eq (a b : string) : String.compare a b = Eq <-> a = b.
Proof.
split; [apply String.compare_eq_iff|].
intros ->. induction b as [|c b IH]; simpl; auto.
assert (Hc : Ascii.compare c c = Eq).
{ unfold Ascii.compare. now rewrite N.compare_refl. }
now rewrite Hc.
Qed.

Lemma nat_compare_eq (a b : nat) : Nat.compare a b = Eq <-> a = b.
Proof. apply Nat.compare_eq_iff. Qed.

Lemma Z_compare_eq (a b : Z) : Z.compare a b = Eq <-> a = b.
Proof. apply Z.compare_eq_iff. Qed.


(** The facts above at string keys. *)

Section StringMapFacts.
Variable V : Type.
Implicit Types (k : string) (v : V) (m : list (string * V)).

Lemma sfind_insert_same k v m :
  find String.compare k (insert String.compare k v m) = Some v.
Proof. apply find_insert_same, string_compare_eq. Qed.

Lemma sfind_insert_other k k2 v m :
  k2 <> k -> find String.compare k2 (insert String.compare k v m)
             = find String.compare k2 m.
Proof. apply find_insert_other, string_compare_eq. Qed.

Lemma sfind_In k v m : find String.compare k m = Some v -> In (k, v) m.
Proof. apply find_In, string_compare_eq. Qed.

Lemma sinsert_sorted k v m :
  sorted String.compare m -> sorted String.compare (insert String.compare k v m).
Proof.
  apply insert_sorted;
    [exact string_compare_eq | exact string_compare_antisym
     | exact string_compare_lt_trans].
Qed.

Lemma ssorted_In_find k v m :
  sorted String.compare m -> In (k, v) m -> find String.compare k m = Some v.
Proof.
  apply sorted_In_find; [exact string_compare_eq | exact string_compare_antisym].
Qed.
End StringMapFacts.

(** And at keys that are natural numbers. *)

Lemma nat_compare_antisym (a b : nat) : Nat.compare b a = CompOpp (Nat.compare a b).
Proof. apply Nat.compare_antisym. Qed.

Lemma nat_compare_lt_trans (a b c : nat) :
  Nat.compare a b = Lt -> Nat.compare b c = Lt -> Nat.compare a c = Lt.
Proof. rewrite !Nat.compare_lt_iff. lia. Qed.

Section NatMapFacts.
Variable V : Type.
Implicit Types (k : nat) (v : V) (m : list (nat * V)).

Lemma nfind_insert_same k v m :
  find Nat.compare k (insert Nat.compare k v m) = Some v.
Proof. apply find_insert_same, nat_compare_eq. Qed.

Lemma nfind_insert_other k k2 v m :
  k2 <> k -> find Nat.compare k2 (insert Nat.compare k v m) = find Nat.compare k2 m.
Proof. apply find_insert_other, nat_compare_eq. Qed.

Lemma ninsert_sorted k v m :
  sorted Nat.compare m -> sorted Nat.compare (insert Nat.compare k v m).
Proof.
  apply insert_sorted;
    [exact nat_compare_eq | exact nat_compare_antisym | exact nat_compare_lt_trans].
Qed.

Lemma nsorted_In_find k v m :
  sorted Nat.compare m -> In (k, v) m -> find Nat.compare k m = Some v.
Proof.
  apply sorted_In_find; [exact nat_compare_eq | exact nat_compare_antisym].
Qed.
End NatMapFacts.

(** And at integer keys. *)

Section ZMapFacts.
Variable V : Type.
Implicit Types (k : Z) (v : V) (m : list (Z * V)).

Lemma zfind_insert_same k v m : find Z.compare k (insert Z.compare k v m) = Some v.
Proof. apply find_insert_same, Z_compare_eq. Qed.

Lemma zfind_insert_other k k2 v m :
  k2 <> k -> find Z.compare k2 (insert Z.compare k v m) = find Z.compare k2 m.
Proof. apply find_insert_other, Z_compare_eq. Qed.
End ZMapFacts.

(* ================================================================= *)
(** ** Strings and lists *)

Lemma string_app_assoc (a b c : string) : ((a ++ b) ++ c = a ++ (b ++ c))%string.
Proof. induction a as [|x a IH]; simpl; [reflexivity | now rewrite IH]. Qed.

Lemma string_app_nil_r (a : string) : (a ++ "" = a)%string.
Proof. induction a as [|x a IH]; simpl; [reflexivity | now rewrite IH]. Qed.

Lemma Permutation_filter_length (A : Type) (f : A -> bool) (l1 l2 : list A) :
  Permutation l1 l2 -> List.length (filter f l1) = List.length (filter f l2).
Proof.
  induction 1 as [|x l1 l2 _ IH|x y l|l1 l2 l3 _ IH1 _ IH2]; simpl.
  - reflexivity.
  - destruct (f x); simpl; congruence.
  - destruct (f x), (f y); reflexivity.
  - congruence.
Qed.

(* ================================================================= *)
(** ** The allele enumerator *)

(** *** The path index hands out mappings on the node asked for *)

Lemma positions_on_spec id ms k i :
  In i (positions_on id ms k) ->
  exists m, nth_error ms (i - k) = Some m /\ node_id m = id /\ k <= i.
Proof.
  revert k. induction ms as [|m0 ms IH]; simpl; intros k; [tauto|].
  destruct (node_id m0 =? id)%Z eqn:E; simpl.
  - intros [<-|H].
    + exists m0. rewrite Nat.sub_diag. apply Z.eqb_eq in E. auto.
    + destruct (IH _ H) as (m & Hn & Hid & Hle). exists m.
      replace (i - k) with (S (i - S k)) by lia. simpl. repeat split; auto; lia.
  - intros H. destruct (IH _ H) as (m & Hn & Hid & Hle). exists m.
    replace (i - k) with (S (i - S k)) by lia. simpl. repeat split; auto; lia.
Qed.

Lemma node_mapping_of_spec id ps name ptrs p :
  In (name, ptrs) (node_mapping_of id ps) -> In p ptrs ->
  exists m, deref p = Some m /\ node_id m = id.
Proof.
  induction ps as [|[n ms] ps IH]; simpl; [tauto|].
  destruct (positions_on id ms 0) as [|i0 ixs] eqn:E; [exact IH|].
  intros [H|H] Hp; [|now apply IH].
  inversion H; subst name ptrs.
  change (In p (map (fun i => {| ptr_name := n; ptr_path := ms; ptr_index := i |})
                    (i0 :: ixs))) in Hp.
  apply in_map_iff in Hp. destruct Hp as (i & <- & Hi). rewrite <- E in Hi.
  destruct (positions_on_spec _ _ _ _ Hi) as (m & Hn & Hid & _).
  exists m. unfold deref; simpl. rewrite Nat.sub_0_r in Hn. auto.
Qed.

(** *** The mappings the loops start from are the occurrences on the
    start node of the paths that touch both ends of the site *)

Lemma positions_on_nil id ms : forall k,
  positions_on id ms k = [] <-> existsb (fun m => (node_id m =? id)%Z) ms = false.
Proof.
  induction ms as [|m ms IH]; intros k; simpl; [tauto|].
  destruct (node_id m =? id)%Z; simpl; [split; discriminate | apply IH].
Qed.

Lemma positions_on_seq (name : string) id ms : forall front k,
  List.length front = k ->
  flat_map
    (fun i =>
       match nth_error (front ++ ms) i with
       | Some m =>
           if (node_id m =? id)%Z
           then [{| ptr_name := name; ptr_path := front ++ ms; ptr_index := i |}]
           else []
       | None => []
       end)
    (seq k (List.length ms))
  = map (fun i => {| ptr_name := name; ptr_path := front ++ ms; ptr_index := i |})
        (positions_on id ms k).
Proof.
  induction ms as [|m ms IH]; intros front k Hk; [reflexivity|].
  cbn [List.length seq flat_map positions_on].
  rewrite nth_error_app2 by lia. rewrite Hk, Nat.sub_diag. cbn [nth_error].
  specialize (IH (front ++ [m]) (S k)).
  rewrite <- app_assoc in IH. cbn [app] in IH.
  rewrite IH by (rewrite length_app; simpl; lia).
  destruct (node_id m =? id)%Z; reflexivity.
Qed.

Lemma count_node_mapping_of id name ps :
  count String.compare name (node_mapping_of id ps)
  = existsb (String.eqb name)
      (map fst (filter (fun p : string * list Mapping =>
                          existsb (fun m => (node_id m =? id)%Z) (snd p)) ps)).
Proof.
  unfold count. induction ps as [|[n ms] ps IH]; [reflexivity|].
  cbn [node_mapping_of filter snd].
  destruct (positions_on id ms 0) as [|i0 ixs] eqn:E.
  - apply positions_on_nil in E. rewrite E. exact IH.
  - assert (Ht : existsb (fun m => (node_id m =? id)%Z) ms = true).
    { destruct (existsb _ ms) eqn:X; auto. apply positions_on_nil with (k := 0) in X.
      congruence. }
    rewrite Ht. cbn [find map fst existsb].
    destruct (String.eqb_spec name n) as [->|Hne].
    + assert (H : String.compare n n = Eq) by now apply string_compare_eq.
      rewrite H. reflexivity.
    + destruct (String.compare name n) eqn:C.
      * apply string_compare_eq in C. contradiction.
      * exact IH.
      * exact IH.
Qed.

Lemma start_mappings_occurrences g site :
  start_mappings g site = occurrences_on_start g site.
Proof.
  set (endm := node_mapping_of (node (end_ site)) (paths g)).
  set (F := fun name_and_mappings : string * list MappingPtr =>
              if count String.compare (fst name_and_mappings) endm
              then snd name_and_mappings else []).
  transitivity (flat_map F (node_mapping_of (node (start site)) (paths g))).
  { unfold start_mappings, has_node_mapping, get_node_mapping. fold endm.
    destruct (node_mapping_of (node (start site)) (paths g)) as [|x l];
      [reflexivity|].
    destruct endm as [|y l']; [|reflexivity].
    cbn [andb]. symmetry. unfold F.
    clear. induction (x :: l) as [|z zs IH]; [reflexivity|]. simpl. exact IH. }
  assert (Hcount : forall name,
            count String.compare name endm
            = existsb (String.eqb name) (names_touching g (node (end_ site)))).
  { intros name. apply count_node_mapping_of. }
  unfold occurrences_on_start, F. clearbody endm. clear F.
  induction (paths g) as [|[n ms] ps IH]; [reflexivity|].
  cbn [node_mapping_of flat_map fst snd].
  rewrite <- IH, <- Hcount.
  pose proof (@positions_on_seq n (node (start site)) ms [] 0 eq_refl) as Hpos.
  cbn [app] in Hpos. rewrite Hpos. clear Hpos.
  destruct (positions_on (node (start site)) ms 0) as [|i0 ixs] eqn:E.
  - cbn [map]. now destruct (count String.compare n endm).
  - cbn [flat_map fst snd]. reflexivity.
Qed.

Section EnumeratorFacts.
Variables (self : Genotyper) (g : VG) (site : Site).

Lemma start_mappings_on_start p :
  In p (start_mappings g site) ->
  exists m, deref p = Some m /\ node_id m = node (start site).
Proof.
  unfold start_mappings.
  destruct (has_node_mapping g (node (start site))
            && has_node_mapping g (node (end_ site))); [|simpl; tauto].
  rewrite in_flat_map. intros ([name ptrs] & Hin & Hp). simpl in Hp.
  destruct (count _ _ _); [|simpl in Hp; tauto].
  eapply node_mapping_of_spec; eauto.
Qed.

(** *** What one walk records *)

Lemma walk_shape dir expected steps :
  forall mapping acc s t seq,
    walk g site dir expected steps mapping acc s = Some (t, seq) ->
    exists l,
      t = acc ++ l /\ l <> [] /\
      (forall d, last l d
                 = {| node := node (end_ site); backward := xorb expected dir |}) /\
      (forall p m, mapping = Some p -> deref p = Some m ->
                   hd_error l = Some {| node := node_id m;
                                        backward := xorb (is_reverse m) dir |}) /\
      seq = (s ++ traversals_to_string g l)%string.
Proof.
  induction steps as [|steps IH]; intros mapping acc s t seq; simpl;
    [discriminate|].
  destruct mapping as [p|]; [|discriminate].
  destruct (deref p) as [m|] eqn:Hd; [|discriminate].
  set (tm := {| node := node_id m; backward := xorb (is_reverse m) dir |}).
  destruct ((node_id m =? node (end_ site))%Z
            && Bool.eqb (is_reverse m) expected) eqn:Hend.
  - intros H; inversion H; subst t seq. exists [tm].
    apply andb_true_iff in Hend. destruct Hend as [Hn Hr].
    apply Z.eqb_eq in Hn. apply Bool.eqb_prop in Hr.
    repeat split; try discriminate.
    + intros d. simpl. unfold tm. now rewrite Hn, Hr.
    + intros p' m' Hp Hm. inversion Hp; subst p'. rewrite Hd in Hm.
      inversion Hm; subst m'. reflexivity.
    + simpl. now rewrite string_app_nil_r.
  - intros H. apply IH in H. destruct H as (l & Ht & Hne & Hlast & _ & Hseq).
    exists (tm :: l). repeat split; try discriminate.
    + now rewrite Ht, <- app_assoc.
    + intros d. simpl. destruct l; [congruence | apply Hlast].
    + intros p' m' Hp Hm. inversion Hp; subst p'. rewrite Hd in Hm.
      inversion Hm; subst m'. reflexivity.
    + rewrite Hseq. simpl. now rewrite string_app_assoc.
Qed.

Lemma walk_from_shape p m t seq :
  deref p = Some m -> node_id m = node (start site) ->
  walk_from self g site p = Some (t, seq) ->
  t <> [] /\ hd_error t = Some (start site) /\
  (forall d, last t d = end_ site) /\ seq = traversals_to_string g t.
Proof.
  intros Hd Hn. unfold walk_from. rewrite Hd. intros H.
  apply walk_shape in H. destruct H as (l & Ht & Hne & Hlast & Hhd & Hseq).
  simpl in Ht; subst t. repeat split; auto.
  - rewrite (Hhd _ _ eq_refl Hd), Hn.
    destruct (start site) as [n b]; simpl. f_equal. f_equal.
    now destruct (is_reverse m), b.
  - intros d. rewrite Hlast. destruct (end_ site) as [n b]; simpl. f_equal.
    now destruct b, (xorb (is_reverse m) (backward (start site))).
Qed.

(** *** The map the walks build *)

Lemma fold_visit_mapping order results :
  fold_left (visit_mapping self g site) order results
  = fold_left record_traversal (completed_walks self g site order) results.
Proof.
  revert results. induction order as [|p order IH]; intros results; simpl;
    [reflexivity|].
  rewrite fold_left_app, IH. unfold visit_mapping.
  now destruct (walk_from self g site p).
Qed.

Lemma record_traversal_sorted results found :
  sorted String.compare results ->
  sorted String.compare (record_traversal results found).
Proof.
  intros Hs. destruct found as [t seq]. unfold record_traversal.
  destruct (find String.compare seq results) as [[t' n]|];
    now apply sinsert_sorted.
Qed.

Lemma fold_record_sorted walks results :
  sorted String.compare results ->
  sorted String.compare (fold_left record_traversal walks results).
Proof.
  revert results. induction walks as [|w walks IH]; intros results Hs; simpl;
    auto using record_traversal_sorted.
Qed.

Lemma fold_record_find walks : forall results seq,
  find String.compare seq (fold_left record_traversal walks results)
  = match find String.compare seq results with
    | Some (t, n) => Some (t, (n + occurrences seq walks)%Z)
    | None => match first_traversal seq walks with
              | Some t => Some (t, occurrences seq walks)
              | None => None
              end
    end.
Proof.
  unfold occurrences, first_traversal.
  induction walks as [|[t0 s0] walks IH]; intros results seq; simpl.
  - destruct (find String.compare seq results) as [[t n]|]; auto.
    now rewrite Z.add_0_r.
  - rewrite IH. change (spells seq (t0, s0)) with (String.eqb s0 seq).
    destruct (String.eqb_spec s0 seq) as [->|Hne].
    + destruct (find String.compare seq results) as [[t n]|] eqn:E;
        rewrite sfind_insert_same; cbn [List.length option_map fst];
        rewrite Nat2Z.inj_succ; f_equal; f_equal; lia.
    + assert (Hother : forall v,
                 find String.compare seq (insert String.compare s0 v results)
                 = find String.compare seq results).
      { intros v. apply sfind_insert_other. congruence. }
      destruct (find String.compare s0 results) as [[t n]|]; now rewrite Hother.
Qed.
End EnumeratorFacts.

(** *** A walk is one pass of a path through the site *)

Lemma traversals_to_string_sequence g rt :
  traversals_to_string g rt = site_sequence g rt.
Proof.
  unfold site_sequence. induction rt as [|t rt IH]; [reflexivity|].
  cbn [traversals_to_string map]. rewrite IH. unfold oriented_sequence.
  destruct rt as [|t' rt]; [apply string_app_nil_r | reflexivity].
Qed.

Lemma traversals_to_string_app g a b :
  traversals_to_string g (a ++ b)
  = (traversals_to_string g a ++ traversals_to_string g b)%string.
Proof.
  induction a as [|t a IH]; [reflexivity|]. simpl. now rewrite IH, string_app_assoc.
Qed.

(** The mappings ahead of a position: the one at the position, then
    those ahead of the neighbouring position. *)
Lemma ahead_step (left : bool) (p : MappingPtr) m :
  deref p = Some m ->
  ahead left (ptr_path p) (ptr_index p)
  = m :: match (if left then traverse_left p else traverse_right p) with
         | Some q => ahead left (ptr_path q) (ptr_index q)
         | None => []
         end
  /\ (forall q, (if left then traverse_left p else traverse_right p) = Some q ->
                deref q <> None).
Proof.
  destruct p as [n ms i]. unfold deref, ahead, traverse_left, traverse_right.
  cbn [ptr_path ptr_index ptr_name]. intros Hm.
  assert (Hlt : i < List.length ms) by (apply nth_error_Some; congruence).
  destruct left.
  - split.
    + assert (E : firstn (S i) ms = firstn i ms ++ [m]).
      { clear Hlt. revert i Hm. induction ms as [|x ms IH]; intros [|i] Hm;
          simpl in *; try discriminate.
        - now inversion Hm.
        - f_equal. now apply IH. }
      rewrite E, rev_app_distr. cbn [rev app]. f_equal.
      destruct i as [|i]; reflexivity.
    + intros q. destruct i as [|i]; [discriminate|]. intros H; inversion H; subst q.
      cbn [ptr_path ptr_index]. apply nth_error_Some. lia.
  - split.
    + assert (E : skipn i ms = m :: skipn (S i) ms).
      { clear Hlt. revert i Hm. induction ms as [|x ms IH]; intros [|i] Hm;
          simpl in *; try discriminate.
        - now inversion Hm.
        - now apply IH. }
      rewrite E. f_equal.
      destruct (S i <? List.length ms) eqn:L; [reflexivity|].
      apply Nat.ltb_ge in L. cbn [ptr_path ptr_index]. now apply skipn_all2.
    + intros q. destruct (S i <? List.length ms) eqn:L; [|discriminate].
      apply Nat.ltb_lt in L. intros H; inversion H; subst q.
      cbn [ptr_path ptr_index]. apply nth_error_Some. lia.
Qed.

Section WalkFacts.
Variables (self : Genotyper) (g : VG) (site : Site).

Lemma walk_up_to dir expected steps : forall mapping acc s,
  (forall p, mapping = Some p -> deref p <> None) ->
  walk g site dir expected steps mapping acc s
  = option_map
      (fun ms =>
         let l := map (fun m => {| node := node_id m;
                                   backward := xorb (is_reverse m) dir |}) ms in
         (acc ++ l, (s ++ traversals_to_string g l)%string))
      (up_to (fun m => (node_id m =? node (end_ site))%Z
                       && Bool.eqb (is_reverse m) expected)
             (firstn steps
                (match mapping with
                 | Some p => ahead dir (ptr_path p) (ptr_index p)
                 | None => []
                 end))).
Proof.
  induction steps as [|steps IH]; intros mapping acc s Hm; [reflexivity|].
  destruct mapping as [p|]; [|reflexivity].
  cbn [walk]. destruct (deref p) as [m|] eqn:Hd; [|now destruct (Hm p eq_refl)].
  destruct (ahead_step dir p Hd) as [Hahead Hnext].
  rewrite Hahead. cbn [firstn up_to].
  destruct ((node_id m =? node (end_ site))%Z && Bool.eqb (is_reverse m) expected).
  - cbn [option_map map traversals_to_string]. now rewrite string_app_nil_r.
  - rewrite IH by (intros q Hq; now apply Hnext).
    destruct (up_to _ _) as [ms|]; [|reflexivity].
    cbn [option_map map traversals_to_string].
    now rewrite <- app_assoc, string_app_assoc.
Qed.

Lemma walk_from_pass p :
  walk_from self g site p
  = option_map (fun t => (t, site_sequence g t)) (pass self site p).
Proof.
  unfold walk_from, pass. change (nth_error (ptr_path p) (ptr_index p)) with (deref p).
  destruct (deref p) as [m|] eqn:Hd; [|reflexivity].
  rewrite walk_up_to by (intros q Hq; inversion Hq; congruence).
  rewrite (xorb_comm (is_reverse m)).
  destruct (up_to _ _) as [ms|]; [|reflexivity].
  cbn [option_map app]. now rewrite traversals_to_string_sequence.
Qed.

Lemma completed_walks_passes order :
  completed_walks self g site order
  = map (fun t => (t, site_sequence g t)) (passes self site order).
Proof.
  unfold completed_walks, passes.
  induction order as [|p order IH]; [reflexivity|].
  cbn [flat_map]. rewrite map_app, IH, walk_from_pass.
  now destruct (pass self site p).
Qed.

Lemma occurrences_passes seq order :
  occurrences seq (completed_walks self g site order)
  = passes_spelling g seq (passes self site order).
Proof.
  rewrite completed_walks_passes. unfold occurrences, passes_spelling. f_equal.
  induction (passes self site order) as [|t ts IH]; [reflexivity|].
  cbn [map filter]. unfold spells at 1. cbn [snd].
  destruct (String.eqb (site_sequence g t) seq); cbn [List.length]; now rewrite IH.
Qed.

Lemma first_traversal_passes seq order :
  first_traversal seq (completed_walks self g site order)
  = List.find (fun t => String.eqb (site_sequence g t) seq) (passes self site order).
Proof.
  rewrite completed_walks_passes. unfold first_traversal.
  induction (passes self site order) as [|t ts IH]; [reflexivity|].
  cbn [map List.find]. unfold spells at 1. cbn [snd].
  destruct (String.eqb (site_sequence g t) seq); [reflexivity | exact IH].
Qed.
End WalkFacts.

(* ================================================================= *)
(** ** The allele enumerator on the example graph *)

Example bubble_alleles_recurrence_1 :
  get_paths_through_site (settings 100 1) bubble_graph bubble_site
  = [[fwd 1; fwd 2; fwd 4]; [fwd 1; fwd 3; fwd 4]].
Proof. reflexivity. Qed.

Example bubble_alleles_recurrence_2 :
  get_paths_through_site (settings 100 2) bubble_graph bubble_site
  = [[fwd 1; fwd 3; fwd 4]].
Proof. reflexivity. Qed.

(* ================================================================= *)
(** ** What the allele enumerator emits *)

Section EnumeratorTheorems.
Variables (self : Genotyper) (g : VG) (site : Site).

Lemma completed_walk_origin order t seq :
  In (t, seq) (completed_walks self g site order) ->
  exists p, In p order /\ walk_from self g site p = Some (t, seq).
Proof.
  unfold completed_walks. rewrite in_flat_map. intros (p & Hp & Hin).
  exists p. split; auto.
  destruct (walk_from self g site p) as [w|]; simpl in Hin; [|tauto].
  destruct Hin as [->|[]]. reflexivity.
Qed.

Lemma completed_walk_spelling order t seq :
  In (t, seq) (completed_walks self g site order) ->
  seq = traversals_to_string g t.
Proof.
  intros H. apply completed_walk_origin in H. destruct H as (p & _ & H).
  unfold walk_from in H. destruct (deref p) as [m|]; [|discriminate].
  apply walk_shape in H. destruct H as (l & -> & _ & _ & _ & ->).
  reflexivity.
Qed.

Lemma first_traversal_In seq walks t :
  first_traversal seq walks = Some t -> In (t, seq) walks.
Proof.
  unfold first_traversal. destruct (List.find (spells seq) walks) as [[t' s']|] eqn:E;
    simpl; [|discriminate].
  intros H; inversion H; subst t'. apply find_some in E. destruct E as [Hin Hs].
  unfold spells in Hs; simpl in Hs. apply String.eqb_eq in Hs. now subst s'.
Qed.

Lemma first_traversal_occurrences seq walks :
  (exists t, first_traversal seq walks = Some t) <-> (0 < occurrences seq walks)%Z.
Proof.
  unfold first_traversal, occurrences.
  induction walks as [|w walks IH]; simpl.
  - split; [intros [t H]; discriminate | lia].
  - destruct (spells seq w); simpl; [|exact IH].
    split; [lia | eauto].
Qed.

(** Membership in the output, in terms of the walks. *)
Lemma emitted_iff order t :
  In t (get_paths_through_site_in self g site order) <->
  exists seq, first_traversal seq (completed_walks self g site order) = Some t /\
              (min_recurrence self <= occurrences seq (completed_walks self g site order))%Z.
Proof.
  unfold get_paths_through_site_in, collect_unique.
  rewrite fold_visit_mapping, in_flat_map.
  set (walks := completed_walks self g site order).
  assert (Hfind := fun seq => fold_record_find walks [] seq). simpl in Hfind.
  assert (Hsorted : sorted String.compare (fold_left record_traversal walks [])).
  { apply fold_record_sorted. constructor. }
  split.
  - intros ([seq [t' n]] & Hin & Hout). simpl in Hout.
    destruct (n <? min_recurrence self)%Z eqn:E; simpl in Hout; [tauto|].
    destruct Hout as [->|[]]. apply Z.ltb_ge in E.
    apply ssorted_In_find in Hin; auto. rewrite Hfind in Hin.
    exists seq. destruct (first_traversal seq walks) as [t1|]; [|discriminate].
    inversion Hin; subst. auto.
  - intros (seq & Hfirst & Hmin).
    exists (seq, (t, occurrences seq walks)). split.
    + apply sfind_In. rewrite Hfind, Hfirst. reflexivity.
    + simpl. apply Z.ltb_ge in Hmin. rewrite Hmin. now left.
Qed.

(** C5. Every allele the enumerator emits for a site is non-empty, starts
    with the site's start traversal (node and orientation) and ends with
    its end traversal, whatever the direction of the walk that found it
    and the strand of the mapping the walk started from, and in whatever
    order the mappings on the start node are visited. *)
Theorem get_paths_through_site_anchored (order : list MappingPtr)
    (allele : list NodeTraversal) :
  incl order (start_mappings g site) ->
  In allele (get_paths_through_site_in self g site order) ->
  allele <> [] /\
  hd_error allele = Some (start site) /\
  (forall d, last allele d = end_ site).
Proof.
  intros Hincl. rewrite emitted_iff.
  intros (seq & Hfirst & _). apply first_traversal_In in Hfirst.
  apply completed_walk_origin in Hfirst. destruct Hfirst as (p & Hp & Hw).
  destruct (start_mappings_on_start _ _ _ (Hincl _ Hp)) as (m & Hd & Hn).
  destruct (@walk_from_shape self g site p m allele seq Hd Hn Hw) as (H1 & H2 & H3 & _).
  auto.
Qed.

(** C6, as the code has it. One walk starts from each occurrence, on
    the start node, of an embedded path that touches both ends of the
    site, and it is a pass when it reaches the end node in the expected
    orientation within [max_path_search_steps] mappings.  The enumerator
    emits exactly the traversal lists that stand for a sequence spelled
    by at least [min_recurrence] passes, each sequence being represented
    by the first pass that spelled it: the count is one per pass, not one
    per path.  So with [min_recurrence = 2] a sequence that at most one
    pass spells is not emitted.  This holds in whatever [order] the
    occurrences are visited, and [get_paths_through_site] visits
    [occurrences_on_start]. *)
Theorem get_paths_through_site_recurrence (order : list MappingPtr) :
  (forall t, In t (get_paths_through_site_in self g site order) <->
             exists seq,
               List.find (fun t' => String.eqb (site_sequence g t') seq)
                         (passes self site order) = Some t /\
               (min_recurrence self
                <= passes_spelling g seq (passes self site order))%Z) /\
  (min_recurrence self = 2%Z ->
   forall seq, (passes_spelling g seq (passes self site order) <= 1)%Z ->
   forall t, In t (get_paths_through_site_in self g site order) ->
             site_sequence g t <> seq) /\
  get_paths_through_site self g site
  = get_paths_through_site_in self g site (occurrences_on_start g site).
Proof.
  assert (Hiff : forall t,
            In t (get_paths_through_site_in self g site order) <->
            exists seq,
              List.find (fun t' => String.eqb (site_sequence g t') seq)
                        (passes self site order) = Some t /\
              (min_recurrence self
               <= passes_spelling g seq (passes self site order))%Z).
  { intros t. rewrite emitted_iff. split; intros (seq & Hfirst & Hle); exists seq.
    - now rewrite <- first_traversal_passes, <- occurrences_passes.
    - now rewrite first_traversal_passes, occurrences_passes. }
  split; [exact Hiff|]. split.
  - intros Hmin seq Hocc t Ht Hspell.
    apply Hiff in Ht. destruct Ht as (seq' & Hfirst & Hle).
    apply find_some in Hfirst. destruct Hfirst as [_ Heq].
    apply String.eqb_eq in Heq. rewrite Hspell in Heq. subst seq'. lia.
  - unfold get_paths_through_site. now rewrite start_mappings_occurrences.
Qed.

Lemma emitted_sequence_iff order seq :
  In seq (map (traversals_to_string g) (get_paths_through_site_in self g site order)) <->
  (0 < occurrences seq (completed_walks self g site order))%Z /\
  (min_recurrence self <= occurrences seq (completed_walks self g site order))%Z.
Proof.
  rewrite in_map_iff. split.
  - intros (t & Hspell & Ht). apply emitted_iff in Ht.
    destruct Ht as (seq' & Hfirst & Hle).
    assert (seq' = seq).
    { rewrite <- Hspell. eapply completed_walk_spelling, first_traversal_In; eauto. }
    subst seq'. split; auto. apply first_traversal_occurrences. eauto.
  - intros [Hpos Hle]. apply first_traversal_occurrences in Hpos.
    destruct Hpos as [t Hfirst]. exists t. split.
    + symmetry. eapply completed_walk_spelling, first_traversal_In; eauto.
    + apply emitted_iff. eauto.
Qed.

Lemma occurrences_Permutation seq order1 order2 :
  Permutation order1 order2 ->
  occurrences seq (completed_walks self g site order1)
  = occurrences seq (completed_walks self g site order2).
Proof.
  intros H. unfold occurrences. f_equal. apply Permutation_filter_length.
  unfold completed_walks. now apply Permutation_flat_map.
Qed.

(** C7, as the code has it. The set of sequences spelled by the emitted
    traversals does not depend on the order in which the start mappings of
    the embedded paths are visited. *)
Theorem emitted_sequences_order_independent (order1 order2 : list MappingPtr) :
  Permutation order1 order2 ->
  forall seq,
    In seq (map (traversals_to_string g) (get_paths_through_site_in self g site order1))
    <->
    In seq (map (traversals_to_string g) (get_paths_through_site_in self g site order2)).
Proof.
  intros H seq. rewrite !emitted_sequence_iff.
  now rewrite (occurrences_Permutation seq H).
Qed.
End EnumeratorTheorems.

Lemma get_paths_through_site_anchored_witness :
  incl (start_mappings bubble_graph bubble_site)
       (start_mappings bubble_graph bubble_site) /\
  In [fwd 1; fwd 3; fwd 4]
     (get_paths_through_site_in (settings 100 2) bubble_graph bubble_site
        (start_mappings bubble_graph bubble_site)) /\
  ([fwd 1; fwd 3; fwd 4] <> [] /\
   hd_error [fwd 1; fwd 3; fwd 4] = Some (start bubble_site) /\
   (forall d, last [fwd 1; fwd 3; fwd 4] d = end_ bubble_site)).
Proof.
  assert (H0 : incl (start_mappings bubble_graph bubble_site)
                    (start_mappings bubble_graph bubble_site))
    by apply incl_refl.
  assert (H : In [fwd 1; fwd 3; fwd 4]
                 (get_paths_through_site_in (settings 100 2) bubble_graph bubble_site
                    (start_mappings bubble_graph bubble_site))).
  { left. reflexivity. }
  split; [exact H0|]. split; [exact H|].
  exact (@get_paths_through_site_anchored (settings 100 2) bubble_graph bubble_site
           (start_mappings bubble_graph bubble_site) [fwd 1; fwd 3; fwd 4] H0 H).
Defined.

(** The reference path of the example graph is the only path that spells
    "ACT"; with [min_recurrence = 2] its allele is not emitted. *)
Example reference_allele_dropped :
  occurrences "ACT"
    (completed_walks (settings 100 2) bubble_graph bubble_site
       (start_mappings bubble_graph bubble_site)) = 1%Z
  /\ ~ In [fwd 1; fwd 2; fwd 4]
         (get_paths_through_site (settings 100 2) bubble_graph bubble_site).
Proof.
  split; [reflexivity|]. simpl. intros [H|[]]. discriminate.
Qed.

Lemma get_paths_through_site_recurrence_witness :
  min_recurrence (settings 100 2) = 2%Z /\
  passes (settings 100 2) bubble_site (occurrences_on_start bubble_graph bubble_site)
  = [[fwd 1; fwd 3; fwd 4]; [fwd 1; fwd 3; fwd 4]; [fwd 1; fwd 2; fwd 4]] /\
  ~ In [fwd 1; fwd 2; fwd 4]
      (get_paths_through_site (settings 100 2) bubble_graph bubble_site).
Proof.
  split; [reflexivity|]. split; [reflexivity|].
  destruct (@get_paths_through_site_recurrence (settings 100 2) bubble_graph
              bubble_site (occurrences_on_start bubble_graph bubble_site))
    as (_ & Hdrop & Heq).
  rewrite Heq. intros Hin.
  apply (Hdrop eq_refl "ACT"%string) in Hin.
  - apply Hin. reflexivity.
  - vm_compute. discriminate.
Defined.

(** C6, as stated, fails: the count is not one per path.  In
    [twice_graph] the reference path is the only embedded path and it
    passes through the site twice; each of its two occurrences on the
    start node starts a walk, both spell "ACT", and with
    [min_recurrence = 2] the allele that only the reference path
    realises is emitted. *)
Lemma reference_path_twice_emitted :
  map fst (paths twice_graph) = ["ref"%string] /\
  min_recurrence (settings 100 2) = 2%Z /\
  passes (settings 100 2) bubble_site (occurrences_on_start twice_graph bubble_site)
  = [[fwd 1; fwd 2; fwd 4]; [fwd 1; fwd 2; fwd 4]] /\
  get_paths_through_site (settings 100 2) twice_graph bubble_site
  = [[fwd 1; fwd 2; fwd 4]].
Proof. repeat split. Qed.

(** C7, as stated, fails: visiting the two reads of [twin_graph] in the
    two possible orders emits two different traversals, since the
    traversal kept for a sequence is that of the first walk spelling it. *)
Lemma emitted_traversals_depend_on_order :
  Permutation twin_order (rev twin_order) /\
  get_paths_through_site_in (settings 100 2) twin_graph bubble_site twin_order
    = [[fwd 1; fwd 2; fwd 4]] /\
  get_paths_through_site_in (settings 100 2) twin_graph bubble_site (rev twin_order)
    = [[fwd 1; fwd 3; fwd 4]] /\
  ~ (forall t,
       In t (get_paths_through_site_in (settings 100 2) twin_graph bubble_site twin_order)
       <->
       In t (get_paths_through_site_in (settings 100 2) twin_graph bubble_site
               (rev twin_order))).
Proof.
  split; [apply Permutation_rev|].
  split; [reflexivity|]. split; [reflexivity|].
  intros H. destruct (H [fwd 1; fwd 2; fwd 4]) as [H1 _].
  destruct H1 as [H1|[]]; [left; reflexivity | discriminate].
Qed.

Lemma emitted_sequences_order_independent_witness :
  Permutation twin_order (rev twin_order) /\
  forall seq,
    In seq (map (traversals_to_string twin_graph)
              (get_paths_through_site_in (settings 100 2) twin_graph bubble_site twin_order))
    <->
    In seq (map (traversals_to_string twin_graph)
              (get_paths_through_site_in (settings 100 2) twin_graph bubble_site
                 (rev twin_order))).
Proof.
  split; [apply Permutation_rev|].
  apply (emitted_sequences_order_independent (settings 100 2) twin_graph bubble_site).
  apply Permutation_rev.
Defined.

(* ================================================================= *)
(** ** The fast affinity scorer *)

(** *** [std::mismatch] as a prefix test *)

Lemma mismatch_at_end_terminated s1 : forall s2 b,
  mismatch_at_end s1 s2 = Some b ->
  (b = true <-> exists rest, s2 ++ [Ascii.zero] = s1 ++ rest).
Proof.
  induction s1 as [|c1 s1 IH]; intros s2 b; simpl.
  - intros H; inversion H. split; eauto.
  - destruct s2 as [|c2 s2].
    + destruct (Ascii.eqb_spec c1 Ascii.zero) as [->|Hne].
      * destruct s1 as [|c s1]; [|discriminate].
        intros H; inversion H. split; auto. intros _. now exists [].
      * intros H; inversion H. split; [discriminate|].
        intros [rest Hr]. simpl in Hr. inversion Hr. congruence.
    + destruct (Ascii.eqb_spec c1 c2) as [->|Hne].
      * intros H. rewrite (IH _ _ H). split; intros [rest Hr].
        -- exists rest. simpl. now rewrite Hr.
        -- exists rest. simpl in Hr. now inversion Hr.
      * intros H; inversion H. split; [discriminate|].
        intros [rest Hr]. simpl in Hr. inversion Hr. congruence.
Qed.

(** With no zero byte in the first string, the comparison is defined, and
    it is the test for a prefix. *)
Lemma mismatch_at_end_prefix s1 : forall s2 b,
  ~ In Ascii.zero s1 ->
  mismatch_at_end s1 s2 = Some b ->
  (b = true <-> exists rest, s2 = s1 ++ rest).
Proof.
  intros s2 b Hz H. rewrite (mismatch_at_end_terminated _ _ H). split.
  - intros [rest Hr]. destruct (exists_last (l := rest)) as (rest' & x & ->).
    + intros ->. rewrite app_nil_r in Hr. subst s1. apply Hz.
      apply in_or_app. simpl. auto.
    + exists rest'. rewrite app_assoc in Hr. apply app_inj_tail in Hr. tauto.
  - intros [rest ->]. exists (rest ++ [Ascii.zero]). now rewrite app_assoc.
Qed.

Lemma mismatch_at_end_defined s1 : forall s2,
  ~ In Ascii.zero s1 -> exists b, mismatch_at_end s1 s2 = Some b.
Proof.
  induction s1 as [|c1 s1 IH]; intros s2 Hz; simpl; eauto.
  simpl in Hz. destruct s2 as [|c2 s2].
  - destruct (Ascii.eqb_spec c1 Ascii.zero) as [->|Hne]; [tauto | eauto].
  - destruct (Ascii.eqb c1 c2); eauto.
Qed.

(** A string that is a prefix compares as one, zero bytes or not. *)
Lemma mismatch_at_end_app s1 : forall rest,
  mismatch_at_end s1 (s1 ++ rest) = Some true.
Proof.
  induction s1 as [|c1 s1 IH]; intros rest; simpl; auto.
  now rewrite Ascii.eqb_refl.
Qed.

Lemma list_ascii_of_string_app (a b : string) :
  list_ascii_of_string (a ++ b) = list_ascii_of_string a ++ list_ascii_of_string b.
Proof. induction a as [|c a IH]; simpl; [reflexivity | now rewrite IH]. Qed.

Lemma string_of_list_ascii_app (a b : list ascii) :
  string_of_list_ascii (a ++ b)
  = (string_of_list_ascii a ++ string_of_list_ascii b)%string.
Proof. induction a as [|c a IH]; simpl; [reflexivity | now rewrite IH]. Qed.

Lemma is_prefix_list (s t : string) :
  is_prefix s t <->
  exists rest, list_ascii_of_string t = list_ascii_of_string s ++ rest.
Proof.
  split; intros [rest H].
  - exists (list_ascii_of_string rest). now rewrite H, list_ascii_of_string_app.
  - exists (string_of_list_ascii rest).
    rewrite <- (string_of_list_ascii_of_string t), H, string_of_list_ascii_app.
    now rewrite string_of_list_ascii_of_string.
Qed.

Lemma is_suffix_list (s t : string) :
  is_suffix s t <->
  exists rest, rev (list_ascii_of_string t) = rev (list_ascii_of_string s) ++ rest.
Proof.
  split.
  - intros [init H]. exists (rev (list_ascii_of_string init)).
    now rewrite H, list_ascii_of_string_app, rev_app_distr.
  - intros [rest H]. exists (string_of_list_ascii (rev rest)).
    apply (f_equal (@rev ascii)) in H. rewrite rev_app_distr, !rev_involutive in H.
    rewrite <- (string_of_list_ascii_of_string t), H, string_of_list_ascii_app.
    now rewrite string_of_list_ascii_of_string.
Qed.

(** *** Where a traversal starts and ends *)

Lemma nt_eqb_eq a b : nt_eqb a b = true <-> a = b.
Proof.
  destruct a as [n1 b1], b as [n2 b2]; unfold nt_eqb; simpl.
  rewrite andb_true_iff, Z.eqb_eq, Bool.eqb_true_iff.
  split; [intros [-> ->]; reflexivity | intros H; inversion H; auto].
Qed.

Lemma starts_at_front x front rest :
  starts_at x (front :: rest) <-> nt_eqb front x = true.
Proof.
  rewrite nt_eqb_eq. split.
  - intros [r H]. now inversion H.
  - intros ->. now exists rest.
Qed.

Lemma ends_at_back x front rest :
  ends_at x (front :: rest) <-> nt_eqb (last (front :: rest) front) x = true.
Proof.
  rewrite nt_eqb_eq. split.
  - intros [init H]. rewrite H. apply last_last.
  - intros <-. exists (removelast (front :: rest)).
    apply app_removelast_last. discriminate.
Qed.

(** *** One affinity *)

Section AffinityFacts.
Variable site : Site.

(** The outcome of [affinity_for], case by case. *)
Lemma affinity_for_spec trav seq base path_seq a :
  affinity_for site trav seq base path_seq = Some a ->
  (starts_at (start site) trav /\ ends_at (end_ site) trav ->
   Affinity.consistent a = String.eqb seq path_seq) /\
  (starts_at (start site) trav /\ ~ ends_at (end_ site) trav ->
   (is_prefix seq path_seq -> Affinity.consistent a = true) /\
   (~ In Ascii.zero (list_ascii_of_string seq) ->
    Affinity.consistent a = true -> is_prefix seq path_seq) /\
   (Affinity.consistent a = true ->
    is_prefix seq (path_seq ++ String Ascii.zero EmptyString))) /\
  (~ starts_at (start site) trav /\ ends_at (end_ site) trav ->
   (is_suffix seq path_seq -> Affinity.consistent a = true) /\
   (~ In Ascii.zero (list_ascii_of_string seq) ->
    Affinity.consistent a = true -> is_suffix seq path_seq) /\
   (Affinity.consistent a = true ->
    is_suffix seq (String Ascii.zero path_seq))) /\
  Affinity.affinity a = (if Affinity.consistent a then 1 else 0)%R /\
  Affinity.is_reverse a = Affinity.is_reverse base.
Proof.
  unfold affinity_for. destruct trav as [|front rest]; [discriminate|].
  rewrite (starts_at_front (start site) front rest).
  rewrite (ends_at_back (end_ site) front rest).
  destruct (nt_eqb front (start site)) eqn:Hs;
    destruct (nt_eqb (last (front :: rest) front) (end_ site)) eqn:He;
    cbn [andb].
  - intros H; inversion H; subst a; simpl.
    refine (conj _ (conj _ (conj _ (conj eq_refl eq_refl))));
      intros [H1 H2]; congruence.
  - destruct (mismatch_at_end _ _) as [b|] eqn:Hm; [|discriminate].
    intros H; inversion H; subst a; simpl.
    refine (conj _ (conj _ (conj _ (conj eq_refl eq_refl))));
      intros [H1 H2]; try congruence.
    split; [|split].
    + intros Hp. apply is_prefix_list in Hp. destruct Hp as [r Hr].
      rewrite Hr, mismatch_at_end_app in Hm. congruence.
    + intros Hz Hb. rewrite is_prefix_list.
      now apply (mismatch_at_end_prefix _ _ Hz Hm).
    + intros Hb. rewrite is_prefix_list, list_ascii_of_string_app.
      now apply (mismatch_at_end_terminated _ _ Hm).
  - destruct (mismatch_at_end _ _) as [b|] eqn:Hm; [|discriminate].
    intros H; inversion H; subst a; simpl.
    refine (conj _ (conj _ (conj _ (conj eq_refl eq_refl))));
      intros [H1 H2]; try congruence.
    split; [|split].
    + intros Hp. apply is_suffix_list in Hp. destruct Hp as [r Hr].
      rewrite Hr, mismatch_at_end_app in Hm. congruence.
    + intros Hz Hb. rewrite is_suffix_list.
      assert (Hz' : ~ In Ascii.zero (rev (list_ascii_of_string seq)))
        by now rewrite <- in_rev.
      now apply (mismatch_at_end_prefix _ _ Hz' Hm).
    + intros Hb. rewrite is_suffix_list.
      apply (mismatch_at_end_terminated _ _ Hm) in Hb.
      destruct Hb as [r Hr]. exists r. simpl. exact Hr.
  - intros H; inversion H; subst a; simpl.
    refine (conj _ (conj _ (conj _ (conj eq_refl eq_refl))));
      intros [H1 H2]; congruence.
Qed.
End AffinityFacts.

(** *** The map the scorer builds *)

Section ScorerFacts.
Variable g : VG.
Variable reads_by_name : list (string * nat).
Variable alignments : list Alignment.
Variable site : Site.

Lemma push_back_at_same read a to_return :
  find Nat.compare read (push_back_at read a to_return)
  = Some (entry to_return read ++ [a]).
Proof.
  unfold push_back_at, entry.
  destruct (find Nat.compare read to_return); now rewrite nfind_insert_same.
Qed.

Lemma push_back_at_other read q a to_return :
  q <> read ->
  find Nat.compare q (push_back_at read a to_return) = find Nat.compare q to_return.
Proof.
  intros H. unfold push_back_at.
  destruct (find Nat.compare read to_return); now apply nfind_insert_other.
Qed.

Lemma push_back_at_sorted read a to_return :
  sorted Nat.compare to_return -> sorted Nat.compare (push_back_at read a to_return).
Proof.
  intros H. unfold push_back_at.
  destruct (find Nat.compare read to_return); now apply ninsert_sorted.
Qed.

(** The inner loop appends, to the entry of the read, one affinity per
    allele string, in order, and touches no other entry. *)
Lemma score_alleles_spec read trav seq base strs : forall to_return to_return',
  score_alleles site read trav seq base strs to_return = Some to_return' ->
  exists affs,
    Forall2 (fun s a => affinity_for site trav seq base s = Some a) strs affs /\
    (forall q, q <> read ->
               find Nat.compare q to_return' = find Nat.compare q to_return) /\
    (strs <> [] ->
     find Nat.compare read to_return' = Some (entry to_return read ++ affs)) /\
    (strs = [] -> to_return' = to_return) /\
    (sorted Nat.compare to_return -> sorted Nat.compare to_return').
Proof.
  induction strs as [|s strs IH]; intros T T'; simpl.
  - intros H; inversion H; subst. exists []. repeat split; auto; congruence.
  - destruct (affinity_for site trav seq base s) as [a|] eqn:Ha; [|discriminate].
    intros H. apply IH in H.
    destruct H as (affs & Hall & Hother & Hsame & Hnil & Hsorted).
    exists (a :: affs). repeat split; auto.
    + intros q Hq. rewrite Hother by auto. now apply push_back_at_other.
    + intros _. destruct strs as [|s' strs].
      * rewrite (Hnil eq_refl). inversion Hall; subst. apply push_back_at_same.
      * rewrite Hsame by discriminate. unfold entry at 1.
        rewrite push_back_at_same, <- app_assoc. reflexivity.
    + discriminate.
    + intros Hs. apply Hsorted. now apply push_back_at_sorted.
Qed.

Lemma score_read_spec strs read_name to_return to_return' :
  score_read g reads_by_name alignments site strs read_name to_return
  = Some to_return' ->
  exists read affs,
    find String.compare read_name reads_by_name = Some read /\
    scored g reads_by_name alignments site strs read affs /\
    (forall q, q <> read ->
               find Nat.compare q to_return' = find Nat.compare q to_return) /\
    (strs <> [] ->
     find Nat.compare read to_return' = Some (entry to_return read ++ affs)) /\
    (strs = [] -> to_return' = to_return) /\
    (sorted Nat.compare to_return -> sorted Nat.compare to_return').
Proof.
  unfold score_read.
  destruct (find String.compare read_name reads_by_name) as [read|] eqn:Hr;
    [|discriminate].
  destruct (nth_error alignments read) as [alignment|] eqn:Ha; [|discriminate].
  destruct (get_traversal_of_site g site (path alignment)) as [|front rest] eqn:Ht;
    [discriminate|].
  intros H. apply score_alleles_spec in H.
  destruct H as (affs & Hall & Hother & Hsame & Hnil & Hsorted).
  exists read, affs. repeat split; auto.
  exists read_name, alignment. rewrite Ht. repeat split; auto. discriminate.
Qed.

Hypothesis reads_distinct : distinct_reads reads_by_name.

Lemma score_reads_spec strs names : forall to_return to_return',
  NoDup names ->
  (forall read_name read,
     In read_name names ->
     find String.compare read_name reads_by_name = Some read ->
     find Nat.compare read to_return = None) ->
  sorted Nat.compare to_return ->
  score_reads g reads_by_name alignments site strs names to_return
  = Some to_return' ->
  sorted Nat.compare to_return' /\
  forall read affs,
    find Nat.compare read to_return' = Some affs ->
    find Nat.compare read to_return = Some affs \/ scored g reads_by_name alignments site strs read affs.
Proof.
  induction names as [|read_name names IH]; intros T T' Hnd Hfresh Hs; simpl.
  - intros H; inversion H; subst. auto.
  - destruct (score_read g reads_by_name alignments site strs read_name T)
      as [T1|] eqn:H1; [|discriminate].
    intros H. apply score_read_spec in H1.
    destruct H1 as (r & affs1 & Hr & Hscored & Hother & Hsame & Hnil & Hsorted).
    inversion Hnd as [|? ? Hnotin Hnd']; subst.
    assert (Hfresh1 : forall n q, In n names ->
              find String.compare n reads_by_name = Some q ->
              find Nat.compare q T1 = None).
    { intros n q Hn Hq.
      assert (q <> r).
      { intros ->. apply Hnotin. now rewrite (reads_distinct _ _ Hr Hq). }
      rewrite Hother by auto. apply (Hfresh n); simpl; auto. }
    destruct (IH _ _ Hnd' Hfresh1 (Hsorted Hs) H) as [Hs' Hfind].
    split; auto. intros read affs Hra.
    destruct (Hfind _ _ Hra) as [Hin1|Hsc]; auto.
    destruct (Nat.eq_dec read r) as [->|Hne].
    + destruct strs as [|s strs].
      * left. now rewrite <- (Hnil eq_refl).
      * right. rewrite Hsame in Hin1 by discriminate.
        unfold entry in Hin1. rewrite (Hfresh read_name r) in Hin1; simpl; auto.
        simpl in Hin1. inversion Hin1; subst. exact Hscored.
    + left. now rewrite <- Hother.
Qed.

Lemma relevant_read_names_sorted :
  sorted String.compare (relevant_read_names g reads_by_name site).
Proof.
  unfold relevant_read_names.
  assert (Hinner : forall l names,
            sorted String.compare names ->
            sorted String.compare
              (fold_left
                 (fun names (name_and_mappings : string * list MappingPtr) =>
                    if count String.compare (fst name_and_mappings) reads_by_name
                    then insert String.compare (fst name_and_mappings) tt names
                    else names) l names)).
  { induction l as [|x l IH]; intros names Hs; simpl; auto.
    apply IH. destruct (count _ _ _); auto. now apply sinsert_sorted. }
  assert (Houter : forall ids names,
            sorted String.compare names ->
            sorted String.compare
              (fold_left
                 (fun names id =>
                    fold_left
                      (fun names (name_and_mappings : string * list MappingPtr) =>
                         if count String.compare (fst name_and_mappings) reads_by_name
                         then insert String.compare (fst name_and_mappings) tt names
                         else names) (get_node_mapping g id) names) ids names)).
  { induction ids as [|id ids IH]; intros names Hs; simpl; auto. }
  apply Houter. constructor.
Qed.

(** Every entry of the returned map is the scoring of one read. *)
Lemma get_affinities_fast_scored superbubble_paths to_return read affs :
  get_affinities_fast g reads_by_name alignments site superbubble_paths
  = Some to_return ->
  In (read, affs) to_return ->
  scored g reads_by_name alignments site
    (map (traversals_to_string g) superbubble_paths) read affs.
Proof.
  unfold get_affinities_fast. intros H Hin.
  apply score_reads_spec in H.
  - destruct H as [Hs Hfind]. apply nsorted_In_find in Hin; auto.
    destruct (Hfind _ _ Hin) as [Habs|Hsc]; [discriminate | exact Hsc].
  - apply (sorted_NoDup_keys string_compare_eq), relevant_read_names_sorted.
  - reflexivity.
  - constructor.
Qed.
End ScorerFacts.

(** *** When the scorer returns a map *)

Lemma length_list_ascii_of_string s :
  List.length (list_ascii_of_string s) = String.length s.
Proof. induction s as [|c s IH]; simpl; auto. Qed.

Lemma canonical_traversal_nonempty site trav :
  trav <> [] -> canonical_traversal site trav <> [].
Proof.
  intros H. unfold canonical_traversal.
  destruct (traversed_backward site trav); auto.
  intros E. apply (f_equal (@List.length _)) in E.
  rewrite length_map, length_rev in E. destruct trav; simpl in E; congruence.
Qed.

Lemma affinity_for_defined site trav seq base path_seq :
  trav <> [] -> ~ In Ascii.zero (list_ascii_of_string seq) ->
  exists a, affinity_for site trav seq base path_seq = Some a.
Proof.
  intros Hne Hz. unfold affinity_for. destruct trav as [|front rest]; [congruence|].
  destruct (nt_eqb front (start site) && _); eauto.
  destruct (nt_eqb front (start site)).
  - destruct (@mismatch_at_end_defined (list_ascii_of_string seq)
                (list_ascii_of_string path_seq) Hz) as [b ->]; simpl; eauto.
  - destruct (nt_eqb _ (end_ site)); eauto.
    destruct (@mismatch_at_end_defined (rev (list_ascii_of_string seq))
                (rev (list_ascii_of_string path_seq))) as [b ->]; simpl; eauto.
    now rewrite <- in_rev.
Qed.

Lemma reverse_complement_zero_free s :
  ~ In Ascii.zero (list_ascii_of_string (reverse_complement s)).
Proof.
  induction s as [|c s IH]; simpl; [tauto|].
  rewrite list_ascii_of_string_app, in_app_iff. simpl.
  intros [H|[H|[]]]; [tauto|]. unfold complement in H.
  destruct (Ascii.eqb c "A"); [discriminate|].
  destruct (Ascii.eqb c "T"); [discriminate|].
  destruct (Ascii.eqb c "C"); [discriminate|].
  destruct (Ascii.eqb c "G"); discriminate.
Qed.

(** What a traversal spells in a graph of sequences without zero bytes
    has none. *)
Lemma traversals_to_string_zero_free g trav :
  zero_free g -> ~ In Ascii.zero (list_ascii_of_string (traversals_to_string g trav)).
Proof.
  intros Hg. induction trav as [|t trav IH]; simpl; [tauto|].
  rewrite list_ascii_of_string_app, in_app_iff. intros [H|H]; [|tauto].
  unfold oriented_sequence in H. destruct (backward t).
  - exact (reverse_complement_zero_free _ H).
  - exact (Hg _ H).
Qed.

Section ScorerDefined.
Variable g : VG.
Variable reads_by_name : list (string * nat).
Variable alignments : list Alignment.
Variable site : Site.

Lemma score_alleles_defined read trav seq base strs : forall to_return,
  trav <> [] -> ~ In Ascii.zero (list_ascii_of_string seq) ->
  exists to_return',
    score_alleles site read trav seq base strs to_return = Some to_return'.
Proof.
  induction strs as [|s strs IH]; intros T Hne Hz; simpl; eauto.
  destruct (@affinity_for_defined site trav seq base s Hne Hz) as [a ->]. auto.
Qed.

(** The names the first loop collects are names of reads. *)
Lemma relevant_read_names_are_reads read_name :
  In read_name (keys (relevant_read_names g reads_by_name site)) ->
  count String.compare read_name reads_by_name = true.
Proof.
  unfold relevant_read_names.
  assert (Hinner : forall l names,
            (forall n, In n (keys names) ->
                       count String.compare n reads_by_name = true) ->
            forall n,
              In n (keys (fold_left
                 (fun names (name_and_mappings : string * list MappingPtr) =>
                    if count String.compare (fst name_and_mappings) reads_by_name
                    then insert String.compare (fst name_and_mappings) tt names
                    else names) l names)) ->
              count String.compare n reads_by_name = true).
  { induction l as [|x l IH]; intros names Hnames n; simpl; auto.
    apply IH. intros n' Hn'.
    destruct (count String.compare (fst x) reads_by_name) eqn:E; auto.
    unfold keys in Hn'. apply in_map_iff in Hn'. destruct Hn' as ([k v] & <- & Hin).
    apply In_insert in Hin. destruct Hin as [Hin|Hin].
    - inversion Hin; subst. exact E.
    - apply Hnames. unfold keys. apply in_map_iff. exists (k, v). auto. }
  assert (Houter : forall ids names,
            (forall n, In n (keys names) ->
                       count String.compare n reads_by_name = true) ->
            forall n,
              In n (keys (fold_left
                 (fun names id =>
                    fold_left
                      (fun names (name_and_mappings : string * list MappingPtr) =>
                         if count String.compare (fst name_and_mappings) reads_by_name
                         then insert String.compare (fst name_and_mappings) tt names
                         else names) (get_node_mapping g id) names) ids names)) ->
              count String.compare n reads_by_name = true).
  { induction ids as [|id ids IH]; intros names Hnames n; simpl; auto.
    apply IH. intros n'. now apply Hinner. }
  apply Houter. simpl. tauto.
Qed.

(** The scorer returns a map, in a graph of sequences without zero bytes,
    when every read it scores is among the alignments and goes through
    the site; how long the sequence of a read is plays no part. *)
Lemma get_affinities_fast_defined superbubble_paths :
  zero_free g ->
  (forall read_name read,
     In read_name (keys (relevant_read_names g reads_by_name site)) ->
     find String.compare read_name reads_by_name = Some read ->
     exists alignment,
       nth_error alignments read = Some alignment /\
       get_traversal_of_site g site (path alignment) <> []) ->
  exists to_return,
    get_affinities_fast g reads_by_name alignments site superbubble_paths
    = Some to_return.
Proof.
  intros Hg Hreads. unfold get_affinities_fast.
  assert (Hnames := relevant_read_names_are_reads).
  revert Hreads Hnames. generalize (keys (relevant_read_names g reads_by_name site)).
  intros names Hreads Hnames. generalize (@nil (nat * list Affinity)).
  induction names as [|read_name names IH]; intros T; simpl; eauto.
  assert (Hc := Hnames read_name (or_introl eq_refl)). unfold count in Hc.
  unfold score_read.
  destruct (find String.compare read_name reads_by_name) as [read|] eqn:Hr;
    [|discriminate].
  destruct (Hreads read_name read (or_introl eq_refl) Hr)
    as (alignment & -> & Hne).
  destruct (get_traversal_of_site g site (path alignment)) as [|front rest] eqn:Ht;
    [congruence|].
  destruct (@score_alleles_defined read
              (canonical_traversal site (front :: rest))
              (traversals_to_string g (canonical_traversal site (front :: rest)))
              {| Affinity.affinity := 0;
                 Affinity.is_reverse := traversed_backward site (front :: rest);
                 Affinity.consistent := false |}
              (map (traversals_to_string g) superbubble_paths) T) as [T1 ->].
  - now apply canonical_traversal_nonempty.
  - now apply traversals_to_string_zero_free.
  - apply IH.
    + intros n r Hn Hf. apply (Hreads n r); simpl; auto.
    + intros n Hn. apply (Hnames n). simpl. auto.
Qed.
End ScorerDefined.

(** *** [run] gives different names different alignments *)

Lemma index_reads_names all : forall rest i reads_by_name,
  (forall n r, find String.compare n reads_by_name = Some r ->
               exists a, nth_error all r = Some a /\ name a = n) ->
  (forall k a, nth_error rest k = Some a -> nth_error all (i + k) = Some a) ->
  forall n r,
    find String.compare n (index_reads rest i reads_by_name) = Some r ->
    exists a, nth_error all r = Some a /\ name a = n.
Proof.
  induction rest as [|a0 rest IH]; intros i M HM Hrest; simpl; [exact HM|].
  apply IH.
  - intros n r. destruct (string_dec n (name a0)) as [->|Hne].
    + rewrite sfind_insert_same. intros H; inversion H; subst r.
      exists a0. split; auto. rewrite <- (Nat.add_0_r i). now apply Hrest.
    + rewrite sfind_insert_other by auto. apply HM.
  - intros k a Hk. replace (S i + k) with (i + S k) by lia. now apply Hrest.
Qed.

Lemma build_reads_by_name_distinct alignments :
  distinct_reads (build_reads_by_name alignments).
Proof.
  intros n1 n2 r H1 H2. unfold build_reads_by_name in *.
  assert (Hnames := index_reads_names alignments alignments 0 []).
  destruct (Hnames ltac:(simpl; discriminate) ltac:(auto) _ _ H1) as (a1 & Ha1 & <-).
  destruct (Hnames ltac:(simpl; discriminate) ltac:(auto) _ _ H2) as (a2 & Ha2 & <-).
  congruence.
Qed.

(** *** The affinities of a read *)

Lemma Forall2_map_left (A B C : Type) (f : A -> B) (P : B -> C -> Prop) l l' :
  Forall2 P (map f l) l' -> Forall2 (fun x y => P (f x) y) l l'.
Proof.
  revert l'. induction l as [|x l IH]; intros l' H; inversion H; subst;
    constructor; auto.
Qed.

(** *** The program's view of a read is that of the specification *)




Section ScorerTheorems.
Variable g : VG.
Variable reads_by_name : list (string * nat).
Variable alignments : list Alignment.
Variable site : Site.
Variable superbubble_paths : list (list NodeTraversal).


(** C10. For a read in the map returned by the fast scorer, the affinity
    vector has one entry per candidate allele, the entry at index [i] is
    the affinity for allele [i], and all entries carry the one
    [is_reverse] flag found when the read's traversal was turned; so an
    index below the number of alleles is never out of range, and the read
    never supports one allele forward and another in reverse. *)
Theorem get_affinities_fast_one_entry_per_allele to_return read affs :
  distinct_reads reads_by_name ->
  get_affinities_fast g reads_by_name alignments site superbubble_paths
  = Some to_return ->
  In (read, affs) to_return ->
  List.length affs = List.length superbubble_paths /\
  (exists alignment,
     nth_error alignments read = Some alignment /\
     let read_traversal := get_traversal_of_site g site (path alignment) in
     let flag := traversed_backward site read_traversal in
     (forall i allele,
        nth_error superbubble_paths i = Some allele ->
        exists a,
          nth_error affs i = Some a /\
          affinity_for site (canonical_traversal site read_traversal)
            (traversals_to_string g (canonical_traversal site read_traversal))
            {| Affinity.affinity := 0; Affinity.is_reverse := flag;
               Affinity.consistent := false |}
            (traversals_to_string g allele) = Some a) /\
     Forall (fun a => Affinity.is_reverse a = flag) affs) /\
  (forall i, i < List.length superbubble_paths -> nth_error affs i <> None) /\
  (forall a b, In a affs -> In b affs ->
               Affinity.consistent a = true -> Affinity.consistent b = true ->
               Affinity.is_reverse a = Affinity.is_reverse b).
Proof.
  intros Hd H Hin.
  destruct (@get_affinities_fast_scored _ _ _ _ Hd _ _ _ _ H Hin)
    as (read_name & alignment & _ & Ha & _ & Hall).
  apply Forall2_map_left in Hall.
  assert (Hlen : List.length affs = List.length superbubble_paths).
  { symmetry. eapply Forall2_length; eauto. }
  assert (Hflag : Forall (fun a => Affinity.is_reverse a
                    = traversed_backward site
                        (get_traversal_of_site g site (path alignment))) affs).
  { clear Hlen H Hin.
    induction Hall as [|allele a l l' Haff _ IH]; constructor; auto.
    apply affinity_for_spec in Haff. simpl in Haff. tauto. }
  split; [exact Hlen|]. split; [|split].
  - exists alignment. split; auto. cbv zeta. split; auto.
    clear Hlen Hflag H Hin. induction Hall as [|allele a l l' Haff _ IH];
      intros [|i] allele' Hi; simpl in *; try discriminate.
    + inversion Hi; subst. eauto.
    + now apply IH.
  - intros i Hi. apply nth_error_Some. lia.
  - rewrite Forall_forall in Hflag. intros a b Ha' Hb' _ _.
    now rewrite (Hflag _ Ha'), (Hflag _ Hb').
Qed.
End ScorerTheorems.

(* ================================================================= *)
(** ** The fast affinity scorer on the example graph *)

Example bubble_affinities :
  get_affinities_fast bubble_graph (build_reads_by_name bubble_reads) bubble_reads
    bubble_site bubble_alleles
  = Some bubble_to_return.
Proof. reflexivity. Qed.

Lemma string_length_app (a b : string) :
  String.length (a ++ b) = String.length a + String.length b.
Proof. induction a as [|c a IH]; simpl; auto. Qed.

(** The scorer on the reads that run past an allele: [read2] and
    [read3] are inconsistent with both alleles. *)
Example overrun_affinities :
  get_affinities_fast overrun_graph (build_reads_by_name overrun_reads) overrun_reads
    overrun_site bubble_alleles
  = Some overrun_to_return.
Proof. reflexivity. Qed.


(** On that input: the traversal of [read2] starts at the start of the
    site only, it spells "ACTG", which is no prefix of the allele "ACT",
    and the scorer marks it inconsistent; the one of [read3] ends at the
    end of the site only and spells "GACT", no suffix of "ACT". *)
Example overrun_reads_inconsistent :
  site_sequence overrun_graph
    (canonicalized overrun_site
       (site_restricted overrun_site [mk_mapping 1 false; mk_mapping 6 false]))
  = "ACTG"%string /\
  site_sequence overrun_graph
    (canonicalized overrun_site
       (site_restricted overrun_site [mk_mapping 7 false; mk_mapping 4 false]))
  = "GACT"%string /\
  site_sequence overrun_graph [fwd 1; fwd 2; fwd 4] = "ACT"%string /\
  ~ is_prefix "ACTG" "ACT" /\ ~ is_suffix "GACT" "ACT" /\
  entry overrun_to_return 1 = [mk_affinity false false; mk_affinity false false] /\
  entry overrun_to_return 2 = [mk_affinity false false; mk_affinity false false].
Proof.
  repeat split.
  - intros [rest H]. simpl in H. discriminate.
  - intros [init H]. apply (f_equal String.length) in H. simpl in H.
    rewrite string_length_app in H. simpl in H. lia.
Qed.

Lemma get_affinities_fast_one_entry_per_allele_witness :
  distinct_reads (build_reads_by_name overrun_reads) /\
  get_affinities_fast overrun_graph (build_reads_by_name overrun_reads) overrun_reads
    overrun_site bubble_alleles = Some overrun_to_return /\
  In (1, [mk_affinity false false; mk_affinity false false]) overrun_to_return /\
  List.length [mk_affinity false false; mk_affinity false false]
  = List.length bubble_alleles /\
  (forall i, i < List.length bubble_alleles ->
             nth_error [mk_affinity false false; mk_affinity false false] i <> None).
Proof.
  assert (H1 := build_reads_by_name_distinct overrun_reads).
  assert (H2 : get_affinities_fast overrun_graph (build_reads_by_name overrun_reads)
                 overrun_reads overrun_site bubble_alleles = Some overrun_to_return)
    by reflexivity.
  assert (H3 : In (1, [mk_affinity false false; mk_affinity false false])
                  overrun_to_return)
    by (simpl; right; left; reflexivity).
  repeat split; auto;
    destruct (@get_affinities_fast_one_entry_per_allele overrun_graph
                (build_reads_by_name overrun_reads) overrun_reads overrun_site
                bubble_alleles overrun_to_return 1
                [mk_affinity false false; mk_affinity false false] H1 H2 H3)
      as (Hlen & _ & Hrange & _); auto.
Defined.

(** C1 does not hold of the fast scorer.  [anchor_read] touches the start
    node of the site and no other node of it, so the test of
    [get_affinities] calls it uninformative; [get_affinities_fast] has no
    such test, scores the read as a prefix of the allele, and returns it
    in its map with an affinity that is consistent. *)
Theorem fast_scorer_keeps_uninformative_read :
  get_traversal_of_site anchor_graph bubble_site (path anchor_read)
  = [start bubble_site] /\
  informative bubble_site anchor_read = false /\
  get_affinities_fast anchor_graph (build_reads_by_name [anchor_read]) [anchor_read]
    bubble_site [[fwd 1; fwd 2; fwd 4]]
  = Some [(0, [mk_affinity true false])].
Proof. repeat split. Qed.

(* ================================================================= *)
(** ** Genotype likelihoods *)

(** *** Phred scores and log-probabilities *)

Lemma ln_10_pos : (0 < ln 10)%R.
Proof. rewrite <- ln_1. apply ln_increasing; lra. Qed.

Lemma phred_to_prob_pos phred : (0 < phred_to_prob phred)%R.
Proof. apply exp_pos. Qed.

Lemma phred_to_prob_lt_1 phred : (0 < phred)%Z -> (phred_to_prob phred < 1)%R.
Proof.
  intros H. unfold phred_to_prob. rewrite <- exp_0. apply exp_increasing.
  assert (H10 := ln_10_pos). apply IZR_lt in H.
  assert (0 < IZR phred / 10)%R by lra. nra.
Qed.

Lemma phred_to_logprob_ln phred : phred_to_logprob phred = ln (phred_to_prob phred).
Proof. unfold phred_to_logprob, phred_to_prob. now rewrite ln_exp. Qed.

Lemma phred_to_prob_0 : phred_to_prob 0 = 1%R.
Proof.
  unfold phred_to_prob. replace (- (0 / 10) * ln 10)%R with 0%R by lra.
  apply exp_0.
Qed.

Lemma phred_to_logprob_neg phred : (0 < phred)%Z -> (phred_to_logprob phred < 0)%R.
Proof.
  intros H. unfold phred_to_logprob.
  assert (H10 := ln_10_pos). apply IZR_lt in H.
  assert (0 < IZR phred / 10)%R by lra. nra.
Qed.

(** [logprob_invert] of a Phred score that is not negative: minus
    infinity for the score 0, whose probability is 1. *)
Lemma logprob_invert_phred phred :
  (0 <= phred)%Z ->
  logprob_invert (Finite (phred_to_logprob phred))
  = if (phred =? 0)%Z then MinusInfinity
    else Finite (ln (1 - phred_to_prob phred)).
Proof.
  intros H. unfold logprob_invert.
  destruct (Z.eqb_spec phred 0) as [->|Hne].
  - assert (E : phred_to_logprob 0 = 0%R) by (unfold phred_to_logprob; lra).
    rewrite E. destruct (Rlt_dec 0 0) as [Hlt|_]; [lra|].
    destruct (Req_dec_T 0 0) as [_|Hn]; [reflexivity | now destruct Hn].
  - assert (Hneg : (phred_to_logprob phred < 0)%R) by (apply phred_to_logprob_neg; lia).
    destruct (Rlt_dec (phred_to_logprob phred) 0) as [_|Hn]; [|now destruct Hn].
    rewrite phred_to_logprob_ln, exp_ln; auto. apply phred_to_prob_pos.
Qed.

(** [logprob_invert] of a negative number. *)
Lemma logprob_invert_negative x :
  (x < 0)%R -> logprob_invert (Finite x) = Finite (ln (1 - exp x)).
Proof.
  intros H. unfold logprob_invert.
  destruct (Rlt_dec x 0) as [_|Hn]; [reflexivity | now destruct Hn].
Qed.

(** The probability that a read is wrong when the mapping quality is
    used, for Phred scores that are not negative: the value the code
    computes is a number, the one of the formula.  At a score 0 the
    inner [logprob_invert] is minus infinity, so is the sum, and the
    outer one gives 0. *)
Lemma logprob_wrong_mapq mapq qual :
  (0 <= mapq)%Z -> (0 <= qual)%Z ->
  logprob_invert
    (logprob_add (logprob_invert (Finite (phred_to_logprob mapq)))
                 (logprob_invert (Finite (phred_to_logprob qual))))
  = Finite (ln (1 - (1 - phred_to_prob mapq) * (1 - phred_to_prob qual))).
Proof.
  intros Hm Hq. rewrite !logprob_invert_phred by assumption.
  destruct (Z.eqb_spec mapq 0) as [->|Hm0]; destruct (Z.eqb_spec qual 0) as [->|Hq0];
    cbn [logprob_add]; try change (logprob_invert MinusInfinity) with (Finite 0).
  - rewrite phred_to_prob_0. f_equal. replace (1 - (1 - 1) * (1 - 1))%R with 1%R by lra.
    symmetry. apply ln_1.
  - rewrite phred_to_prob_0. f_equal.
    replace (1 - (1 - 1) * (1 - phred_to_prob qual))%R with 1%R by lra.
    symmetry. apply ln_1.
  - rewrite phred_to_prob_0. f_equal.
    replace (1 - (1 - phred_to_prob mapq) * (1 - 1))%R with 1%R by lra.
    symmetry. apply ln_1.
  - assert (H1 : (phred_to_prob mapq < 1)%R) by (apply phred_to_prob_lt_1; lia).
    assert (H2 : (phred_to_prob qual < 1)%R) by (apply phred_to_prob_lt_1; lia).
    assert (P1 := phred_to_prob_pos mapq). assert (P2 := phred_to_prob_pos qual).
    assert (N1 : (ln (1 - phred_to_prob mapq) < 0)%R).
    { rewrite <- ln_1. apply ln_increasing; lra. }
    assert (N2 : (ln (1 - phred_to_prob qual) < 0)%R).
    { rewrite <- ln_1. apply ln_increasing; lra. }
    rewrite logprob_invert_negative by lra.
    rewrite <- ln_mult by lra. rewrite exp_ln; auto.
    apply Rmult_lt_0_compat; lra.
Qed.

(** A negative Phred score, which no read of a file has, leaves the
    numbers: its probability is above 1 and [logprob_invert] of a
    positive logarithm is not a number. *)
Lemma logprob_invert_negative_phred phred :
  (phred < 0)%Z -> logprob_invert (Finite (phred_to_logprob phred)) = NotANumber.
Proof.
  intros H. unfold logprob_invert.
  assert (Hpos : (0 < phred_to_logprob phred)%R).
  { unfold phred_to_logprob. assert (H10 := ln_10_pos). apply IZR_lt in H.
    assert (IZR phred / 10 < 0)%R by lra. nra. }
  destruct (Rlt_dec (phred_to_logprob phred) 0) as [Hlt|_]; [lra|].
  destruct (Req_dec_T (phred_to_logprob phred) 0) as [E|_]; [lra | reflexivity].
Qed.

(** The prior of a homozygous genotype is a number for a
    heterozygosity below 1: [log (1 - h)]. *)
Lemma homozygous_log_prior self a :
  (het_prior_logprob self < 0)%R ->
  get_genotype_log_prior self [a; a]
  = Some (ln (1 - exp (het_prior_logprob self))).
Proof.
  intros H. unfold get_genotype_log_prior. rewrite Z.eqb_refl. cbn [negb].
  now rewrite logprob_invert_negative.
Qed.

Lemma ln_half_neg : (ln (/ 2) < 0)%R.
Proof. rewrite <- ln_1. apply ln_increasing; lra. Qed.

(** *** The terms of the reads *)

Section LikelihoodFacts.
Variable self : Genotyper.

Lemma count_consistent_pair consistency i j k0 counts k counts' :
  count_consistent consistency [i; j] k0 counts = Some (k, counts') ->
  k = (k0 + matched_slots i j consistency)%Z.
Proof.
  unfold matched_slots, slot_consistent. simpl.
  destruct (at_ consistency i) as [ai|]; [|discriminate].
  destruct (Affinity.consistent ai);
    (destruct (at_ consistency j) as [aj|]; [|discriminate]);
    destruct (Affinity.consistent aj); intros H; inversion H; lia.
Qed.

Lemma account_read_term i j w d counts rc w' d' counts' :
  account_read self [i; j] (w, d, counts) rc = Some (w', d', counts') ->
  (w' + d' = w + d + read_term self i j rc)%R.
Proof.
  destruct rc as [read consistency]. unfold account_read, read_term.
  destruct (count_consistent consistency [i; j] 0 counts) as [[k c1]|] eqn:E;
    [|discriminate].
  apply count_consistent_pair in E. simpl in E. subst k. cbn [fst snd].
  destruct (matched_slots i j consistency =? 0)%Z; intros H; inversion H; subst.
  - lra.
  - unfold prob_to_logprob. replace (1 + 1)%R with 2%R by lra. lra.
Qed.

Lemma account_reads_terms i j reads : forall w d counts w' d' counts',
  account_reads self [i; j] (w, d, counts) reads = Some (w', d', counts') ->
  (w' + d' = w + d + sum_R (map (read_term self i j) reads))%R.
Proof.
  induction reads as [|rc reads IH]; intros w d counts w' d' counts'.
  - simpl. intros H; inversion H; subst. lra.
  - cbn [account_reads map sum_R fold_right].
    destruct (account_read self [i; j] (w, d, counts) rc) as [[[w1 d1] c1]|] eqn:E;
      [|discriminate].
    intros H. apply IH in H. apply account_read_term in E.
    fold (sum_R (map (read_term self i j) reads)). lra.
Qed.

(** C2, as the code has it. For a genotype [(i, j)], the log-likelihood
    is the sum, over the reads, of the term of each read, plus the strand
    term.  The term of a read is [log (k / 2)], where [k] counts the two
    allele slots [i] and [j] of the genotype that the read is consistent
    with, so that a read consistent with the allele of a homozygous
    genotype has [k = 2] and adds [log (2 / 2) = 0]; a read with [k = 0]
    adds the log-probability that it is wrong, [log P_bq] when the
    mapping quality is not used, and [log (1 - (1 - P_mq) (1 - P_bq))]
    when it is, for Phred scores that are not negative: the value the
    code computes is then a number, also at a score 0, where the inner
    [logprob_invert] is minus infinity. *)
Theorem genotype_log_likelihood_read_terms i j reads wrong drawn counts :
  likelihood_loop self [i; j] reads = Some (wrong, drawn, counts) ->
  (wrong + drawn = sum_R (map (read_term self i j) reads))%R /\
  get_genotype_log_likelihood self [i; j] reads
  = Some (sum_R (map (read_term self i j) reads) + strands_as_specified counts)%R /\
  (forall rc, In rc reads ->
     let k := matched_slots i j (snd rc) in
     let P_mq := phred_to_prob (mapping_quality (fst rc)) in
     let P_bq := phred_to_prob (alignment_qual_score self (fst rc)) in
     ((1 <= k)%Z -> read_term self i j rc = ln (IZR k / 2)) /\
     (k = 0%Z -> use_mapq self = false -> read_term self i j rc = ln P_bq) /\
     (k = 0%Z -> use_mapq self = true ->
      (0 <= mapping_quality (fst rc))%Z -> (0 <= alignment_qual_score self (fst rc))%Z ->
      logprob_wrong_double self (fst rc) = Finite (ln (1 - (1 - P_mq) * (1 - P_bq))) /\
      read_term self i j rc = ln (1 - (1 - P_mq) * (1 - P_bq))) /\
     (i = j -> slot_consistent (snd rc) i = true -> read_term self i j rc = 0%R)).
Proof.
  intros H. unfold likelihood_loop in H.
  assert (Hsum := account_reads_terms _ _ _ _ _ _ H).
  unfold prob_to_logprob in Hsum. rewrite ln_1 in Hsum.
  split; [lra|]. split.
  - unfold get_genotype_log_likelihood, likelihood_loop. rewrite H.
    f_equal. lra.
  - intros rc _. cbv zeta. unfold read_term. repeat split.
    + intros Hk. destruct (Z.eqb_spec (matched_slots i j (snd rc)) 0); [lia | reflexivity].
    + intros -> Hm. simpl. unfold logprob_wrong, logprob_wrong_double. rewrite Hm.
      apply phred_to_logprob_ln.
    + unfold logprob_wrong_double. rewrite H1.
      now apply logprob_wrong_mapq.
    + rewrite H0. simpl. unfold logprob_wrong, logprob_wrong_double. rewrite H1.
      rewrite logprob_wrong_mapq by assumption. reflexivity.
    + intros <- Hc. unfold matched_slots. rewrite Hc. simpl.
      replace (2 / 2)%R with 1%R by lra. apply ln_1.
Qed.
End LikelihoodFacts.

Lemma genotype_log_likelihood_read_terms_witness :
  exists wrong drawn counts,
    likelihood_loop (settings 100 2) [0; 1]%Z [unmapped_read]
    = Some (wrong, drawn, counts) /\
    (wrong + drawn
     = sum_R (map (read_term (settings 100 2) 0 1) [unmapped_read]))%R /\
    use_mapq (settings 100 2) = true /\
    mapping_quality (fst unmapped_read) = 0%Z /\
    read_term (settings 100 2) 0 1 unmapped_read
    = ln (1 - (1 - phred_to_prob 0) * (1 - phred_to_prob 15)).
Proof.
  eexists. eexists. eexists.
  split; [reflexivity|].
  pose proof (@genotype_log_likelihood_read_terms (settings 100 2) 0 1
                [unmapped_read] _ _ _ eq_refl) as (Hsum & _ & Hread).
  split; [exact Hsum|]. split; [reflexivity|]. split; [reflexivity|].
  destruct (Hread unmapped_read (or_introl eq_refl)) as (_ & _ & Hmq & _).
  apply Hmq; [reflexivity | reflexivity | change (0 <= 0)%Z; lia | change (0 <= 15)%Z; lia].
Defined.

(** C2, as stated, fails for a homozygous genotype: for the genotype
    (0, 0), the read of [forward_read], which is consistent with allele 0,
    is counted for both slots and adds [log (2 / 2) = 0] to
    [all_supporting_drawn], not [log (1 / 2)]. *)
Lemma homozygous_read_adds_log_1 :
  exists wrong drawn counts,
    likelihood_loop (settings 100 2) [0; 0]%Z [forward_read]
    = Some (wrong, drawn, counts) /\
    wrong = 0%R /\ drawn = 0%R /\ ln (1 / 2) <> 0%R.
Proof.
  exists (prob_to_logprob 1),
         (prob_to_logprob 1 + prob_to_logprob (IZR 2 / INR 2))%R,
         [(0, (2, 0))]%Z.
  split; [reflexivity|]. unfold prob_to_logprob.
  replace (IZR 2 / INR 2)%R with 1%R by (simpl; lra). rewrite ln_1.
  repeat split; try lra.
  replace (1 / 2)%R with (/ 2)%R by lra. assert (H := ln_half_neg). lra.
Qed.

(* ================================================================= *)
(** ** Strand counts *)

Section StrandFacts.
Variable self : Genotyper.

Ltac pair_arith :=
  unfold add_pair, scale, one_read; cbn [fst snd List.length];
  rewrite ?Nat2Z.inj_succ; f_equal; lia.

Lemma strand_of_count_strand reverse allele counts a :
  strand_of (count_strand reverse allele counts) a
  = if (a =? allele)%Z
    then add_pair (strand_of counts a) (if reverse then (0, 1)%Z else (1, 0)%Z)
    else strand_of counts a.
Proof.
  unfold strand_of, count_strand.
  destruct (Z.eqb_spec a allele) as [->|Hne].
  - destruct (find Z.compare allele counts) as [[f r]|];
      rewrite zfind_insert_same; destruct reverse; pair_arith.
  - destruct (find Z.compare allele counts) as [[f r]|];
      now rewrite zfind_insert_other.
Qed.

(** One read adds itself to the entry of an allele once for every slot
    of the genotype that holds the allele. *)
Lemma count_consistent_strand read consistency genotype : forall k0 counts k counts' a,
  count_consistent consistency genotype k0 counts = Some (k, counts') ->
  strand_of counts' a
  = add_pair (strand_of counts a)
             (scale (slots_of a genotype) (one_read a (read, consistency))).
Proof.
  unfold slots_of, one_read, supports. cbn [snd].
  induction genotype as [|allele genotype IH]; intros k0 counts k counts' a;
    cbn [count_consistent filter].
  - intros H; inversion H; subst. destruct (strand_of counts' a). pair_arith.
  - destruct (at_ consistency allele) as [x|] eqn:Hx; [|discriminate].
    rewrite (Z.eqb_sym a allele).
    destruct (Affinity.consistent x) eqn:Hc; intros H; apply IH with (a := a) in H;
      rewrite H; clear H; rewrite ?strand_of_count_strand;
      rewrite ?(Z.eqb_sym a allele);
      (destruct (Z.eqb_spec allele a) as [->|Hne]; [|reflexivity]);
      rewrite Hx, Hc; cbn [andb];
      destruct (Affinity.is_reverse x); cbn [Bool.eqb];
      destruct (strand_of counts a); pair_arith.
Qed.

(** After the loop over the reads, the entry of an allele holds the
    reads consistent with it on each strand, once for every slot of the
    genotype that holds the allele: for a homozygous genotype, twice the
    number of reads. *)
Lemma account_reads_strand genotype reads : forall state state' a,
  account_reads self genotype state reads = Some state' ->
  strand_of (snd state') a
  = add_pair (strand_of (snd state) a)
             (scale (slots_of a genotype)
                    (support_of a false reads, support_of a true reads)).
Proof.
  unfold support_of.
  induction reads as [|rc reads IH]; intros [[w d] counts] state' a;
    cbn [account_reads filter].
  - intros H; inversion H; subst. cbn [snd]. destruct (strand_of counts a).
    pair_arith.
  - destruct rc as [read consistency]. unfold account_read.
    destruct (count_consistent consistency genotype 0 counts) as [[k c1]|] eqn:E;
      [|discriminate].
    apply count_consistent_strand with (read := read) (a := a) in E.
    destruct (k =? 0)%Z; intros H; apply IH with (a := a) in H; rewrite H;
      cbn [snd]; rewrite E; unfold one_read;
      destruct (supports a false (read, consistency)),
               (supports a true (read, consistency));
      destruct (strand_of counts a); pair_arith.
Qed.
(** For a heterozygous genotype the strand counts of each of its alleles
    are the reads consistent with the allele on each strand; for a
    homozygous genotype they are twice that. *)
Lemma heterozygous_strand_counts i j reads wrong drawn counts :
  i <> j ->
  likelihood_loop self [i; j] reads = Some (wrong, drawn, counts) ->
  strand_of counts i = (support_of i false reads, support_of i true reads) /\
  strand_of counts j = (support_of j false reads, support_of j true reads).
Proof.
  intros Hne H. unfold likelihood_loop in H.
  assert (Hi := account_reads_strand _ _ _ i H).
  assert (Hj := account_reads_strand _ _ _ j H).
  cbn [snd] in Hi, Hj. unfold strand_of at 2 in Hi. unfold strand_of at 2 in Hj.
  unfold slots_of in Hi, Hj. cbn [filter find] in Hi, Hj.
  rewrite Z.eqb_refl in Hi, Hj.
  replace (i =? j)%Z with false in Hi by (symmetry; apply Z.eqb_neq; congruence).
  replace (j =? i)%Z with false in Hj by (symmetry; apply Z.eqb_neq; congruence).
  rewrite Hi, Hj. split; pair_arith.
Qed.

Lemma homozygous_strand_counts i reads wrong drawn counts :
  likelihood_loop self [i; i] reads = Some (wrong, drawn, counts) ->
  strand_of counts i
  = ((2 * support_of i false reads)%Z, (2 * support_of i true reads)%Z).
Proof.
  intros H. unfold likelihood_loop in H.
  assert (Hi := account_reads_strand _ _ _ i H).
  cbn [snd] in Hi. unfold strand_of at 2 in Hi.
  unfold slots_of in Hi. cbn [filter find] in Hi. rewrite Z.eqb_refl in Hi.
  rewrite Hi. pair_arith.
Qed.
End StrandFacts.

Lemma factorial_ln_0 : factorial_ln 0 = 0%R.
Proof. unfold factorial_ln. simpl. apply ln_1. Qed.

Lemma factorial_ln_1 : factorial_ln 1 = 0%R.
Proof. unfold factorial_ln. simpl. apply ln_1. Qed.

(** C4 does not hold of the code for a homozygous genotype.  For the
    genotype (0, 0) and the one read of [forward_read], which is
    consistent with allele 0 on the forward strand, the loop over the two
    slots of the genotype counts the read twice: the strand counts of
    allele 0 are (2, 0), not the (1, 0) reads that support it, and the
    strand term is the log multinomial of (2, 0), [2 log (1/2)], not that
    of (1, 0), [log (1/2)]. *)
Theorem homozygous_strand_counts_doubled :
  (exists wrong drawn,
     likelihood_loop (settings 100 2) [0; 0]%Z [forward_read]
     = Some (wrong, drawn, [(0, (2, 0))]%Z)) /\
  support_of 0 false [forward_read] = 1%Z /\
  support_of 0 true [forward_read] = 0%Z /\
  strands_as_specified [(0, (2, 0))]%Z = (2 * ln (/ 2))%R /\
  multinomial_sampling_prob_ln [/ 2; / 2]%R [1; 0]%Z = ln (/ 2) /\
  (2 * ln (/ 2))%R <> ln (/ 2).
Proof.
  split; [eexists; eexists; reflexivity|].
  split; [reflexivity|]. split; [reflexivity|].
  assert (Hneg := ln_half_neg).
  split; [|split; [|lra]].
  - unfold strands_as_specified, multinomial_sampling_prob_ln, prob_to_logprob.
    cbn [fold_left fst snd map combine sum_R fold_right Z.add].
    rewrite factorial_ln_0, ln_1. simpl. lra.
  - unfold multinomial_sampling_prob_ln.
    cbn [fst snd map combine sum_R fold_right Z.add].
    change (1 + 0)%Z with 1%Z. rewrite factorial_ln_0, factorial_ln_1. lra.
Qed.

(* ================================================================= *)
(** ** Genotyping a site *)

(** *** Sorting *)

Lemma insert_by_Permutation (A : Type) (comp : A -> A -> bool) x l :
  Permutation (insert_by comp x l) (x :: l).
Proof.
  induction l as [|y l IH]; simpl; auto.
  destruct (comp x y); auto.
  rewrite IH. apply perm_swap.
Qed.

Lemma sort_by_Permutation (A : Type) (comp : A -> A -> bool) l :
  Permutation (sort_by comp l) l.
Proof.
  induction l as [|x l IH]; simpl; auto.
  rewrite insert_by_Permutation. now constructor.
Qed.

Lemma insert_by_posterior_sorted x l :
  StronglySorted posterior_ge l ->
  StronglySorted posterior_ge (insert_by posterior_gt x l).
Proof.
  induction 1 as [|y l Hs IH Hall]; simpl.
  - repeat constructor.
  - unfold posterior_gt.
    destruct (Rgt_dec (Genotype.log_posterior x) (Genotype.log_posterior y)) as [Hgt|Hle].
    + constructor; [constructor; auto|].
      constructor; [unfold posterior_ge; lra|].
      rewrite Forall_forall in *. intros z Hz. specialize (Hall z Hz).
      unfold posterior_ge in *. lra.
    + constructor; auto.
      rewrite Forall_forall in *. intros z Hz.
      apply (Permutation_in _ (insert_by_Permutation posterior_gt x l)) in Hz.
      destruct Hz as [<-|Hz]; [unfold posterior_ge; lra | auto].
Qed.

Lemma sort_by_posterior_sorted l :
  StronglySorted posterior_ge (sort_by posterior_gt l).
Proof.
  induction l as [|x l IH]; simpl; [constructor|].
  now apply insert_by_posterior_sorted.
Qed.

(** *** The genotype vectors *)

Lemma map_option_Forall2 (A B : Type) (f : A -> option B) l : forall l',
  map_option f l = Some l' -> Forall2 (fun x y => f x = Some y) l l'.
Proof.
  induction l as [|x l IH]; intros l'; simpl.
  - intros H; inversion H. constructor.
  - destruct (f x) as [y|] eqn:E; [|discriminate].
    destruct (map_option f l) as [ys|]; [|discriminate].
    intros H; inversion H; subst. constructor; auto.
Qed.

Lemma In_genotype_vectors n v :
  In v (genotype_vectors n) <->
  exists i j, j <= i < n /\ v = [Z.of_nat i; Z.of_nat j].
Proof.
  unfold genotype_vectors. rewrite in_flat_map. split.
  - intros (i & Hi & Hv). apply in_map_iff in Hv. destruct Hv as (j & <- & Hj).
    apply in_seq in Hi, Hj. exists i, j. split; [lia | reflexivity].
  - intros (i & j & Hij & ->). exists i. split.
    + apply in_seq. lia.
    + apply in_map_iff. exists j. split; auto. apply in_seq. lia.
Qed.

Lemma NoDup_genotype_vectors n : NoDup (genotype_vectors n).
Proof.
  unfold genotype_vectors. induction n as [|n IH]; [constructor|].
  rewrite seq_S, flat_map_app. cbn [flat_map Nat.add]. rewrite app_nil_r.
  apply NoDup_app; auto.
  - apply NoDup_map_NoDup_ForallPairs; [|apply seq_NoDup].
    intros x y _ _ H. inversion H. lia.
  - intros v Hv Hv'. apply in_flat_map in Hv. destruct Hv as (i & Hi & Hv).
    apply in_map_iff in Hv. destruct Hv as (j & <- & Hj).
    apply in_map_iff in Hv'. destruct Hv' as (j' & Heq & Hj').
    apply in_seq in Hi. inversion Heq. lia.
Qed.

Section GenotypeSiteFacts.
Variables (self : Genotyper) (site : Site).
Variable alignments : list Alignment.

Lemma make_genotype_spec consistency v gt :
  make_genotype self consistency v = Some gt ->
  Genotype.allele gt = v /\
  Genotype.log_posterior gt
  = (Genotype.log_likelihood gt + Genotype.log_prior gt)%R /\
  get_genotype_log_likelihood self v consistency = Some (Genotype.log_likelihood gt) /\
  get_genotype_log_prior self v = Some (Genotype.log_prior gt).
Proof.
  unfold make_genotype.
  destruct (get_genotype_log_likelihood self v consistency) as [ll|]; [|discriminate].
  destruct (get_genotype_log_prior self v) as [lp|]; [|discriminate].
  intros H; inversion H; subst; simpl. auto.
Qed.

(** The genotypes of a Locus are the sorted genotypes of the genotype
    vectors. *)
Lemma genotype_site_genotypes superbubble_paths affinities locus :
  genotype_site self site alignments superbubble_paths affinities = Some locus ->
  exists consistency genotypes,
    Forall2 (fun v gt => make_genotype self consistency v = Some gt)
      (genotype_vectors (List.length superbubble_paths)) genotypes /\
    Locus.genotype locus = sort_by posterior_gt genotypes.
Proof.
  unfold genotype_site.
  destruct (tally_reads _ _ _ _) as [counted|]; [|discriminate].
  destruct (map_option _ _) as [genotypes|] eqn:E; [|discriminate].
  intros H; inversion H; subst; simpl.
  exists (alignment_consistency counted), genotypes. split; auto.
  now apply map_option_Forall2.
Qed.

(** C8. The genotypes of a Locus made by [genotype_site] hold every pair
    of allele numbers [j <= i] below the number of alleles exactly once
    and nothing else, they are in order of non-increasing
    [log_posterior], and the [log_posterior] of each is the sum of its
    [log_likelihood] and its [log_prior]. *)
Theorem genotype_site_genotypes_sorted superbubble_paths affinities locus :
  genotype_site self site alignments superbubble_paths affinities = Some locus ->
  let n := List.length superbubble_paths in
  let vectors := map Genotype.allele (Locus.genotype locus) in
  (forall i j, j <= i < n ->
     count_occ (list_eq_dec Z.eq_dec) vectors [Z.of_nat i; Z.of_nat j] = 1) /\
  (forall v, In v vectors ->
     exists i j, j <= i < n /\ v = [Z.of_nat i; Z.of_nat j]) /\
  StronglySorted
    (fun a b => (Genotype.log_posterior b <= Genotype.log_posterior a)%R)
    (Locus.genotype locus) /\
  Forall (fun gt => Genotype.log_posterior gt
                    = (Genotype.log_likelihood gt + Genotype.log_prior gt)%R)
         (Locus.genotype locus).
Proof.
  intros H n vectors. apply genotype_site_genotypes in H.
  destruct H as (consistency & genotypes & Hall & Hsorted).
  fold n in Hall.
  assert (Hvec : map Genotype.allele genotypes = genotype_vectors n).
  { clear Hsorted. induction Hall as [|v gt l l' Hm _ IH]; simpl; auto.
    apply make_genotype_spec in Hm. destruct Hm as [-> _]. now rewrite IH. }
  assert (Hperm : Permutation vectors (genotype_vectors n)).
  { unfold vectors. rewrite Hsorted, <- Hvec.
    apply Permutation_map, sort_by_Permutation. }
  split; [|split; [|split]].
  - intros i j Hij.
    rewrite (Permutation_count_occ (list_eq_dec Z.eq_dec)) in Hperm.
    rewrite Hperm. apply NoDup_count_occ'; [apply NoDup_genotype_vectors|].
    apply In_genotype_vectors. eauto.
  - intros v Hv. apply In_genotype_vectors.
    eapply Permutation_in; eauto.
  - rewrite Hsorted. apply sort_by_posterior_sorted.
  - rewrite Hsorted, Forall_forall. intros gt Hgt.
    apply (Permutation_in _ (sort_by_Permutation posterior_gt genotypes)) in Hgt.
    clear Hsorted Hvec Hperm.
    induction Hall as [|v gt' l l' Hm _ IH]; simpl in Hgt; [tauto|].
    destruct Hgt as [<-|Hgt]; auto.
    apply make_genotype_spec in Hm. tauto.
Qed.
End GenotypeSiteFacts.

(** *** [genotype_site] returns a Locus for well-formed affinities *)

Lemma update_nth_defined (A : Type) (f : A -> A) l : forall i,
  i < List.length l ->
  exists l', update_nth i f l = Some l' /\ List.length l' = List.length l.
Proof.
  induction l as [|x l IH]; intros i Hi; simpl in *; [lia|].
  destruct i as [|i']; simpl.
  - eexists. split; [reflexivity|]. reflexivity.
  - assert (Hi' : i' < List.length l) by lia.
    destruct (IH i' Hi') as (l' & -> & Hlen). simpl. eexists. split; eauto.
    simpl. now rewrite Hlen.
Qed.

Lemma count_supports_defined affs : forall i rc ss fw rv,
  i + List.length affs <= List.length rc ->
  i + List.length affs <= List.length ss ->
  exists rc' ss' fw' rv',
    count_supports affs i (rc, ss, fw, rv) = Some (rc', ss', fw', rv') /\
    List.length rc' = List.length rc /\ List.length ss' = List.length ss.
Proof.
  induction affs as [|a affs IH]; intros i rc ss fw rv Hrc Hss; simpl in *.
  - repeat eexists.
  - assert (Hi1 : i < List.length rc) by lia.
    assert (Hi2 : i < List.length ss) by lia.
    destruct (Affinity.consistent a); [|apply IH; lia].
    destruct (@update_nth_defined _ Z.succ rc i Hi1) as (rc1 & -> & Hl1).
    destruct (Affinity.is_reverse a).
    + destruct (@update_nth_defined _ (fun fr : Z * Z => (fst fr, snd fr + 1)%Z) ss i Hi2)
        as (ss1 & -> & Hl2).
      destruct (IH (S i) rc1 ss1 fw true) as (rc' & ss' & fw' & rv' & -> & H1 & H2);
        try lia.
      repeat eexists; congruence.
    + destruct (@update_nth_defined _ (fun fr : Z * Z => (fst fr + 1, snd fr)%Z) ss i Hi2)
        as (ss1 & -> & Hl2).
      destruct (IH (S i) rc1 ss1 true rv) as (rc' & ss' & fw' & rv' & -> & H1 & H2);
        try lia.
      repeat eexists; congruence.
Qed.

Section GenotypeSiteDefined.
Variables (self : Genotyper) (site : Site).
Variable alignments : list Alignment.
Variable n : nat.

Lemma tally_reads_defined affinities : forall state,
  Forall (well_formed_entry alignments n) affinities ->
  List.length (reads_consistent_with_allele state) = n ->
  List.length (strand_support_for_allele state) = n ->
  Forall (fun rc => List.length (snd rc) = n) (alignment_consistency state) ->
  exists counted,
    tally_reads site alignments state affinities = Some counted /\
    Forall (fun rc => List.length (snd rc) = n) (alignment_consistency counted).
Proof.
  induction affinities as [|[read affs] affinities IH]; intros state Hwf H1 H2 H3;
    simpl.
  - eauto.
  - apply Forall_cons_iff in Hwf. destruct Hwf as [[Hread Hlen] Hwf'].
    simpl in Hread, Hlen.
    unfold tally_read. cbn [fst snd].
    destruct (nth_error alignments read) as [alignment|] eqn:E;
      [|apply nth_error_None in E; lia].
    destruct (count_supports_defined affs 0 (reads_consistent_with_allele state)
                (strand_support_for_allele state) false false)
      as (rc' & ss' & fw' & rv' & -> & Hl1 & Hl2); simpl; try lia.
    apply IH; simpl; auto; try congruence.
    apply Forall_app. split; auto.
Qed.

Lemma count_consistent_defined consistency genotype : forall k counts,
  Forall (fun a => (0 <= a < Z.of_nat (List.length consistency))%Z) genotype ->
  exists r, count_consistent consistency genotype k counts = Some r.
Proof.
  induction genotype as [|a genotype IH]; intros k counts Hall; simpl; eauto.
  inversion Hall as [|? ? Ha Hall']; subst.
  unfold at_. destruct (Z.ltb_spec a 0); [lia|].
  destruct (nth_error consistency (Z.to_nat a)) as [x|] eqn:E;
    [|apply nth_error_None in E; lia].
  destruct (Affinity.consistent x); auto.
Qed.

Lemma account_reads_defined genotype reads : forall state,
  Forall (fun rc => List.length (snd rc) = n) reads ->
  Forall (fun a => (0 <= a < Z.of_nat n)%Z) genotype ->
  exists state', account_reads self genotype state reads = Some state'.
Proof.
  induction reads as [|[read consistency] reads IH]; intros [[w d] counts] Hr Hg;
    simpl; eauto.
  apply Forall_cons_iff in Hr. destruct Hr as [Hlen Hr']. simpl in Hlen.
  destruct (count_consistent_defined consistency 0 counts (genotype := genotype))
    as ([k c1] & ->).
  { now rewrite Hlen. }
  destruct (k =? 0)%Z; apply IH; auto.
Qed.

Lemma make_genotype_defined consistency i j :
  Forall (fun rc => List.length (snd rc) = n) consistency ->
  j <= i < n ->
  exists gt, make_genotype self consistency [Z.of_nat i; Z.of_nat j] = Some gt.
Proof.
  intros Hc Hij. unfold make_genotype, get_genotype_log_likelihood, likelihood_loop.
  destruct (account_reads_defined (genotype := [Z.of_nat i; Z.of_nat j])
              (prob_to_logprob 1, prob_to_logprob 1, []) Hc)
    as ([[w d] counts] & ->).
  { repeat constructor; lia. }
  simpl. destruct (negb (Z.of_nat i =? Z.of_nat j)%Z); eauto.
Qed.

Lemma map_option_defined (A B : Type) (f : A -> option B) l :
  Forall (fun x => exists y, f x = Some y) l -> exists l', map_option f l = Some l'.
Proof.
  induction 1 as [|x l [y Hy] _ [l' IH]]; simpl; eauto.
  rewrite Hy, IH. simpl. eauto.
Qed.

(** With one affinity per allele for every read, and every read among
    the alignments, [genotype_site] returns a Locus. *)
Lemma genotype_site_defined superbubble_paths affinities :
  List.length superbubble_paths = n ->
  Forall (well_formed_entry alignments n) affinities ->
  exists locus,
    genotype_site self site alignments superbubble_paths affinities = Some locus.
Proof.
  intros Hn Hwf. unfold genotype_site. rewrite Hn.
  destruct (tally_reads_defined
              {| reads_consistent_with_allele := repeat 0%Z n;
                 strand_support_for_allele := repeat (0, 0)%Z n;
                 overall_forward_reads := 0; overall_reverse_reads := 0;
                 alignment_consistency := [] |} Hwf)
    as (counted & -> & Hc); simpl; auto using repeat_length.
  destruct (map_option_defined (make_genotype self (alignment_consistency counted))
              (l := genotype_vectors n)) as (genotypes & ->); eauto.
  apply Forall_forall. intros v Hv. apply In_genotype_vectors in Hv.
  destruct Hv as (i & j & Hij & ->). now apply make_genotype_defined.
Qed.
End GenotypeSiteDefined.

Lemma genotype_site_genotypes_sorted_witness :
  exists locus,
    genotype_site (settings 100 2) bubble_site bubble_reads bubble_alleles
      bubble_affinities_by_read = Some locus /\
    (forall i j, j <= i < List.length bubble_alleles ->
       count_occ (list_eq_dec Z.eq_dec)
         (map Genotype.allele (Locus.genotype locus))
         [Z.of_nat i; Z.of_nat j] = 1) /\
    StronglySorted
      (fun a b => (Genotype.log_posterior b <= Genotype.log_posterior a)%R)
      (Locus.genotype locus).
Proof.
  destruct (@genotype_site_defined (settings 100 2) bubble_site bubble_reads 2
              bubble_alleles bubble_affinities_by_read)
    as [locus H].
  - reflexivity.
  - repeat constructor.
  - exists locus. split; [exact H|].
    destruct (@genotype_site_genotypes_sorted (settings 100 2) bubble_site
                bubble_reads bubble_alleles bubble_affinities_by_read locus H)
      as (H1 & _ & H3 & _).
    split; [exact H1 | exact H3].
Defined.

(* ================================================================= *)
(** ** The reference index and the variant emitter *)

Example bubble_reference_index :
  build_reference_index bubble_graph "ref" = Returned bubble_index.
Proof. reflexivity. Qed.

Example bubble_variant_position :
  exists v, locus_to_variant bubble_graph bubble_site bubble_index bubble_locus
            = Returned [v] /\
            Variant.position v = 2 /\ Variant.ref v = "C"%string /\
            Variant.alt v = ["GG"%string] /\ Variant.GT v = (1, false, 0).
Proof. eexists. split; [reflexivity|]. repeat split. Qed.

(** *** The nodes in the index are the nodes of the reference path *)

Lemma count_insert_Z (V : Type) (k id : Z) (v : V) m :
  count Z.compare id (insert Z.compare k v m)
  = ((k =? id)%Z || count Z.compare id m).
Proof.
  unfold count. destruct (Z.eqb_spec k id) as [->|Hne].
  - now rewrite zfind_insert_same.
  - rewrite zfind_insert_other by congruence. reflexivity.
Qed.

Lemma index_mapping_byId g index base last m index' base' last' id :
  index_mapping g (index, base, last) m = Returned (index', base', last') ->
  count Z.compare id (ReferenceIndex.byId index')
  = ((node_id m =? id)%Z || count Z.compare id (ReferenceIndex.byId index)).
Proof.
  unfold index_mapping.
  destruct (count Z.compare (node_id m) (ReferenceIndex.byId index)) eqn:E; simpl.
  - intros H; inversion H; subst; simpl.
    destruct (Z.eqb_spec (node_id m) id) as [<-|Hne]; auto.
  - destruct (last <? rank m)%Z; simpl; [|discriminate].
    intros H; inversion H; subst; simpl. apply count_insert_Z.
Qed.

Lemma for_each_index_byId g ms : forall index base last index' base' last' id,
  for_each (index_mapping g) ms (index, base, last)
  = Returned (index', base', last') ->
  count Z.compare id (ReferenceIndex.byId index')
  = (existsb (fun m => (node_id m =? id)%Z) ms
     || count Z.compare id (ReferenceIndex.byId index)).
Proof.
  induction ms as [|m ms IH]; intros index base last index' base' last' id;
    cbn [for_each existsb].
  - intros H; inversion H; subst. reflexivity.
  - destruct (index_mapping g (index, base, last) m) as [[[i1 b1] l1]| | |] eqn:E;
      cbn [bind]; try discriminate.
    intros H. rewrite (IH i1 b1 l1 index' base' last' id H).
    rewrite (@index_mapping_byId g index base last m i1 b1 l1 id E).
    now rewrite orb_assoc, (orb_comm (existsb _ ms)).
Qed.

Lemma build_reference_index_byId g refPathName index id :
  build_reference_index g refPathName = Returned index ->
  (count Z.compare id (ReferenceIndex.byId index) = true
   <-> on_reference_path g refPathName id).
Proof.
  unfold build_reference_index.
  destruct (count String.compare refPathName (paths g)); simpl; [|discriminate].
  destruct (for_each _ _ _) as [[[i1 b1] l1]| | |] eqn:E; simpl; try discriminate.
  intros H; inversion H; subst.
  rewrite (@for_each_index_byId g _ _ _ _ index b1 l1 id E).
  simpl. rewrite orb_false_r, existsb_exists. unfold on_reference_path.
  split; intros (m & Hin & Hm); exists m; split; auto; now apply Z.eqb_eq.
Qed.

(** *** When the emitter returns a record *)

Lemma allele_strings_returned g alleles : forall acc,
  Forall (fun allele => allele <> []) alleles ->
  exists strs,
    for_each (fun acc allele => s <- allele_to_string g allele ;; Returned (acc ++ [s]))
      alleles acc = Returned strs /\
    List.length strs = List.length acc + List.length alleles.
Proof.
  induction alleles as [|allele alleles IH]; intros acc Hall; simpl.
  - exists acc. split; auto.
  - apply Forall_cons_iff in Hall. destruct Hall as [Hne Hall].
    destruct allele as [|m allele]; [congruence|]. simpl.
    destruct (IH (acc ++ [fold_left
                   (fun acc m => (acc ++ (if is_reverse m
                                          then reverse_complement (node_sequence g (node_id m))
                                          else node_sequence g (node_id m)))%string)
                   (removelast allele) EmptyString]) Hall) as (strs & -> & Hlen).
    exists strs. split; auto. rewrite Hlen, length_app. simpl. lia.
Qed.

Lemma add_allele_alts supports state x :
  Forall (fun k => k <= max_alt_number state) (allele_to_alt state) ->
  List.length (allele_to_alt (add_allele supports state x))
  = S (List.length (allele_to_alt state)) /\
  Forall (fun k => k <= max_alt_number (add_allele supports state x))
         (allele_to_alt (add_allele supports state x)).
Proof.
  intros Hall. destruct x as [i allele]. unfold add_allele.
  destruct (index_of (fix_bases allele) (variant_alleles state) 0) as [k|]; simpl;
    (split; [rewrite length_app; simpl; lia|]);
    (apply Forall_app; split;
     [ eapply Forall_impl; [|exact Hall]; simpl; intros; lia
     | repeat constructor; lia ]).
Qed.

Lemma add_alleles_alts supports l : forall state,
  Forall (fun k => k <= max_alt_number state) (allele_to_alt state) ->
  List.length (allele_to_alt (fold_left (add_allele supports) l state))
  = List.length (allele_to_alt state) + List.length l /\
  Forall (fun k => k <= max_alt_number (fold_left (add_allele supports) l state))
         (allele_to_alt (fold_left (add_allele supports) l state)).
Proof.
  induction l as [|x l IH]; intros state Hall; cbn [fold_left List.length].
  - split; auto.
  - destruct (@add_allele_alts supports state x Hall) as [Hlen Hmax].
    destruct (IH _ Hmax) as [Hlen' Hmax']. split; auto.
    rewrite Hlen', Hlen. lia.
Qed.

Lemma triangle_index low high max :
  low <= max -> high <= max ->
  (high * (high + 1)) / 2 + low < (max * (max + 1)) / 2 + max + 1.
Proof.
  intros Hl Hh.
  assert (high * (high + 1) / 2 <= max * (max + 1) / 2).
  { apply Nat.Div0.div_le_mono. nia. }
  lia.
Qed.

Lemma alt_of_returned unchecked allele_to_alt max a :
  Forall (fun k => k <= max) allele_to_alt ->
  (0 <= a < Z.of_nat (List.length allele_to_alt))%Z ->
  exists k, alt_of unchecked allele_to_alt a = Returned k /\ k <= max.
Proof.
  intros Hall Ha. unfold alt_of, at_.
  destruct (Z.ltb_spec a 0); [lia|].
  destruct (nth_error allele_to_alt (Z.to_nat a)) as [k|] eqn:E;
    [|apply nth_error_None in E; lia].
  exists k. split; auto. rewrite Forall_forall in Hall.
  eapply Hall, nth_error_In; eauto.
Qed.

Lemma place_likelihoods_returned allele_to_alt max best genotypes : forall v,
  Forall (fun k => k <= max) allele_to_alt ->
  Forall (fun gt => exists a b,
            Genotype.allele gt = [a; b] /\
            (0 <= a < Z.of_nat (List.length allele_to_alt))%Z /\
            (0 <= b < Z.of_nat (List.length allele_to_alt))%Z) genotypes ->
  List.length v = (max * (max + 1)) / 2 + max + 1 ->
  exists v', for_each (place_likelihood allele_to_alt best) genotypes v = Returned v'.
Proof.
  induction genotypes as [|gt genotypes IH]; intros v Hmax Hall Hlen; simpl; eauto.
  apply Forall_cons_iff in Hall. destruct Hall as [(a & b & Hab & Ha & Hb) Hall].
  unfold place_likelihood, diploid. rewrite Hab. simpl.
  destruct (@alt_of_returned false allele_to_alt max a Hmax Ha) as (low & -> & Hlow).
  destruct (@alt_of_returned false allele_to_alt max b Hmax Hb) as (high & -> & Hhigh).
  simpl.
  destruct (high <? low);
    match goal with
    | |- context [update_nth ?i ?f v] =>
        destruct (@update_nth_defined _ f v i) as (v1 & -> & Hl1);
          [rewrite Hlen; apply triangle_index; lia|]
    end; simpl; apply IH; auto; congruence.
Qed.

Lemma spell_alleles_returned g alleles :
  Forall (fun allele => allele <> []) alleles ->
  exists strs, spell_alleles g alleles = Returned strs /\
               List.length strs = List.length alleles.
Proof.
  intros H. destruct (allele_strings_returned g [] H) as (strs & Hs & Hlen).
  exists strs. split; auto.
Qed.

Lemma fill_variant_returned locus allele_strings refString interval_start :
  List.length allele_strings = List.length (Locus.allele locus) ->
  Locus.genotype locus <> [] ->
  Forall (fun gt => exists a b,
            Genotype.allele gt = [a; b] /\
            (0 <= a < Z.of_nat (List.length (Locus.allele locus)))%Z /\
            (0 <= b < Z.of_nat (List.length (Locus.allele locus)))%Z)
         (Locus.genotype locus) ->
  exists v, fill_variant locus allele_strings refString interval_start = Returned [v].
Proof.
  intros Hlen Hne Hall. unfold fill_variant.
  set (alts := fold_left _ _ _).
  destruct (@add_alleles_alts (Locus.support locus)
              (combine (seq 0 (List.length allele_strings)) allele_strings)
              {| variant_alleles := [refString]; variant_alt := [];
                 support_by_alt := []; allele_to_alt := []; max_alt_number := 0 |})
    as [Hl Hmax]; [constructor|].
  fold alts in Hl, Hmax. simpl in Hl.
  rewrite length_combine, length_seq, Nat.min_id, Hlen in Hl.
  rewrite <- Hl in Hall.
  destruct (Locus.genotype locus) as [|best rest] eqn:Hg; [congruence|].
  assert (Hbest := Forall_inv Hall). destruct Hbest as (a & b & Hab & Ha & Hb).
  unfold diploid at 1. rewrite Hab. cbn [bind fst snd].
  destruct (@alt_of_returned true (allele_to_alt alts) (max_alt_number alts) a Hmax Ha)
    as (k0 & -> & _).
  destruct (@alt_of_returned true (allele_to_alt alts) (max_alt_number alts) b Hmax Hb)
    as (k1 & -> & _).
  cbn [bind].
  destruct (@place_likelihoods_returned (allele_to_alt alts) (max_alt_number alts)
              (Genotype.log_likelihood best) (best :: rest)
              (repeat None
                 (max_alt_number alts * (max_alt_number alts + 1) / 2
                  + max_alt_number alts + 1)) Hmax Hall)
    as (v' & ->); [apply repeat_length|].
  cbn [bind]. eauto.
Qed.

(** C9, as the code has it.  For a Locus whose first allele has a
    mapping, the emitter returns no record when the start node or the end
    node of the site is not on the reference path; for a Locus without
    alleles and for one with an empty first allele it throws, whatever
    the site, before it looks at the reference.  For a site with both
    nodes on the reference path it returns one record when the Locus is
    [renderable]: the reference interval runs forward, every allele has a
    mapping, and there are genotypes, each of two alleles of the Locus;
    when the interval runs backward the assertion on it fails. *)
Theorem locus_to_variant_reference g site refPathName index locus :
  build_reference_index g refPathName = Returned index ->
  (forall m first others,
     Locus.allele locus = (m :: first) :: others ->
     ~ on_reference_path g refPathName (node (start site)) \/
     ~ on_reference_path g refPathName (node (end_ site)) ->
     locus_to_variant g site index locus = Returned []) /\
  (on_reference_path g refPathName (node (start site)) ->
   on_reference_path g refPathName (node (end_ site)) ->
   renderable g site index locus ->
   exists v, locus_to_variant g site index locus = Returned [v]) /\
  (Locus.allele locus = [] ->
   locus_to_variant g site index locus
   = Thrown "Can't turn an empty genotype into VCF") /\
  (forall others,
     Locus.allele locus = [] :: others ->
     locus_to_variant g site index locus
     = Thrown "Can't turn an empty allele into VCF") /\
  (forall m first others interval_start interval_end,
     Locus.allele locus = (m :: first) :: others ->
     reference_interval g site index = Some (interval_start, interval_end) ->
     interval_end < interval_start ->
     locus_to_variant g site index locus = AssertionFailed).
Proof.
  intros Hindex. split; [|split; [|split; [|split]]].
  - intros m first others Hallele Hoff. unfold locus_to_variant. rewrite Hallele.
    assert (Hs := @build_reference_index_byId g refPathName index
                    (node (start site)) Hindex).
    assert (He := @build_reference_index_byId g refPathName index
                    (node (end_ site)) Hindex).
    unfold count in Hs, He.
    destruct (find Z.compare (node (start site)) (ReferenceIndex.byId index));
      destruct (find Z.compare (node (end_ site)) (ReferenceIndex.byId index));
      auto; exfalso; destruct Hoff as [Hoff|Hoff]; apply Hoff; tauto.
  - intros _ _ ((s & e & Hint & Hse & Hlen) & Hne & Hg & Hall).
    unfold locus_to_variant. unfold reference_interval in Hint.
    destruct (Locus.allele locus) as [|[|m first] others] eqn:Halleles.
    + destruct (Locus.genotype locus) as [|gt rest]; [congruence|].
      apply Forall_inv in Hall. destruct Hall as (a & b & _ & Ha & _).
      simpl in Ha. lia.
    + apply Forall_inv in Hne. congruence.
    + destruct (find Z.compare (node (start site)) (ReferenceIndex.byId index))
        as [fa|]; [|discriminate].
      destruct (find Z.compare (node (end_ site)) (ReferenceIndex.byId index))
        as [la|]; [|discriminate].
      inversion Hint; subst s e. clear Hint.
      set (s := fst fa + String.length (node_sequence g (node (start site)))) in *.
      unfold assert. replace (s <=? fst la) with true
        by (symmetry; apply Nat.leb_le; lia).
      cbn [bind]. unfold substr at 1.
      replace (String.length (ReferenceIndex.sequence index) <? s) with false
        by (symmetry; apply Nat.ltb_ge; lia).
      cbn [bind].
      destruct (@spell_alleles_returned g ((m :: first) :: others) Hne)
        as (strs & -> & Hstrs).
      cbn [bind].
      destruct (_ || _).
      * replace (s =? 0) with false by (symmetry; apply Nat.eqb_neq; lia).
        unfold substr.
        replace (String.length (ReferenceIndex.sequence index) <? s - 1) with false
          by (symmetry; apply Nat.ltb_ge; lia).
        cbn [bind]. apply fill_variant_returned; rewrite ?Halleles; auto.
        now rewrite length_map.
      * apply fill_variant_returned; rewrite ?Halleles; auto.
  - intros Hallele. unfold locus_to_variant. now rewrite Hallele.
  - intros others Hallele. unfold locus_to_variant. now rewrite Hallele.
  - intros m first others s e Hallele Hint Hlt.
    unfold locus_to_variant. rewrite Hallele. unfold reference_interval in Hint.
    destruct (find Z.compare (node (start site)) (ReferenceIndex.byId index))
      as [fa|]; [|discriminate].
    destruct (find Z.compare (node (end_ site)) (ReferenceIndex.byId index))
      as [la|]; [|discriminate].
    inversion Hint; subst s e. unfold assert.
    replace (fst fa + String.length (node_sequence g (node (start site)))
             <=? fst la) with false
      by (symmetry; apply Nat.leb_gt; lia).
    reflexivity.
Qed.

Lemma bubble_on_reference id :
  In id [1; 2; 4]%Z -> on_reference_path bubble_graph "ref" id.
Proof.
  intros H. exists (mk_ranked id false
                      (if (id =? 1)%Z then 1 else if (id =? 2)%Z then 2 else 3)).
  split; [|reflexivity].
  destruct H as [<-|[<-|[<-|[]]]]; simpl; auto.
Qed.

Lemma node_3_off_reference : ~ on_reference_path bubble_graph "ref" 3%Z.
Proof.
  intros (m & Hin & Hm). simpl in Hin.
  destruct Hin as [<-|[<-|[<-|[]]]]; discriminate.
Qed.

Lemma locus_to_variant_reference_witness :
  build_reference_index bubble_graph "ref" = Returned bubble_index /\
  locus_to_variant bubble_graph off_reference_site bubble_index bubble_locus
  = Returned [] /\
  (exists v,
     locus_to_variant bubble_graph bubble_site bubble_index bubble_locus
     = Returned [v]) /\
  locus_to_variant bubble_graph bubble_site bubble_index empty_locus
  = Thrown "Can't turn an empty genotype into VCF" /\
  locus_to_variant bubble_graph bubble_site bubble_index hollow_locus
  = Thrown "Can't turn an empty allele into VCF" /\
  locus_to_variant bubble_graph backward_site bubble_index backward_locus
  = AssertionFailed.
Proof.
  assert (H : build_reference_index bubble_graph "ref" = Returned bubble_index)
    by reflexivity.
  split; [exact H|]. split; [|split; [|split; [|split]]].
  - destruct (@locus_to_variant_reference bubble_graph off_reference_site "ref"
                bubble_index bubble_locus H) as [HA _].
    apply (HA (mk_mapping 1 false) [mk_mapping 2 false; mk_mapping 4 false]
              [path_from_node_traversals [fwd 1; fwd 3; fwd 4]]).
    + reflexivity.
    + left. exact node_3_off_reference.
  - destruct (@locus_to_variant_reference bubble_graph bubble_site "ref"
                bubble_index bubble_locus H) as (_ & HB & _).
    apply HB.
    + apply bubble_on_reference. simpl. auto.
    + apply bubble_on_reference. simpl. auto.
    + split; [|split; [|split]].
      * exists 1, 2. split; [reflexivity|]. simpl. lia.
      * repeat constructor; discriminate.
      * discriminate.
      * repeat constructor; eexists; eexists; (split; [reflexivity|]); simpl; lia.
  - destruct (@locus_to_variant_reference bubble_graph bubble_site "ref"
                bubble_index empty_locus H) as (_ & _ & HC & _).
    apply HC. reflexivity.
  - destruct (@locus_to_variant_reference bubble_graph bubble_site "ref"
                bubble_index hollow_locus H) as (_ & _ & _ & HD & _).
    apply (HD []). reflexivity.
  - destruct (@locus_to_variant_reference bubble_graph backward_site "ref"
                bubble_index backward_locus H) as (_ & _ & _ & _ & HE).
    apply (HE (mk_mapping 4 false) [mk_mapping 1 false] [] 3 0).
    + reflexivity.
    + reflexivity.
    + lia.
Defined.

(** C9, as stated, fails in both of its parts.  With the site off the
    reference, the emitter throws for a Locus without alleles, where the
    claim has it return an empty list; and for [backward_site], whose two
    nodes are on the reference path but whose end comes before its start
    there, the assertion on the reference interval fails, where the claim
    has it return a record for a Locus with an allele and a genotype. *)
Lemma emitter_throws_or_fails_assertion :
  build_reference_index bubble_graph "ref" = Returned bubble_index /\
  (~ on_reference_path bubble_graph "ref" (node (start off_reference_site)) /\
   locus_to_variant bubble_graph off_reference_site bubble_index empty_locus
   = Thrown "Can't turn an empty genotype into VCF") /\
  (on_reference_path bubble_graph "ref" (node (start backward_site)) /\
   on_reference_path bubble_graph "ref" (node (end_ backward_site)) /\
   Locus.allele backward_locus <> [] /\
   Locus.genotype backward_locus <> [] /\
   locus_to_variant bubble_graph backward_site bubble_index backward_locus
   = AssertionFailed).
Proof.
  split; [reflexivity|]. split.
  - split; [exact node_3_off_reference | reflexivity].
  - split; [apply bubble_on_reference; simpl; auto|].
    split; [apply bubble_on_reference; simpl; auto|].
    split; [discriminate|]. split; [discriminate | reflexivity].
Qed.

(* ================================================================= *)
(** ** Further properties of the allele enumerator *)

Lemma string_compare_refl (a : string) : String.compare a a = Eq.
Proof. now apply string_compare_eq. Qed.

Lemma strictly_increasing_NoDup (l : list string) :
  StronglySorted (fun a b => String.compare a b = Lt) l -> NoDup l.
Proof.
  induction 1 as [|a l Hs IH Hall]; constructor; auto.
  intros Hin. rewrite Forall_forall in Hall. apply Hall in Hin.
  rewrite string_compare_refl in Hin. discriminate.
Qed.

Lemma node_mapping_of_graph id ps name ptrs p :
  In (name, ptrs) (node_mapping_of id ps) -> In p ptrs ->
  In (ptr_name p, ptr_path p) ps.
Proof.
  induction ps as [|[n ms] ps IH]; simpl; [tauto|].
  destruct (positions_on id ms 0) as [|i0 ixs] eqn:E;
    [intros H Hp; right; now apply IH|].
  intros [H|H] Hp; [|right; now apply IH].
  inversion H; subst name ptrs.
  change (In p (map (fun i => {| ptr_name := n; ptr_path := ms; ptr_index := i |})
                    (i0 :: ixs))) in Hp.
  apply in_map_iff in Hp. destruct Hp as (i & <- & Hi). now left.
Qed.

Section EnumeratorInvariants.
Variables (self : Genotyper) (g : VG) (site : Site).

Lemma start_mappings_graph p :
  In p (start_mappings g site) -> In (ptr_name p, ptr_path p) (paths g).
Proof.
  unfold start_mappings.
  destruct (has_node_mapping g (node (start site))
            && has_node_mapping g (node (end_ site))); [|simpl; tauto].
  rewrite in_flat_map. intros ([name ptrs] & Hin & Hp). simpl in Hp.
  destruct (count _ _ _); [|simpl in Hp; tauto].
  eapply node_mapping_of_graph; eauto.
Qed.

Lemma walk_length dir expected steps : forall mapping acc s t seq,
  walk g site dir expected steps mapping acc s = Some (t, seq) ->
  List.length acc < List.length t <= List.length acc + steps.
Proof.
  induction steps as [|steps IH]; intros mapping acc s t seq; simpl;
    [discriminate|].
  destruct mapping as [p|]; [|discriminate].
  destruct (deref p) as [m|]; [|discriminate].
  destruct ((node_id m =? node (end_ site))%Z && Bool.eqb (is_reverse m) expected).
  - intros H; inversion H; subst. rewrite length_app. simpl. lia.
  - intros H. apply IH in H. rewrite length_app in H. simpl in H. lia.
Qed.

(** A walk reads consecutive mappings of the path it started on: upwards
    from the start mapping when it goes right, downwards when it goes
    left. *)
Lemma walk_follows_path dir expected steps : forall p acc s t seq,
  walk g site dir expected steps (Some p) acc s = Some (t, seq) ->
  forall k, k < List.length t - List.length acc ->
    exists m,
      nth_error (ptr_path p) (if dir then ptr_index p - k else ptr_index p + k)
      = Some m /\
      (dir = true -> k <= ptr_index p) /\
      nth_error t (List.length acc + k)
      = Some {| node := node_id m; backward := xorb (is_reverse m) dir |}.
Proof.
  induction steps as [|steps IH]; intros p acc s t seq; simpl; [discriminate|].
  destruct (deref p) as [m|] eqn:Hd; [|discriminate].
  set (tm := {| node := node_id m; backward := xorb (is_reverse m) dir |}).
  assert (Hhere : forall l, nth_error ((acc ++ [tm]) ++ l) (List.length acc + 0)
                            = Some tm).
  { intros l. rewrite <- app_assoc, Nat.add_0_r, nth_error_app2 by lia.
    now rewrite Nat.sub_diag. }
  assert (Hm : nth_error (ptr_path p)
                 (if dir then ptr_index p - 0 else ptr_index p + 0) = Some m).
  { unfold deref in Hd. now destruct dir; rewrite ?Nat.sub_0_r, ?Nat.add_0_r. }
  destruct ((node_id m =? node (end_ site))%Z && Bool.eqb (is_reverse m) expected).
  - intros H; inversion H; subst t seq. rewrite length_app; simpl.
    intros k Hk. assert (k = 0) by lia; subst k.
    exists m. repeat split; auto; [lia|]. specialize (Hhere []).
    now rewrite app_nil_r in Hhere.
  - intros H k Hk.
    assert (Hshape := H). apply walk_shape in Hshape.
    destruct Hshape as (l & Ht & _).
    destruct k as [|k].
    + exists m. repeat split; auto; [lia|]. rewrite Ht. apply Hhere.
    + destruct dir.
      * unfold traverse_left in H. destruct (ptr_index p) as [|i] eqn:Hi.
        { destruct steps; discriminate. }
        apply IH with (k := k) in H; [|rewrite length_app; simpl; lia].
        simpl in H. destruct H as (m' & Hn & Hle & Hnth).
        exists m'. rewrite length_app in Hnth; simpl in Hnth.
        repeat split.
        { replace (S i - S k) with (i - k) by lia. exact Hn. }
        { intros _. specialize (Hle eq_refl). lia. }
        { replace (List.length acc + S k) with (List.length acc + 1 + k) by lia.
          exact Hnth. }
      * unfold traverse_right in H.
        destruct (S (ptr_index p) <? List.length (ptr_path p)).
        2:{ destruct steps; discriminate. }
        apply IH with (k := k) in H; [|rewrite length_app; simpl; lia].
        simpl in H. destruct H as (m' & Hn & Hle & Hnth).
        exists m'. rewrite length_app in Hnth; simpl in Hnth.
        repeat split.
        { replace (ptr_index p + S k) with (S (ptr_index p + k)) by lia. exact Hn. }
        { discriminate. }
        { replace (List.length acc + S k) with (List.length acc + 1 + k) by lia.
          exact Hnth. }
Qed.

(** Every binding of the result map comes from a walk that spells its
    key. *)
Lemma results_entries order seq t n :
  In (seq, (t, n)) (fold_left (visit_mapping self g site) order []) ->
  In (t, seq) (completed_walks self g site order) /\
  n = occurrences seq (completed_walks self g site order).
Proof.
  rewrite fold_visit_mapping. intros Hin.
  apply ssorted_In_find in Hin; [|apply fold_record_sorted; constructor].
  rewrite fold_record_find in Hin. simpl in Hin.
  destruct (first_traversal seq (completed_walks self g site order)) as [t1|] eqn:E;
    [|discriminate].
  inversion Hin; subst. split; auto. now apply first_traversal_In.
Qed.

Lemma collect_unique_sequences (results : results_t) :
  sorted String.compare results ->
  Forall (fun e => fst e = traversals_to_string g (fst (snd e))) results ->
  StronglySorted (fun a b => String.compare a b = Lt)
                 (map (traversals_to_string g) (collect_unique self results)).
Proof.
  unfold sorted. induction 1 as [|[seq [t n]] results Hs IH Hall];
    intros Hkeys; simpl; [constructor|].
  apply Forall_cons_iff in Hkeys. destruct Hkeys as [Hkey Hkeys].
  specialize (IH Hkeys). simpl in Hkey.
  destruct (n <? min_recurrence self)%Z; simpl; auto.
  constructor; auto.
  rewrite Forall_forall in *. intros s Hin.
  apply in_map_iff in Hin. destruct Hin as (t' & <- & Hin).
  unfold collect_unique in Hin. apply in_flat_map in Hin.
  destruct Hin as ([seq' [t'' n']] & Hin & Hout). simpl in Hout.
  destruct (n' <? min_recurrence self)%Z; simpl in Hout; [tauto|].
  destruct Hout as [->|[]].
  specialize (Hall _ Hin). specialize (Hkeys _ Hin).
  unfold key_lt in Hall. simpl in Hall, Hkeys. now rewrite <- Hkey, <- Hkeys.
Qed.

Lemma emitted_sequences_sorted order :
  StronglySorted (fun a b => String.compare a b = Lt)
    (map (traversals_to_string g) (get_paths_through_site_in self g site order)).
Proof.
  unfold get_paths_through_site_in. apply collect_unique_sequences.
  - rewrite fold_visit_mapping. apply fold_record_sorted. constructor.
  - rewrite Forall_forall. intros [seq [t n]] Hin. simpl.
    apply results_entries in Hin. destruct Hin as [Hin _].
    eapply completed_walk_spelling; eauto.
Qed.

(** X1. The alleles come out in strictly increasing order of the sequence
    they spell, so no two emitted alleles spell the same sequence,
    whatever the order in which the start mappings are visited. *)
Theorem emitted_sequences_increasing (order : list MappingPtr) :
  StronglySorted (fun a b => String.compare a b = Lt)
    (map (traversals_to_string g) (get_paths_through_site_in self g site order)) /\
  NoDup (map (traversals_to_string g) (get_paths_through_site_in self g site order)).
Proof.
  split; [|apply strictly_increasing_NoDup]; apply emitted_sequences_sorted.
Qed.

(** X2. An emitted allele has at least one and at most
    [max_path_search_steps] traversals; with a step limit of 0 nothing is
    emitted. *)
Theorem emitted_allele_length (order : list MappingPtr) :
  Forall (fun allele : list NodeTraversal =>
            1 <= List.length allele <= max_path_search_steps self)
         (get_paths_through_site_in self g site order).
Proof.
  rewrite Forall_forall. intros allele Hin.
  apply emitted_iff in Hin. destruct Hin as (seq & Hfirst & _).
  apply first_traversal_In, completed_walk_origin in Hfirst.
  destruct Hfirst as (p & _ & Hw). unfold walk_from in Hw.
  destruct (deref p); [|discriminate].
  apply walk_length in Hw. simpl in Hw. lia.
Qed.

(** X4. Every allele emitted for a site is read off one embedded path of
    the graph: it is a run of consecutive mappings of that path, taken
    upwards (walking right) or downwards (walking left) from a mapping
    [i], each traversal being the node of its mapping, in the mapping's
    orientation when walking right and flipped when walking left. *)
Theorem emitted_allele_follows_path (allele : list NodeTraversal) :
  In allele (get_paths_through_site self g site) ->
  exists (name : string) (ms : list Mapping) (i : nat) (dir : bool),
    In (name, ms) (paths g) /\
    forall k, k < List.length allele ->
      exists m,
        nth_error ms (if dir then i - k else i + k) = Some m /\
        (dir = true -> k <= i) /\
        nth_error allele k
        = Some {| node := node_id m; backward := xorb (is_reverse m) dir |}.
Proof.
  unfold get_paths_through_site. intros Hin.
  apply emitted_iff in Hin. destruct Hin as (seq & Hfirst & _).
  apply first_traversal_In, completed_walk_origin in Hfirst.
  destruct Hfirst as (p & Hp & Hw). unfold walk_from in Hw.
  destruct (deref p) as [m0|]; [|discriminate].
  exists (ptr_name p), (ptr_path p), (ptr_index p),
         (xorb (is_reverse m0) (backward (start site))).
  split; [now apply start_mappings_graph|].
  intros k Hk.
  eapply walk_follows_path with (k := k) in Hw; [|simpl; lia].
  exact Hw.
Qed.
End EnumeratorInvariants.

Lemma completed_walks_steps self1 self2 g site order :
  max_path_search_steps self1 = max_path_search_steps self2 ->
  completed_walks self1 g site order = completed_walks self2 g site order.
Proof.
  intros Hsteps. unfold completed_walks, walk_from. now rewrite Hsteps.
Qed.

(** X3. Raising [min_recurrence] (the step limit unchanged) only removes
    alleles: every allele emitted under the higher threshold is emitted
    under the lower one. *)
Theorem raising_min_recurrence_removes_alleles
    (self1 self2 : Genotyper) (g : VG) (site : Site) (order : list MappingPtr) :
  max_path_search_steps self1 = max_path_search_steps self2 ->
  (min_recurrence self1 <= min_recurrence self2)%Z ->
  incl (get_paths_through_site_in self2 g site order)
       (get_paths_through_site_in self1 g site order).
Proof.
  intros Hsteps Hmin allele Hin.
  apply emitted_iff in Hin. apply emitted_iff.
  rewrite (completed_walks_steps self1 self2 g site order Hsteps).
  destruct Hin as (seq & Hfirst & Hcount). exists seq. split; auto. lia.
Qed.

Lemma raising_min_recurrence_removes_alleles_witness :
  max_path_search_steps (settings 100 1) = max_path_search_steps (settings 100 2) /\
  (min_recurrence (settings 100 1) <= min_recurrence (settings 100 2))%Z /\
  incl (get_paths_through_site (settings 100 2) bubble_graph bubble_site)
       (get_paths_through_site (settings 100 1) bubble_graph bubble_site).
Proof.
  split; [reflexivity|]. split; [simpl; lia|].
  apply (@raising_min_recurrence_removes_alleles
           (settings 100 1) (settings 100 2) bubble_graph bubble_site
           (start_mappings bubble_graph bubble_site));
    [reflexivity | simpl; lia].
Defined.

Lemma emitted_allele_follows_path_witness :
  In [fwd 1; fwd 3; fwd 4]
     (get_paths_through_site (settings 100 1) bubble_graph bubble_site) /\
  exists (name : string) (ms : list Mapping) (i : nat) (dir : bool),
    In (name, ms) (paths bubble_graph) /\
    forall k, k < List.length [fwd 1; fwd 3; fwd 4] ->
      exists m,
        nth_error ms (if dir then i - k else i + k) = Some m /\
        (dir = true -> k <= i) /\
        nth_error [fwd 1; fwd 3; fwd 4] k
        = Some {| node := node_id m; backward := xorb (is_reverse m) dir |}.
Proof.
  assert (H : In [fwd 1; fwd 3; fwd 4]
                 (get_paths_through_site (settings 100 1) bubble_graph bubble_site)).
  { simpl. auto. }
  split; [exact H|].
  exact (@emitted_allele_follows_path (settings 100 1) bubble_graph bubble_site
           [fwd 1; fwd 3; fwd 4] H).
Defined.

(* ================================================================= *)
(** ** Further properties of the fast affinity scorer *)

Section OrdMapKeys.
Variables (K V : Type) (cmp : K -> K -> comparison).
Hypothesis cmp_eq : forall a b, cmp a b = Eq <-> a = b.

Lemma keys_insert n k (v : V) (m : list (K * V)) :
  In n (keys (insert cmp k v m)) <-> n = k \/ In n (keys m).
Proof.
  induction m as [|[k' v'] m IH]; simpl.
  - intuition.
  - destruct (cmp k k') eqn:E; simpl.
    + apply cmp_eq in E. subst k'. intuition.
    + intuition.
    + rewrite IH. intuition.
Qed.

Lemma count_keys k (m : list (K * V)) :
  count cmp k m = true <-> In k (keys m).
Proof.
  unfold count. induction m as [|[k' v'] m IH]; simpl.
  - split; [discriminate | tauto].
  - destruct (cmp k k') eqn:E.
    + apply cmp_eq in E. subst k'. tauto.
    + rewrite IH. split; auto. intros [H|H]; auto.
      subst k'. assert (cmp k k = Eq) by now apply cmp_eq. congruence.
    + rewrite IH. split; auto. intros [H|H]; auto.
      subst k'. assert (cmp k k = Eq) by now apply cmp_eq. congruence.
Qed.
End OrdMapKeys.

Lemma skeys_insert (V : Type) (n k : string) (v : V) (m : list (string * V)) :
  In n (keys (insert String.compare k v m)) <-> n = k \/ In n (keys m).
Proof. apply keys_insert, string_compare_eq. Qed.

Lemma zkeys_insert (V : Type) (n k : Z) (v : V) (m : list (Z * V)) :
  In n (keys (insert Z.compare k v m)) <-> n = k \/ In n (keys m).
Proof. apply keys_insert, Z_compare_eq. Qed.

Lemma positions_on_visits id ms : forall k,
  positions_on id ms k <> [] <-> visits ms id.
Proof.
  unfold visits. induction ms as [|m0 ms IH]; intros k; simpl.
  - split; [congruence | intros (m & [] & _)].
  - destruct (node_id m0 =? id)%Z eqn:E.
    + split; [|discriminate]. intros _. exists m0. apply Z.eqb_eq in E. auto.
    + rewrite IH. apply Z.eqb_neq in E. split.
      * intros (m & Hin & Hid). eauto.
      * intros (m & [->|Hin] & Hid); [congruence | eauto].
Qed.

(** The path index lists, for a node, the names of the paths that visit
    it. *)
Lemma node_mapping_of_names id ps n :
  In n (map fst (node_mapping_of id ps)) <->
  exists ms, In (n, ms) ps /\ visits ms id.
Proof.
  induction ps as [|[name ms] ps IH]; simpl.
  - split; [tauto | intros (ms & [] & _)].
  - assert (Hv := positions_on_visits id ms 0).
    destruct (positions_on id ms 0) as [|i0 ixs]; simpl.
    + rewrite IH. split.
      * intros (ms' & Hin & Hvis). eauto.
      * intros (ms' & [H|Hin] & Hvis); [|eauto].
        inversion H; subst. apply Hv in Hvis. congruence.
    + rewrite IH. split.
      * intros [->|(ms' & Hin & Hvis)]; [|eauto].
        exists ms. split; auto. apply Hv. discriminate.
      * intros (ms' & [H|Hin] & Hvis); [inversion H; auto | eauto].
Qed.

Lemma affinity_for_unanchored site trav seq base path_seq a :
  ~ starts_at (start site) trav -> ~ ends_at (end_ site) trav ->
  affinity_for site trav seq base path_seq = Some a ->
  Affinity.consistent a = Affinity.consistent base /\
  Affinity.affinity a = (if Affinity.consistent base then 1 else 0)%R.
Proof.
  unfold affinity_for. destruct trav as [|front rest]; [discriminate|].
  rewrite (starts_at_front (start site) front rest).
  rewrite (ends_at_back (end_ site) front rest).
  intros Hs He.
  destruct (nt_eqb front (start site)); [congruence|].
  destruct (nt_eqb (last (front :: rest) front) (end_ site)); [congruence|].
  cbn [andb]. intros H; inversion H; subst a; simpl. auto.
Qed.

Lemma nt_reverse_involutive t : nt_reverse (nt_reverse t) = t.
Proof. destruct t as [n b]. unfold nt_reverse; simpl. now rewrite negb_involutive. Qed.

Lemma Forall2_nth_error_r (A B : Type) (P : A -> B -> Prop) l l' :
  Forall2 P l l' -> forall i b, nth_error l' i = Some b ->
  exists a, nth_error l i = Some a /\ P a b.
Proof.
  induction 1 as [|x y l l' Hxy _ IH]; intros [|i] b Hi; simpl in *;
    try discriminate.
  - inversion Hi; subst. eauto.
  - now apply IH.
Qed.

Section ScorerInvariants.
Variable g : VG.
Variable reads_by_name : list (string * nat).
Variable alignments : list Alignment.
Variable site : Site.

(** X5. The reads the scorer looks at are exactly the names that are keys
    of [reads_by_name] and name a path of the graph with a mapping on a
    node of the site. *)
Theorem relevant_read_names_spec (read_name : string) :
  In read_name (keys (relevant_read_names g reads_by_name site)) <->
  count String.compare read_name reads_by_name = true /\
  exists id ms, In id (contents site) /\ In (read_name, ms) (paths g) /\
                visits ms id.
Proof.
  unfold relevant_read_names.
  assert (Hinner : forall l names n,
            In n (keys (fold_left
               (fun names (name_and_mappings : string * list MappingPtr) =>
                  if count String.compare (fst name_and_mappings) reads_by_name
                  then insert String.compare (fst name_and_mappings) tt names
                  else names) l names)) <->
            In n (keys names) \/
            (count String.compare n reads_by_name = true /\ In n (map fst l))).
  { induction l as [|x l IH]; intros names n; simpl; [tauto|].
    rewrite IH. destruct (count String.compare (fst x) reads_by_name) eqn:E.
    - rewrite skeys_insert. split.
      + intros [[->|H]|[H1 H2]]; auto.
      + intros [H|[H1 [H2|H2]]]; auto.
    - split.
      + intros [H|[H1 H2]]; auto.
      + intros [H|[H1 [H2|H2]]]; auto. congruence. }
  assert (Houter : forall ids names n,
            In n (keys (fold_left
               (fun names id =>
                  fold_left
                    (fun names (name_and_mappings : string * list MappingPtr) =>
                       if count String.compare (fst name_and_mappings) reads_by_name
                       then insert String.compare (fst name_and_mappings) tt names
                       else names) (get_node_mapping g id) names) ids names)) <->
            In n (keys names) \/
            (count String.compare n reads_by_name = true /\
             exists id, In id ids /\ In n (map fst (get_node_mapping g id)))).
  { induction ids as [|id ids IH]; intros names n; simpl.
    - split; auto. intros [H|[_ (id & [] & _)]]; auto.
    - rewrite IH, Hinner. split.
      + intros [[H|[H1 H2]]|[H1 (id' & H2 & H3)]]; eauto 6.
      + intros [H|[H1 (id' & [->|H2] & H3)]]; eauto 6. }
  rewrite Houter. simpl. split.
  - intros [[]|[Hc (id & Hid & Hn)]]. split; auto.
    apply node_mapping_of_names in Hn. destruct Hn as (ms & Hin & Hv). eauto.
  - intros [Hc (id & ms & Hid & Hin & Hv)]. right. split; auto.
    exists id. split; auto. apply node_mapping_of_names. eauto.
Qed.

(** X6. A read whose turned traversal of the site neither starts at the
    site's start nor ends at its end comes out of the fast scorer with
    every affinity inconsistent and of weight 0: it supports no allele. *)
Theorem unanchored_read_supports_nothing
    (superbubble_paths : list (list NodeTraversal))
    (to_return : list (nat * list Affinity)) (read : nat)
    (affs : list Affinity) (alignment : Alignment) :
  distinct_reads reads_by_name ->
  get_affinities_fast g reads_by_name alignments site superbubble_paths
  = Some to_return ->
  In (read, affs) to_return ->
  nth_error alignments read = Some alignment ->
  ~ starts_at (start site)
      (canonical_traversal site (get_traversal_of_site g site (path alignment))) ->
  ~ ends_at (end_ site)
      (canonical_traversal site (get_traversal_of_site g site (path alignment))) ->
  Forall (fun a => Affinity.consistent a = false /\ Affinity.affinity a = 0%R) affs.
Proof.
  intros Hd H Hin Ha Hs He.
  destruct (@get_affinities_fast_scored _ _ _ _ Hd _ _ _ _ H Hin)
    as (read_name & alignment' & _ & Ha' & _ & Hall).
  rewrite Ha in Ha'. inversion Ha'; subst alignment'. clear Ha'.
  clear H Hin. revert Hall.
  generalize (map (traversals_to_string g) superbubble_paths).
  intros strs Hall. induction Hall as [|s a strs affs Haff _ IH]; constructor; auto.
  apply (@affinity_for_unanchored _ _ _ _ _ _ Hs He) in Haff. exact Haff.
Qed.

(** X7. A read whose traversal of the site is the start traversal alone
    (the start and the end of the site being different) comes out of the
    fast scorer forward and consistent, with weight 1, with every allele
    that begins with the start traversal.  When the end of the site is
    the reverse of its start, the read counts as going backward and is
    turned around: it comes out reverse and consistent, with weight 1,
    with every allele that ends with the end traversal. *)
Theorem start_only_read_supports_every_allele
    (superbubble_paths : list (list NodeTraversal))
    (to_return : list (nat * list Affinity)) (read : nat)
    (affs : list Affinity) (alignment : Alignment) :
  distinct_reads reads_by_name ->
  get_affinities_fast g reads_by_name alignments site superbubble_paths
  = Some to_return ->
  In (read, affs) to_return ->
  nth_error alignments read = Some alignment ->
  get_traversal_of_site g site (path alignment) = [start site] ->
  start site <> end_ site ->
  Forall2 (fun allele a =>
             (start site <> nt_reverse (end_ site) ->
              starts_at (start site) allele ->
              Affinity.consistent a = true /\ Affinity.affinity a = 1%R /\
              Affinity.is_reverse a = false) /\
             (start site = nt_reverse (end_ site) ->
              ends_at (end_ site) allele ->
              Affinity.consistent a = true /\ Affinity.affinity a = 1%R /\
              Affinity.is_reverse a = true))
          superbubble_paths affs.
Proof.
  intros Hd H Hin Ha Ht Hne.
  destruct (@get_affinities_fast_scored _ _ _ _ Hd _ _ _ _ H Hin)
    as (read_name & alignment' & _ & Ha' & _ & Hall).
  rewrite Ha in Ha'. inversion Ha'; subst alignment'. clear Ha'.
  rewrite Ht in Hall.
  assert (Hself : nt_eqb (start site) (nt_reverse (start site)) = false).
  { destruct (nt_eqb (start site) (nt_reverse (start site))) eqn:E; auto.
    apply nt_eqb_eq in E. destruct (start site) as [n b].
    unfold nt_reverse in E; simpl in E. inversion E. now destruct b. }
  apply Forall2_map_left in Hall. revert Hall. apply Forall2_impl.
  intros allele a Haff. split.
  - intros Hnr [rest ->].
    assert (Hfwd : traversed_backward site [start site] = false).
    { unfold traversed_backward. cbn [last]. rewrite Hself, orb_false_r.
      destruct (nt_eqb (start site) (nt_reverse (end_ site))) eqn:E; auto.
      apply nt_eqb_eq in E. congruence. }
    unfold canonical_traversal in Haff. rewrite Hfwd in Haff.
    apply affinity_for_spec in Haff.
    destruct Haff as (_ & Hprefix & _ & Hweight & Hrev).
    assert (Hc : Affinity.consistent a = true).
    { apply Hprefix.
      - split; [now exists []|]. intros [init Hinit].
        destruct init as [|x [|y init]]; simpl in Hinit; inversion Hinit; auto.
      - exists (traversals_to_string g rest). simpl.
        now rewrite string_app_nil_r. }
    split; auto. split; [now rewrite Hweight, Hc | exact Hrev].
  - intros Hr [init ->].
    assert (Hbwd : traversed_backward site [start site] = true).
    { unfold traversed_backward. cbn [last]. apply orb_true_iff. left.
      now apply nt_eqb_eq. }
    assert (Hturn : map nt_reverse (rev [start site]) = [end_ site]).
    { cbn [rev app map]. rewrite Hr at 1. now rewrite nt_reverse_involutive. }
    unfold canonical_traversal in Haff. rewrite Hbwd, Hturn in Haff.
    apply affinity_for_spec in Haff.
    destruct Haff as (_ & _ & Hsuffix & Hweight & Hrev).
    assert (Hc : Affinity.consistent a = true).
    { apply Hsuffix.
      - split; [|now exists []]. intros [rest Hrest]. inversion Hrest. congruence.
      - exists (traversals_to_string g init). apply traversals_to_string_app. }
    split; auto. split; [now rewrite Hweight, Hc | exact Hrev].
Qed.

(** X8. A read that goes through the site from its start to its end is
    consistent with at most one of the alleles the enumerator emits: the
    alleles spell different sequences, and the read has to spell the
    allele exactly. *)
Theorem spanning_read_supports_one_allele
    (self : Genotyper) (order : list MappingPtr)
    (to_return : list (nat * list Affinity)) (read : nat)
    (affs : list Affinity) (alignment : Alignment) :
  distinct_reads reads_by_name ->
  get_affinities_fast g reads_by_name alignments site
    (get_paths_through_site_in self g site order) = Some to_return ->
  In (read, affs) to_return ->
  nth_error alignments read = Some alignment ->
  starts_at (start site)
    (canonical_traversal site (get_traversal_of_site g site (path alignment))) ->
  ends_at (end_ site)
    (canonical_traversal site (get_traversal_of_site g site (path alignment))) ->
  forall i j a b,
    nth_error affs i = Some a -> nth_error affs j = Some b ->
    Affinity.consistent a = true -> Affinity.consistent b = true ->
    i = j.
Proof.
  intros Hd H Hin Ha Hs He i j a b Hi Hj Hca Hcb.
  destruct (@get_affinities_fast_scored _ _ _ _ Hd _ _ _ _ H Hin)
    as (read_name & alignment' & _ & Ha' & _ & Hall).
  rewrite Ha in Ha'. inversion Ha'; subst alignment'. clear Ha'.
  destruct (Forall2_nth_error_r Hall _ Hi) as (si & Hsi & Hai).
  destruct (Forall2_nth_error_r Hall _ Hj) as (sj & Hsj & Haj).
  apply affinity_for_spec in Hai. destruct Hai as (Hei & _).
  apply affinity_for_spec in Haj. destruct Haj as (Hej & _).
  rewrite (Hei (conj Hs He)) in Hca. rewrite (Hej (conj Hs He)) in Hcb.
  apply String.eqb_eq in Hca, Hcb.
  assert (Hnd := strictly_increasing_NoDup (emitted_sequences_sorted self g site order)).
  rewrite NoDup_nth_error in Hnd. apply Hnd.
  - apply nth_error_Some. congruence.
  - congruence.
Qed.
End ScorerInvariants.

(** X9. A read found to go through the site backward is anchored once it
    is turned around: its turned traversal starts at the site's start or
    ends at the site's end. *)
Theorem turned_read_is_anchored (site : Site) (read_traversal : list NodeTraversal) :
  traversed_backward site read_traversal = true ->
  starts_at (start site) (canonical_traversal site read_traversal) \/
  ends_at (end_ site) (canonical_traversal site read_traversal).
Proof.
  intros Hb. unfold canonical_traversal. rewrite Hb.
  unfold traversed_backward in Hb.
  destruct read_traversal as [|front rest]; [discriminate|].
  apply orb_true_iff in Hb. destruct Hb as [Hb|Hb]; apply nt_eqb_eq in Hb.
  - right. exists (map nt_reverse (rev rest)). simpl.
    rewrite map_app. simpl. now rewrite Hb, nt_reverse_involutive.
  - left. destruct (exists_last (l := front :: rest)) as (init & x & Hl);
      [discriminate|].
    rewrite Hl in Hb |- *. rewrite last_last in Hb. subst x.
    rewrite rev_app_distr. simpl. rewrite nt_reverse_involutive.
    now exists (map nt_reverse (rev init)).
Qed.

Lemma unanchored_read_supports_nothing_witness :
  distinct_reads (build_reads_by_name overrun_reads) /\
  get_affinities_fast overrun_graph (build_reads_by_name overrun_reads) overrun_reads
    overrun_site bubble_alleles
  = Some overrun_to_return /\
  In (3, [mk_affinity false false; mk_affinity false false]) overrun_to_return /\
  nth_error overrun_reads 3 = Some (mk_read "read4" [mk_mapping 3 false]) /\
  ~ starts_at (start overrun_site)
      (canonical_traversal overrun_site
         (get_traversal_of_site overrun_graph overrun_site [mk_mapping 3 false])) /\
  ~ ends_at (end_ overrun_site)
      (canonical_traversal overrun_site
         (get_traversal_of_site overrun_graph overrun_site [mk_mapping 3 false])) /\
  Forall (fun a => Affinity.consistent a = false /\ Affinity.affinity a = 0%R)
         [mk_affinity false false; mk_affinity false false].
Proof.
  assert (H1 := build_reads_by_name_distinct overrun_reads).
  assert (H2 : get_affinities_fast overrun_graph (build_reads_by_name overrun_reads)
                 overrun_reads overrun_site bubble_alleles
               = Some overrun_to_return) by reflexivity.
  assert (H3 : In (3, [mk_affinity false false; mk_affinity false false])
                  overrun_to_return)
    by (simpl; right; right; right; left; reflexivity).
  assert (H4 : nth_error overrun_reads 3 = Some (mk_read "read4" [mk_mapping 3 false])) by reflexivity.
  assert (H5 : ~ starts_at (start overrun_site)
                   (canonical_traversal overrun_site
                      (get_traversal_of_site overrun_graph overrun_site
                         [mk_mapping 3 false]))).
  { intros [rest H]. discriminate H. }
  assert (H6 : ~ ends_at (end_ overrun_site)
                   (canonical_traversal overrun_site
                      (get_traversal_of_site overrun_graph overrun_site
                         [mk_mapping 3 false]))).
  { intros [init H]. destruct init as [|x [|y init]]; discriminate H. }
  repeat (split; [assumption|]).
  exact (@unanchored_read_supports_nothing overrun_graph
           (build_reads_by_name overrun_reads) overrun_reads overrun_site
           bubble_alleles overrun_to_return 3
           [mk_affinity false false; mk_affinity false false] (mk_read "read4" [mk_mapping 3 false])
           H1 H2 H3 H4 H5 H6).
Defined.

Lemma start_only_read_supports_every_allele_witness :
  distinct_reads (build_reads_by_name [anchor_read]) /\
  get_affinities_fast hairpin_graph (build_reads_by_name [anchor_read]) [anchor_read]
    hairpin_site [[fwd 1; fwd 2; rev_ 1]]
  = Some [(0, [mk_affinity true true])] /\
  In (0, [mk_affinity true true]) [(0, [mk_affinity true true])] /\
  nth_error [anchor_read] 0 = Some anchor_read /\
  get_traversal_of_site hairpin_graph hairpin_site (path anchor_read)
  = [start hairpin_site] /\
  start hairpin_site <> end_ hairpin_site /\
  Forall2 (fun allele a =>
             (start hairpin_site <> nt_reverse (end_ hairpin_site) ->
              starts_at (start hairpin_site) allele ->
              Affinity.consistent a = true /\ Affinity.affinity a = 1%R /\
              Affinity.is_reverse a = false) /\
             (start hairpin_site = nt_reverse (end_ hairpin_site) ->
              ends_at (end_ hairpin_site) allele ->
              Affinity.consistent a = true /\ Affinity.affinity a = 1%R /\
              Affinity.is_reverse a = true))
          [[fwd 1; fwd 2; rev_ 1]] [mk_affinity true true].
Proof.
  assert (H1 := build_reads_by_name_distinct [anchor_read]).
  assert (H2 : get_affinities_fast hairpin_graph (build_reads_by_name [anchor_read])
                 [anchor_read] hairpin_site [[fwd 1; fwd 2; rev_ 1]]
               = Some [(0, [mk_affinity true true])])
    by reflexivity.
  assert (H3 : In (0, [mk_affinity true true]) [(0, [mk_affinity true true])])
    by (left; reflexivity).
  assert (H4 : nth_error [anchor_read] 0 = Some anchor_read) by reflexivity.
  assert (H5 : get_traversal_of_site hairpin_graph hairpin_site (path anchor_read)
               = [start hairpin_site]) by reflexivity.
  assert (H6 : start hairpin_site <> end_ hairpin_site) by discriminate.
  repeat (split; [assumption|]).
  exact (@start_only_read_supports_every_allele hairpin_graph
           (build_reads_by_name [anchor_read]) [anchor_read] hairpin_site
           [[fwd 1; fwd 2; rev_ 1]] [(0, [mk_affinity true true])] 0
           [mk_affinity true true] anchor_read
           H1 H2 H3 H4 H5 H6).
Defined.

(** The same read on the site of the example, whose end is not the
    reverse of its start: forward and consistent with both alleles. *)
Example start_only_read_on_bubble :
  get_affinities_fast anchor_graph (build_reads_by_name [anchor_read]) [anchor_read]
    bubble_site bubble_alleles
  = Some [(0, [mk_affinity true false; mk_affinity true false])] /\
  get_traversal_of_site anchor_graph bubble_site (path anchor_read)
  = [start bubble_site] /\
  start bubble_site <> nt_reverse (end_ bubble_site).
Proof. repeat split. discriminate. Qed.

Lemma spanning_read_supports_one_allele_witness :
  distinct_reads (build_reads_by_name overrun_reads) /\
  get_affinities_fast overrun_graph (build_reads_by_name overrun_reads) overrun_reads
    overrun_site
    (get_paths_through_site_in (settings 100 1) overrun_graph overrun_site
       (start_mappings overrun_graph overrun_site))
  = Some overrun_to_return /\
  In (0, [mk_affinity false false; mk_affinity true false]) overrun_to_return /\
  nth_error overrun_reads 0
  = Some (mk_read "read1" [mk_mapping 1 false; mk_mapping 3 false; mk_mapping 4 false]) /\
  starts_at (start overrun_site)
    (canonical_traversal overrun_site
       (get_traversal_of_site overrun_graph overrun_site
          [mk_mapping 1 false; mk_mapping 3 false; mk_mapping 4 false])) /\
  ends_at (end_ overrun_site)
    (canonical_traversal overrun_site
       (get_traversal_of_site overrun_graph overrun_site
          [mk_mapping 1 false; mk_mapping 3 false; mk_mapping 4 false])) /\
  forall i j a b,
    nth_error [mk_affinity false false; mk_affinity true false] i = Some a ->
    nth_error [mk_affinity false false; mk_affinity true false] j = Some b ->
    Affinity.consistent a = true -> Affinity.consistent b = true ->
    i = j.
Proof.
  assert (H1 := build_reads_by_name_distinct overrun_reads).
  assert (H2 : get_affinities_fast overrun_graph (build_reads_by_name overrun_reads)
                 overrun_reads overrun_site
                 (get_paths_through_site_in (settings 100 1) overrun_graph overrun_site
                    (start_mappings overrun_graph overrun_site))
               = Some overrun_to_return) by reflexivity.
  assert (H3 : In (0, [mk_affinity false false; mk_affinity true false])
                  overrun_to_return) by (left; reflexivity).
  assert (H4 : nth_error overrun_reads 0
               = Some (mk_read "read1" [mk_mapping 1 false; mk_mapping 3 false;
                                        mk_mapping 4 false])) by reflexivity.
  assert (H5 : starts_at (start overrun_site)
                 (canonical_traversal overrun_site
                    (get_traversal_of_site overrun_graph overrun_site
                       [mk_mapping 1 false; mk_mapping 3 false; mk_mapping 4 false]))).
  { now exists [fwd 3; fwd 4]. }
  assert (H6 : ends_at (end_ overrun_site)
                 (canonical_traversal overrun_site
                    (get_traversal_of_site overrun_graph overrun_site
                       [mk_mapping 1 false; mk_mapping 3 false; mk_mapping 4 false]))).
  { now exists [fwd 1; fwd 3]. }
  repeat (split; [assumption|]).
  exact (@spanning_read_supports_one_allele overrun_graph
           (build_reads_by_name overrun_reads) overrun_reads overrun_site
           (settings 100 1) (start_mappings overrun_graph overrun_site)
           overrun_to_return 0 [mk_affinity false false; mk_affinity true false]
           (mk_read "read1" [mk_mapping 1 false; mk_mapping 3 false; mk_mapping 4 false])
           H1 H2 H3 H4 H5 H6).
Defined.

Lemma turned_read_is_anchored_witness :
  traversed_backward bubble_site [rev_ 4; rev_ 3; rev_ 1] = true /\
  (starts_at (start bubble_site)
     (canonical_traversal bubble_site [rev_ 4; rev_ 3; rev_ 1]) \/
   ends_at (end_ bubble_site)
     (canonical_traversal bubble_site [rev_ 4; rev_ 3; rev_ 1])).
Proof.
  split; [reflexivity|].
  apply (@turned_read_is_anchored bubble_site [rev_ 4; rev_ 3; rev_ 1]).
  reflexivity.
Defined.

(* ================================================================= *)
(** ** Further properties of the genotype likelihood *)

Lemma fold_left_add_bounds (lo hi : Z) (l : list Z) : forall acc,
  Forall (fun q => lo <= q <= hi)%Z l ->
  (acc + lo * Z.of_nat (List.length l) <= fold_left Z.add l acc
   <= acc + hi * Z.of_nat (List.length l))%Z.
Proof.
  induction l as [|q l IH]; intros acc Hall.
  - simpl. lia.
  - apply Forall_cons_iff in Hall. destruct Hall as [Hq Hall].
    specialize (IH (acc + q)%Z Hall). cbn [fold_left List.length].
    rewrite Nat2Z.inj_succ. nia.
Qed.

Lemma round_mean_bounds (lo hi total n : Z) :
  (0 < n)%Z -> (lo * n <= total <= hi * n)%Z ->
  (lo <= round_mean total n <= hi)%Z.
Proof.
  intros Hn Ht. unfold round_mean. destruct (0 <=? total)%Z.
  - split.
    + apply Z.div_le_lower_bound; nia.
    + apply Z.lt_succ_r. apply Z.div_lt_upper_bound; nia.
  - assert (H1 : (- hi <= (2 * - total + n) / (2 * n))%Z)
      by (apply Z.div_le_lower_bound; nia).
    assert (H2 : ((2 * - total + n) / (2 * n) < - lo + 1)%Z)
      by (apply Z.div_lt_upper_bound; nia).
    lia.
Qed.

(** X10. The quality score of a read that has base qualities lies
    between the smallest and the largest of them (a read without base
    qualities gets [default_sequence_quality]). *)
Theorem alignment_qual_score_range
    (self : Genotyper) (alignment : Alignment) (lo hi : Z) :
  quality alignment <> [] ->
  Forall (fun q => lo <= q <= hi)%Z (quality alignment) ->
  (lo <= alignment_qual_score self alignment <= hi)%Z.
Proof.
  intros Hne Hall. unfold alignment_qual_score.
  destruct (quality alignment) as [|q0 qs] eqn:E; [congruence|].
  apply round_mean_bounds.
  - simpl List.length. lia.
  - assert (H := @fold_left_add_bounds lo hi (q0 :: qs) 0%Z Hall). lia.
Qed.

Lemma alignment_qual_score_range_witness :
  quality qual_read <> [] /\
  Forall (fun q => 30 <= q <= 41)%Z (quality qual_read) /\
  (30 <= alignment_qual_score (settings 100 1) qual_read <= 41)%Z.
Proof.
  assert (H1 : quality qual_read <> []) by discriminate.
  assert (H2 : Forall (fun q => 30 <= q <= 41)%Z (quality qual_read)).
  { repeat constructor; simpl; lia. }
  split; [exact H1|]. split; [exact H2|].
  exact (@alignment_qual_score_range (settings 100 1) qual_read 30 41 H1 H2).
Defined.

Section LikelihoodInvariants.
Variable self : Genotyper.

Lemma count_consistent_throws consistency genotype : forall k counts,
  count_consistent consistency genotype k counts = None <->
  Exists (fun allele => at_ consistency allele = None) genotype.
Proof.
  induction genotype as [|allele genotype IH]; intros k counts; simpl.
  - split; [discriminate | intros H; inversion H].
  - rewrite Exists_cons. destruct (at_ consistency allele) as [a|] eqn:E.
    + destruct (Affinity.consistent a); rewrite IH; split; auto;
        intros [H|H]; auto; discriminate.
    + tauto.
Qed.

Lemma account_reads_throws genotype reads : forall state,
  account_reads self genotype state reads = None <->
  Exists (fun rc : Alignment * list Affinity =>
            Exists (fun allele => at_ (snd rc) allele = None) genotype) reads.
Proof.
  induction reads as [|[read consistency] reads IH]; intros [[w d] counts].
  - simpl. split; [discriminate | intros H; inversion H].
  - rewrite Exists_cons. cbn [account_reads account_read snd].
    rewrite <- (count_consistent_throws consistency genotype 0 counts).
    destruct (count_consistent consistency genotype 0 counts) as [[k c1]|].
    + destruct (k =? 0)%Z; rewrite IH; split; auto; intros [H|H]; auto;
        discriminate.
    + tauto.
Qed.

(** X11. The likelihood of a genotype throws exactly when some allele
    number of the genotype is out of range (negative, or not below the
    number of affinities) for some read; otherwise it returns a value. *)
Theorem genotype_log_likelihood_throws
    (genotype : list Z) (reads : list (Alignment * list Affinity)) :
  get_genotype_log_likelihood self genotype reads = None <->
  Exists (fun rc : Alignment * list Affinity =>
            Exists (fun allele =>
                      (allele < 0 \/ Z.of_nat (List.length (snd rc)) <= allele)%Z)
                   genotype) reads.
Proof.
  unfold get_genotype_log_likelihood, likelihood_loop.
  assert (Hat : forall (c : list Affinity) allele,
            at_ c allele = None
            <-> (allele < 0 \/ Z.of_nat (List.length c) <= allele)%Z).
  { intros c allele. unfold at_. destruct (Z.ltb_spec allele 0).
    - split; auto.
    - rewrite nth_error_None. lia. }
  transitivity (Exists (fun rc : Alignment * list Affinity =>
                  Exists (fun allele => at_ (snd rc) allele = None) genotype) reads).
  - rewrite <- (account_reads_throws genotype reads
                  (prob_to_logprob 1, prob_to_logprob 1, [])).
    destruct (account_reads self genotype _ reads) as [[[w d] c]|];
      split; congruence.
  - rewrite !Exists_exists. split; intros (rc & Hin & H); exists rc; split; auto;
      rewrite Exists_exists in *; destruct H as (a & Ha & H); exists a; split; auto;
      now apply Hat.
Qed.

Lemma zinsert_comm (V : Type) (k1 k2 : Z) (v1 v2 : V) (m : list (Z * V)) :
  k1 <> k2 ->
  insert Z.compare k1 v1 (insert Z.compare k2 v2 m)
  = insert Z.compare k2 v2 (insert Z.compare k1 v1 m).
Proof.
  intros Hne. induction m as [|[k v] m IH]; simpl.
  - destruct (Z.compare_spec k1 k2), (Z.compare_spec k2 k1); try lia; reflexivity.
  - destruct (Z.compare_spec k2 k), (Z.compare_spec k1 k); simpl;
      repeat (match goal with
              | |- context [Z.compare ?a ?b] =>
                  destruct (Z.compare_spec a b); try lia; simpl
              end);
      subst; try reflexivity; try lia.
    now rewrite IH.
Qed.

Lemma count_strand_comm r1 r2 i j counts :
  i <> j ->
  count_strand r1 i (count_strand r2 j counts)
  = count_strand r2 j (count_strand r1 i counts).
Proof.
  intros Hne. unfold count_strand.
  destruct (find Z.compare j counts) as [[fj rj]|] eqn:Ej;
    destruct (find Z.compare i counts) as [[fi ri]|] eqn:Ei;
    rewrite !zfind_insert_other, ?Ei, ?Ej by congruence;
    apply zinsert_comm; exact Hne.
Qed.

Lemma count_consistent_swap consistency i j k counts :
  count_consistent consistency [i; j] k counts
  = count_consistent consistency [j; i] k counts.
Proof.
  destruct (Z.eq_dec i j) as [->|Hne]; [reflexivity|]. simpl.
  destruct (at_ consistency i) as [ai|]; destruct (at_ consistency j) as [aj|];
    try reflexivity.
  - destruct (Affinity.consistent ai), (Affinity.consistent aj); try reflexivity.
    f_equal. f_equal. apply count_strand_comm. congruence.
  - now destruct (Affinity.consistent ai).
  - now destruct (Affinity.consistent aj).
Qed.

Lemma account_reads_swap i j reads : forall state,
  account_reads self [i; j] state reads = account_reads self [j; i] state reads.
Proof.
  induction reads as [|[read consistency] reads IH]; intros [[w d] counts];
    [reflexivity|].
  cbn [account_reads account_read]. rewrite (count_consistent_swap consistency i j).
  destruct (count_consistent consistency [j; i] 0 counts) as [[k c1]|]; auto.
  destruct (k =? 0)%Z; apply IH.
Qed.

(** X12. The likelihood of a genotype does not depend on the order of its
    two alleles: [(i, j)] and [(j, i)] get the same value, or both throw. *)
Theorem genotype_log_likelihood_symmetric
    (i j : Z) (reads : list (Alignment * list Affinity)) :
  get_genotype_log_likelihood self [i; j] reads
  = get_genotype_log_likelihood self [j; i] reads.
Proof.
  unfold get_genotype_log_likelihood, likelihood_loop.
  now rewrite account_reads_swap.
Qed.
End LikelihoodInvariants.

(* ================================================================= *)
(** ** Further properties of [genotype_site]: the supports *)

Lemma update_nth_spec (A : Type) (f : A -> A) (v : list A) : forall i v',
  update_nth i f v = Some v' ->
  List.length v' = List.length v /\
  forall a, nth_error v' a
            = if a =? i then option_map f (nth_error v a) else nth_error v a.
Proof.
  induction v as [|x v IH]; intros i v'; [destruct i; discriminate|].
  destruct i as [|i]; simpl.
  - intros H; inversion H; subst. split; auto. intros [|a]; reflexivity.
  - destruct (update_nth i f v) as [v1|] eqn:E; simpl; [|discriminate].
    intros H; inversion H; subst. destruct (IH _ _ E) as [Hlen Hnth].
    split; [simpl; congruence|]. intros [|a]; simpl; auto.
Qed.

Lemma count_supports_spec affs : forall i rc ss fw rv rc' ss' fw' rv',
  count_supports affs i (rc, ss, fw, rv) = Some (rc', ss', fw', rv') ->
  List.length ss' = List.length ss /\
  (forall a fr,
     nth_error ss a = Some fr ->
     nth_error ss' a
     = Some ((fst fr + bump ((i <=? a)%nat && supports_at (a - i)%nat false affs))%Z,
             (snd fr + bump ((i <=? a)%nat && supports_at (a - i)%nat true affs))%Z)) /\
  fw' = fw || existsb (affinity_supports false) affs /\
  rv' = rv || existsb (affinity_supports true) affs.
Proof.
  induction affs as [|af affs IH]; intros i rc ss fw rv rc' ss' fw' rv'.
  - simpl. intros H; inversion H; subst. split; auto. split.
    + assert (Hnil : forall k r, supports_at k r [] = false)
        by (intros [|k] r; reflexivity).
      intros a [f r] Ha. rewrite Ha, !Hnil, andb_false_r. simpl.
      now rewrite !Z.add_0_r.
    + now rewrite !orb_false_r.
  - cbn [count_supports existsb].
    assert (Hshift : forall a reverse, (S i <=? a) = true ->
              supports_at (a - i)%nat reverse (af :: affs)
              = supports_at (a - S i) reverse affs).
    { intros a reverse Ha. apply Nat.leb_le in Ha. unfold supports_at.
      replace (a - i) with (S (a - S i)) by lia. reflexivity. }
    assert (Hstep : forall rc1 ss1 fw1 rv1,
              List.length ss1 = List.length ss ->
              (forall a fr, nth_error ss a = Some fr ->
                 nth_error ss1 a
                 = Some (if a =? i
                         then ((fst fr + bump (affinity_supports false af))%Z,
                               (snd fr + bump (affinity_supports true af))%Z)
                         else fr)) ->
              fw1 = fw || affinity_supports false af ->
              rv1 = rv || affinity_supports true af ->
              count_supports affs (S i) (rc1, ss1, fw1, rv1)
              = Some (rc', ss', fw', rv') ->
              List.length ss' = List.length ss /\
              (forall a fr,
                 nth_error ss a = Some fr ->
                 nth_error ss' a
                 = Some ((fst fr + bump ((i <=? a)%nat
                                         && supports_at (a - i)%nat false (af :: affs)))%Z,
                         (snd fr + bump ((i <=? a)%nat
                                         && supports_at (a - i)%nat true (af :: affs)))%Z)) /\
              fw' = fw || (affinity_supports false af
                           || existsb (affinity_supports false) affs) /\
              rv' = rv || (affinity_supports true af
                           || existsb (affinity_supports true) affs)).
    { intros rc1 ss1 fw1 rv1 Hlen Hnth Hfw Hrv H.
      apply IH in H. destruct H as (Hlen' & Hnth' & -> & ->).
      split; [congruence|]. split; [|subst; now rewrite !orb_assoc].
      intros a fr Ha. rewrite (Hnth' a _ (Hnth a fr Ha)).
      destruct (Nat.eqb_spec a i) as [->|Hne].
      - replace (S i <=? i) with false by (symmetry; apply Nat.leb_gt; lia).
        rewrite Nat.leb_refl, Nat.sub_diag. unfold supports_at at 3 4.
        simpl. now rewrite !Z.add_0_r.
      - destruct (S i <=? a) eqn:E.
        + rewrite !Hshift by auto.
          replace (i <=? a) with true
            by (symmetry; apply Nat.leb_le; apply Nat.leb_le in E; lia).
          reflexivity.
        + replace (i <=? a) with false
            by (symmetry; apply Nat.leb_gt; apply Nat.leb_gt in E; lia).
          reflexivity. }
    unfold affinity_supports in Hstep |- *.
    destruct (Affinity.consistent af) eqn:Hc.
    + destruct (update_nth i Z.succ rc) as [rc1|]; [|discriminate].
      destruct (Affinity.is_reverse af) eqn:Hr.
      * destruct (update_nth i _ ss) as [ss1|] eqn:E; [|discriminate].
        apply update_nth_spec in E. destruct E as [Hlen Hnth].
        intros H. refine (Hstep _ _ _ _ Hlen _ _ _ H).
        -- intros a fr Ha. rewrite Hnth, Ha. simpl.
           destruct (a =? i); auto. destruct fr; simpl. now rewrite Z.add_0_r.
        -- simpl. now rewrite orb_false_r.
        -- simpl. now rewrite orb_true_r.
      * destruct (update_nth i _ ss) as [ss1|] eqn:E; [|discriminate].
        apply update_nth_spec in E. destruct E as [Hlen Hnth].
        intros H. refine (Hstep _ _ _ _ Hlen _ _ _ H).
        -- intros a fr Ha. rewrite Hnth, Ha. simpl.
           destruct (a =? i); auto. destruct fr; simpl. now rewrite Z.add_0_r.
        -- simpl. now rewrite orb_true_r.
        -- simpl. now rewrite orb_false_r.
    + intros H. refine (Hstep _ _ _ _ eq_refl _ _ _ H).
      * intros a fr Ha. rewrite Ha. simpl. destruct (a =? i); auto.
        destruct fr; simpl. now rewrite !Z.add_0_r.
      * simpl. now rewrite orb_false_r.
      * simpl. now rewrite orb_false_r.
Qed.

Lemma reads_supporting_cons a reverse x affinities :
  reads_supporting a reverse (x :: affinities)
  = (bump (supports_at a reverse (snd x)) + reads_supporting a reverse affinities)%Z.
Proof.
  unfold reads_supporting, bump. cbn [filter].
  destruct (supports_at a reverse (snd x)); cbn [List.length]; lia.
Qed.

Section GenotypeSiteSupports.
Variables (self : Genotyper) (site : Site).
Variable alignments : list Alignment.

Lemma tally_reads_spec affinities : forall state counted,
  tally_reads site alignments state affinities = Some counted ->
  List.length (strand_support_for_allele counted)
  = List.length (strand_support_for_allele state) /\
  (forall a fr,
     nth_error (strand_support_for_allele state) a = Some fr ->
     nth_error (strand_support_for_allele counted) a
     = Some ((fst fr + reads_supporting a false affinities)%Z,
             (snd fr + reads_supporting a true affinities)%Z)) /\
  overall_forward_reads counted
  = (overall_forward_reads state
     + Z.of_nat (List.length (filter (supports_some false) affinities)))%Z /\
  overall_reverse_reads counted
  = (overall_reverse_reads state
     + Z.of_nat (List.length
                   (filter (fun x => negb (supports_some false x)
                                     && supports_some true x) affinities)))%Z /\
  alignment_consistency counted
  = alignment_consistency state ++ trimmed_reads site alignments affinities.
Proof.
  induction affinities as [|[read affs] affinities IH]; intros state counted.
  - simpl. intros H; inversion H; subst. rewrite app_nil_r.
    repeat split; try lia.
    intros a [f r] Ha. rewrite Ha. unfold reads_supporting. simpl.
    now rewrite !Z.add_0_r.
  - cbn [tally_reads]. unfold tally_read. cbn [fst snd].
    destruct (nth_error alignments read) as [alignment|] eqn:Ea; [|discriminate].
    destruct (count_supports affs 0 _) as [[[[rc1 ss1] fw1] rv1]|] eqn:Ec;
      [|discriminate].
    apply count_supports_spec in Ec. destruct Ec as (Hlen & Hnth & -> & ->).
    intros H. apply IH in H. cbn [strand_support_for_allele overall_forward_reads
      overall_reverse_reads alignment_consistency] in H.
    destruct H as (Hlen' & Hnth' & Hfw & Hrv & Hac).
    split; [congruence|]. split; [|split; [|split]].
    + intros a fr Ha. rewrite (Hnth' a _ (Hnth a fr Ha)), !reads_supporting_cons.
      cbn [fst snd Nat.leb andb]. rewrite Nat.sub_0_r. f_equal. f_equal; lia.
    + rewrite Hfw. cbn [filter orb]. unfold supports_some at 2. cbn [snd].
      destruct (existsb (affinity_supports false) affs); cbn [List.length]; lia.
    + rewrite Hrv. cbn [filter orb]. unfold supports_some at 3 4. cbn [snd].
      destruct (existsb (affinity_supports false) affs);
        destruct (existsb (affinity_supports true) affs);
        cbn [negb andb List.length]; lia.
    + rewrite Hac, <- app_assoc. cbn [trimmed_reads flat_map fst snd app].
      rewrite Ea. reflexivity.
Qed.

(** X13. The Support of allele [a] in the Locus counts the reads whose
    affinity for [a] is consistent: forward those not marked reverse,
    reverse those marked reverse; there is one Support per allele. *)
Theorem genotype_site_allele_supports
    (superbubble_paths : list (list NodeTraversal))
    (affinities : list (nat * list Affinity)) (locus : Locus) :
  genotype_site self site alignments superbubble_paths affinities = Some locus ->
  List.length (Locus.support locus) = List.length superbubble_paths /\
  forall a s,
    nth_error (Locus.support locus) a = Some s ->
    Support.forward s = reads_supporting a false affinities /\
    Support.reverse s = reads_supporting a true affinities.
Proof.
  unfold genotype_site.
  destruct (tally_reads _ _ _ _) as [counted|] eqn:E; [|discriminate].
  destruct (map_option _ _) as [genotypes|]; [|discriminate].
  intros H; inversion H; subst; clear H. cbn [Locus.support].
  apply tally_reads_spec in E.
  cbn [strand_support_for_allele] in E. destruct E as (Hlen & Hnth & _).
  rewrite repeat_length in Hlen. split; [now rewrite length_map|].
  intros a s Ha. rewrite nth_error_map in Ha.
  destruct (nth_error (strand_support_for_allele counted) a) as [fr|] eqn:Efr;
    [|discriminate].
  inversion Ha; subst s; clear Ha. cbn [Support.forward Support.reverse].
  assert (Ha : a < List.length superbubble_paths).
  { rewrite <- Hlen. apply nth_error_Some. congruence. }
  rewrite (Hnth a (0, 0)%Z) in Efr by now apply nth_error_repeat.
  inversion Efr; subst fr. simpl. auto.
Qed.

Lemma filter_split_length (A : Type) (f h : A -> bool) (l : list A) :
  List.length (filter f l)
  + List.length (filter (fun x => negb (f x) && h x) l)
  = List.length (filter (fun x => f x || h x) l).
Proof.
  induction l as [|x l IH]; simpl; auto.
  destruct (f x), (h x); simpl; lia.
Qed.

(** X14. The overall Support of the Locus counts every read at most once:
    forward the reads that support some allele forward, reverse the reads
    that support some allele in reverse and none forward; together, the
    reads that support some allele. *)
Theorem genotype_site_overall_support
    (superbubble_paths : list (list NodeTraversal))
    (affinities : list (nat * list Affinity)) (locus : Locus) :
  genotype_site self site alignments superbubble_paths affinities = Some locus ->
  let overall := Locus.overall_support locus in
  Support.forward overall
  = Z.of_nat (List.length (filter (supports_some false) affinities)) /\
  Support.reverse overall
  = Z.of_nat (List.length
                (filter (fun x => negb (supports_some false x)
                                  && supports_some true x) affinities)) /\
  (Support.forward overall + Support.reverse overall
   = Z.of_nat (List.length
                 (filter (fun x => supports_some false x || supports_some true x)
                         affinities)))%Z /\
  (Support.forward overall + Support.reverse overall
   <= Z.of_nat (List.length affinities))%Z.
Proof.
  unfold genotype_site.
  destruct (tally_reads _ _ _ _) as [counted|] eqn:E; [|discriminate].
  destruct (map_option _ _) as [genotypes|]; [|discriminate].
  intros H; inversion H; subst; clear H.
  cbn [Locus.overall_support Support.forward Support.reverse].
  apply tally_reads_spec in E.
  cbn [overall_forward_reads overall_reverse_reads] in E.
  destruct E as (_ & _ & -> & -> & _).
  assert (Hsplit := filter_split_length (supports_some false) (supports_some true)
                      affinities).
  assert (Hle := filter_length_le
                   (fun x => supports_some false x || supports_some true x)
                   affinities).
  repeat split; lia.
Qed.

(** X15. Every genotype of the Locus carries the likelihood of its pair of
    allele numbers given the reads with their qualities cut down to the
    site, and the prior of that pair. *)
Theorem genotype_site_genotype_values
    (superbubble_paths : list (list NodeTraversal))
    (affinities : list (nat * list Affinity)) (locus : Locus) :
  genotype_site self site alignments superbubble_paths affinities = Some locus ->
  Forall (fun gt =>
            get_genotype_log_likelihood self (Genotype.allele gt)
              (trimmed_reads site alignments affinities)
            = Some (Genotype.log_likelihood gt) /\
            get_genotype_log_prior self (Genotype.allele gt)
            = Some (Genotype.log_prior gt))
         (Locus.genotype locus).
Proof.
  unfold genotype_site.
  destruct (tally_reads _ _ _ _) as [counted|] eqn:E; [|discriminate].
  destruct (map_option _ _) as [genotypes|] eqn:Eg; [|discriminate].
  intros H; inversion H; subst; clear H. cbn [Locus.genotype].
  apply tally_reads_spec in E. cbn [alignment_consistency] in E.
  destruct E as (_ & _ & _ & _ & Hac). simpl in Hac. rewrite Hac in Eg.
  apply map_option_Forall2 in Eg.
  rewrite Forall_forall. intros gt Hin.
  apply (Permutation_in _ (sort_by_Permutation posterior_gt genotypes)) in Hin.
  clear Hac. induction Eg as [|v gt' vs gts Hv _ IH]; [destruct Hin|].
  destruct Hin as [->|Hin]; auto.
  apply make_genotype_spec in Hv. destruct Hv as (-> & _ & Hl & Hp). auto.
Qed.
End GenotypeSiteSupports.

Lemma genotype_site_allele_supports_witness :
  exists locus,
    genotype_site (settings 100 2) bubble_site bubble_reads bubble_alleles
      bubble_affinities_by_read = Some locus /\
    List.length (Locus.support locus) = List.length bubble_alleles /\
    forall a s,
      nth_error (Locus.support locus) a = Some s ->
      Support.forward s = reads_supporting a false bubble_affinities_by_read /\
      Support.reverse s = reads_supporting a true bubble_affinities_by_read.
Proof.
  destruct (@genotype_site_defined (settings 100 2) bubble_site bubble_reads 2
              bubble_alleles bubble_affinities_by_read)
    as [locus H].
  - reflexivity.
  - repeat constructor.
  - exists locus. split; [exact H|].
    exact (@genotype_site_allele_supports (settings 100 2) bubble_site
             bubble_reads bubble_alleles bubble_affinities_by_read locus H).
Defined.

Lemma genotype_site_overall_support_witness :
  exists locus,
    genotype_site (settings 100 2) bubble_site bubble_reads bubble_alleles
      bubble_affinities_by_read = Some locus /\
    Support.forward (Locus.overall_support locus) = 2%Z /\
    Support.reverse (Locus.overall_support locus) = 1%Z.
Proof.
  destruct (@genotype_site_defined (settings 100 2) bubble_site bubble_reads 2
              bubble_alleles bubble_affinities_by_read)
    as [locus H].
  - reflexivity.
  - repeat constructor.
  - exists locus. split; [exact H|].
    destruct (@genotype_site_overall_support (settings 100 2) bubble_site
                bubble_reads bubble_alleles bubble_affinities_by_read locus H)
      as (Hf & Hr & _).
    split; [exact Hf | exact Hr].
Defined.

Lemma genotype_site_genotype_values_witness :
  exists locus,
    genotype_site (settings 100 2) bubble_site bubble_reads bubble_alleles
      bubble_affinities_by_read = Some locus /\
    Forall (fun gt =>
              get_genotype_log_likelihood (settings 100 2) (Genotype.allele gt)
                (trimmed_reads bubble_site bubble_reads bubble_affinities_by_read)
              = Some (Genotype.log_likelihood gt) /\
              get_genotype_log_prior (settings 100 2) (Genotype.allele gt)
              = Some (Genotype.log_prior gt))
           (Locus.genotype locus).
Proof.
  destruct (@genotype_site_defined (settings 100 2) bubble_site bubble_reads 2
              bubble_alleles bubble_affinities_by_read)
    as [locus H].
  - reflexivity.
  - repeat constructor.
  - exists locus. split; [exact H|].
    exact (@genotype_site_genotype_values (settings 100 2) bubble_site
             bubble_reads bubble_alleles bubble_affinities_by_read locus H).
Defined.

(* ================================================================= *)
(** ** Further properties of the variant emitter *)

Lemma substring_cat (str : string) : forall p n,
  (substring p 1 str ++ substring (S p) n str)%string = substring p (S n) str.
Proof.
  induction str as [|c str IH]; intros [|p] n.
  - reflexivity.
  - reflexivity.
  - simpl. destruct str; reflexivity.
  - simpl. apply IH.
Qed.

Lemma substring_one (str : string) : forall p,
  p < String.length str -> exists c, substring p 1 str = String c EmptyString.
Proof.
  induction str as [|c str IH]; intros [|p] Hp; simpl in *; try lia.
  - exists c. now destruct str.
  - apply IH. lia.
Qed.

Lemma fix_bases_called (s : string) : called_bases (fix_bases s) = true.
Proof.
  induction s as [|c s IH]; simpl; auto. rewrite IH, andb_true_r.
  unfold fix_base, called_base.
  destruct (Ascii.eqb c "A") eqn:EA; cbn [orb]; [now rewrite EA|].
  destruct (Ascii.eqb c "C") eqn:EC; cbn [orb]; [now rewrite EA, EC|].
  destruct (Ascii.eqb c "G") eqn:EG; cbn [orb]; [now rewrite EA, EC, EG|].
  destruct (Ascii.eqb c "T") eqn:ET; cbn [orb]; [now rewrite EA, EC, EG, ET|].
  reflexivity.
Qed.

Lemma fix_bases_nonempty (s : string) : s <> EmptyString -> fix_bases s <> EmptyString.
Proof. destruct s; simpl; congruence. Qed.

Lemma index_of_Some x l : forall i k,
  index_of x l i = Some k -> i <= k /\ nth_error l (k - i) = Some x.
Proof.
  induction l as [|y l IH]; intros i k; simpl; [discriminate|].
  destruct (String.eqb_spec y x) as [->|Hne].
  - intros H; inversion H; subst. rewrite Nat.sub_diag. auto.
  - intros H. apply IH in H. destruct H as [Hle Hnth]. split; [lia|].
    replace (k - i) with (S (k - S i)) by lia. exact Hnth.
Qed.

Lemma index_of_None x l : forall i, index_of x l i = None -> ~ In x l.
Proof.
  induction l as [|y l IH]; intros i; simpl; [tauto|].
  destruct (String.eqb_spec y x) as [->|Hne]; [discriminate|].
  intros H [Hy|Hin]; [congruence|]. exact (IH _ H Hin).
Qed.

Lemma add_allele_wf supports refString done state i allele :
  alts_wf refString done state ->
  alts_wf refString (done ++ [allele]) (add_allele supports state (i, allele)).
Proof.
  intros (Hall & Hnd & Hmax & Hlen & Hnum & Halt).
  assert (Halt' : Forall (fun a => exists s, In s (done ++ [allele]) /\ a = fix_bases s)
                         (variant_alt state)).
  { eapply Forall_impl; [|exact Halt]. intros a (s & Hs & ->).
    exists s. split; auto. apply in_or_app. auto. }
  unfold add_allele.
  destruct (index_of (fix_bases allele) (variant_alleles state) 0) as [k|] eqn:E;
    unfold alts_wf; cbn [variant_alleles variant_alt max_alt_number allele_to_alt].
  - apply index_of_Some in E. destruct E as [_ Hk]. rewrite Nat.sub_0_r in Hk.
    assert (Hklt : k < List.length (variant_alleles state))
      by (apply nth_error_Some; congruence).
    rewrite Hall in Hklt. simpl in Hklt.
    repeat split; auto.
    + lia.
    + rewrite !length_app. simpl. lia.
    + intros j s Hj. destruct (Nat.lt_ge_cases j (List.length done)) as [Hlt|Hge].
      * rewrite nth_error_app1 in Hj by auto.
        destruct (Hnum j s Hj) as (k' & Hk' & Hs). exists k'. split; auto.
        rewrite nth_error_app1; auto. apply nth_error_Some. congruence.
      * rewrite nth_error_app2 in Hj by auto.
        destruct (j - List.length done) as [|d] eqn:Ed; simpl in Hj;
          [|destruct d; discriminate].
        inversion Hj; subst s. exists k. split; auto.
        assert (j = List.length (allele_to_alt state)) by lia. subst j.
        now rewrite nth_error_app2, Nat.sub_diag by lia.
  - apply index_of_None in E.
    repeat split.
    + now rewrite Hall.
    + apply NoDup_app; [exact Hnd | repeat constructor; simpl; tauto |].
      intros x Hx [<-|[]]. exact (E Hx).
    + rewrite length_app. simpl. rewrite Hall. simpl. lia.
    + rewrite !length_app. simpl. lia.
    + intros j s Hj. destruct (Nat.lt_ge_cases j (List.length done)) as [Hlt|Hge].
      * rewrite nth_error_app1 in Hj by auto.
        destruct (Hnum j s Hj) as (k' & Hk' & Hs). exists k'. split.
        -- rewrite nth_error_app1; auto. apply nth_error_Some. congruence.
        -- rewrite nth_error_app1; auto. apply nth_error_Some. congruence.
      * rewrite nth_error_app2 in Hj by auto.
        destruct (j - List.length done) as [|d] eqn:Ed; simpl in Hj;
          [|destruct d; discriminate].
        inversion Hj; subst s. exists (List.length (variant_alleles state)).
        assert (j = List.length (allele_to_alt state)) by lia. subst j.
        split; now rewrite nth_error_app2, Nat.sub_diag by lia.
    + apply Forall_app. split; auto. repeat constructor.
      exists allele. split; auto. apply in_or_app. simpl. auto.
Qed.

Lemma add_alleles_wf supports refString l : forall done state,
  alts_wf refString done state ->
  alts_wf refString (done ++ map snd l) (fold_left (add_allele supports) l state).
Proof.
  induction l as [|[i allele] l IH]; intros done state Hwf; cbn [fold_left map snd].
  - now rewrite app_nil_r.
  - replace (done ++ allele :: map snd l) with ((done ++ [allele]) ++ map snd l)
      by now rewrite <- app_assoc.
    apply IH. now apply add_allele_wf.
Qed.

Lemma map_snd_combine_seq (A : Type) (l : list A) : forall i,
  map snd (combine (seq i (List.length l)) l) = l.
Proof. induction l as [|x l IH]; intros i; simpl; auto. now rewrite IH. Qed.

Lemma place_likelihoods_length allele_to_alt best genotypes : forall v v',
  for_each (place_likelihood allele_to_alt best) genotypes v = Returned v' ->
  List.length v' = List.length v.
Proof.
  induction genotypes as [|gt genotypes IH]; intros v v'; cbn [for_each].
  - intros H; inversion H; auto.
  - destruct (place_likelihood allele_to_alt best v gt) as [v1| | |] eqn:E;
      cbn [bind]; try discriminate.
    intros H. apply IH in H. rewrite H. clear H.
    unfold place_likelihood in E.
    destruct (diploid gt) as [ab| | |]; cbn [bind] in E; try discriminate.
    destruct (alt_of false allele_to_alt (fst ab)) as [low| | |]; cbn [bind] in E;
      try discriminate.
    destruct (alt_of false allele_to_alt (snd ab)) as [high| | |]; cbn [bind] in E;
      try discriminate.
    destruct (high <? low);
      match type of E with
      | context [update_nth ?i ?f v] =>
          destruct (update_nth i f v) as [v2|] eqn:Eu; [|discriminate]
      end; inversion E; subst; apply update_nth_spec in Eu; tauto.
Qed.

Lemma triangle_count (A : nat) :
  (A * (A + 1)) / 2 + A + 1 = ((A + 1) * (A + 2)) / 2.
Proof.
  replace ((A + 1) * (A + 2)) with (A * (A + 1) + (A + 1) * 2) by lia.
  rewrite Nat.div_add by lia. lia.
Qed.

(** What [fill_variant] puts in the record it returns. *)
Lemma fill_variant_spec locus allele_strings refString interval_start vs :
  fill_variant locus allele_strings refString interval_start = Returned vs ->
  exists v best a b,
    vs = [v] /\
    Variant.position v = interval_start + 1 /\
    Variant.ref v = fix_bases refString /\
    Variant.alleles v = refString :: Variant.alt v /\
    NoDup (Variant.alleles v) /\
    Forall (fun alt => exists s, In s allele_strings /\ alt = fix_bases s)
           (Variant.alt v) /\
    hd_error (Locus.genotype locus) = Some best /\
    Genotype.allele best = [a; b] /\
    (exists gt0 gt1,
       Variant.GT v = (gt0, Genotype.is_phased best, gt1) /\
       (forall s, nth_error allele_strings (Z.to_nat a) = Some s ->
                  nth_error (Variant.alleles v) gt0 = Some (fix_bases s)) /\
       (forall s, nth_error allele_strings (Z.to_nat b) = Some s ->
                  nth_error (Variant.alleles v) gt1 = Some (fix_bases s)) /\
       gt0 < List.length (Variant.alleles v) /\
       gt1 < List.length (Variant.alleles v)) /\
    List.length (Variant.PL v)
    = (List.length (Variant.alleles v) * (List.length (Variant.alleles v) + 1)) / 2.
Proof.
  unfold fill_variant.
  set (alts := fold_left _ _ _).
  assert (Hwf : alts_wf refString allele_strings alts).
  { unfold alts.
    rewrite <- (map_snd_combine_seq allele_strings 0) at 1.
    apply (@add_alleles_wf (Locus.support locus) refString
             (combine (seq 0 (List.length allele_strings)) allele_strings) []).
    unfold alts_wf; simpl. repeat split; auto.
    - repeat constructor. simpl. tauto.
    - intros [|i] s; discriminate. }
  destruct Hwf as (Hall & Hnd & Hmax & Hlen & Hnum & Halt).
  destruct (Locus.genotype locus) as [|best rest]; [discriminate|].
  unfold diploid at 1.
  destruct (Genotype.allele best) as [|a [|b [|c l]]] eqn:Hab; cbn [bind];
    try discriminate.
  cbn [fst snd]. unfold alt_of at 1 2.
  destruct (at_ (allele_to_alt alts) a) as [gt0|] eqn:E0; cbn [bind];
    [|discriminate].
  destruct (at_ (allele_to_alt alts) b) as [gt1|] eqn:E1; cbn [bind];
    [|discriminate].
  destruct (for_each _ _ _) as [pl| | |] eqn:Epl; cbn [bind]; try discriminate.
  intros H; inversion H; subst vs; clear H.
  assert (Hgt : forall x gt, at_ (allele_to_alt alts) x = Some gt ->
            (forall s, nth_error allele_strings (Z.to_nat x) = Some s ->
                       nth_error (variant_alleles alts) gt = Some (fix_bases s)) /\
            gt < List.length (variant_alleles alts)).
  { intros x gt Hx. unfold at_ in Hx. destruct (x <? 0)%Z; [discriminate|].
    assert (Hi : Z.to_nat x < List.length allele_strings).
    { rewrite <- Hlen. apply nth_error_Some. congruence. }
    destruct (nth_error allele_strings (Z.to_nat x)) as [s|] eqn:Es;
      [|apply nth_error_None in Es; lia].
    destruct (Hnum _ _ Es) as (k & Hk & Hs).
    assert (k = gt) by congruence. subst k. split.
    - intros s' Hs'. inversion Hs'; subst. exact Hs.
    - apply nth_error_Some. congruence. }
  eexists. exists best, a, b. split; [reflexivity|].
  cbn [Variant.position Variant.ref Variant.alleles Variant.alt Variant.GT
       Variant.PL hd_error].
  repeat split; auto.
  - exists gt0, gt1. split; auto.
    destruct (Hgt _ _ E0) as [H0 H0']. destruct (Hgt _ _ E1) as [H1 H1'].
    repeat split; auto.
  - apply place_likelihoods_length in Epl. rewrite Epl, repeat_length.
    rewrite Hmax, Hall. cbn [List.length].
    rewrite triangle_count. f_equal. lia.
Qed.

(** How the emitter gets to a record: the reference interval of the site
    runs forward, the reference string and the allele strings are not
    empty once the base before the site is put in front of them when one
    of them is, and the record is filled in from them. *)
Lemma locus_to_variant_inv g site index locus vs :
  locus_to_variant g site index locus = Returned vs ->
  vs = [] \/
  exists s e start refString strs,
    reference_interval g site index = Some (s, e) /\ s <= e /\
    (start = s \/ (0 < s /\ start = s - 1)) /\
    refString = substring start (e - start) (ReferenceIndex.sequence index) /\
    refString <> EmptyString /\ Forall (fun x => x <> EmptyString) strs /\
    fill_variant locus strs refString start = Returned vs.
Proof.
  unfold locus_to_variant, reference_interval.
  destruct (Locus.allele locus) as [|[|m first] others]; try discriminate.
  destruct (find Z.compare (node (start site)) (ReferenceIndex.byId index))
    as [fa|]; [|intros H; inversion H; auto].
  destruct (find Z.compare (node (end_ site)) (ReferenceIndex.byId index))
    as [la|]; [|intros H; inversion H; auto].
  set (s := fst fa + String.length (node_sequence g (node (start site)))).
  unfold assert. destruct (s <=? fst la) eqn:Hse; cbn [bind]; [|discriminate].
  apply Nat.leb_le in Hse.
  unfold substr at 1.
  destruct (String.length (ReferenceIndex.sequence index) <? s) eqn:Hlen;
    cbn [bind]; [discriminate|].
  apply Nat.ltb_ge in Hlen.
  destruct (spell_alleles g ((m :: first) :: others)) as [strs| | |]; cbn [bind];
    try discriminate.
  destruct (String.eqb _ _ || existsb _ strs) eqn:Hempty.
  - destruct (Nat.eqb_spec s 0) as [Hs0|Hs0]; cbn [bind]; [discriminate|].
    unfold substr.
    destruct (String.length (ReferenceIndex.sequence index) <? s - 1); cbn [bind];
      [discriminate|].
    intros H. right.
    destruct (@substring_one (ReferenceIndex.sequence index) (s - 1)) as [c Hc];
      [lia|].
    exists s, (fst la), (s - 1),
      (substring (s - 1) 1 (ReferenceIndex.sequence index)
       ++ substring s (fst la - s) (ReferenceIndex.sequence index))%string,
      (map (fun allele =>
              (substring (s - 1) 1 (ReferenceIndex.sequence index) ++ allele)%string)
           strs).
    split; [reflexivity|]. split; [exact Hse|]. split; [right; lia|].
    split; [|split; [|split; [|exact H]]].
    + replace (fst la - (s - 1)) with (S (fst la - s)) by lia.
      rewrite <- (substring_cat (ReferenceIndex.sequence index) (s - 1) (fst la - s)).
      replace (S (s - 1)) with s by lia. reflexivity.
    + rewrite Hc. discriminate.
    + apply Forall_map. apply Forall_forall. intros x _. rewrite Hc. discriminate.
  - intros H. right. apply orb_false_iff in Hempty. destruct Hempty as [Href Hstrs].
    exists s, (fst la), s,
      (substring s (fst la - s) (ReferenceIndex.sequence index)), strs.
    split; [reflexivity|]. split; [exact Hse|]. split; [left; reflexivity|].
    split; [reflexivity|]. split; [|split; [|exact H]].
    + apply String.eqb_neq. exact Href.
    + apply Forall_forall. intros x Hx. apply String.eqb_neq.
      destruct (String.eqb x EmptyString) eqn:E; auto.
      assert (Hex : existsb (fun allele => String.eqb allele EmptyString) strs = true)
        by (apply existsb_exists; eauto).
      congruence.
Qed.

(** X16. The emitter returns at most one record.  In a record, REF and
    every ALT are non-empty strings of the bases A, C, G, T and N; the
    alleles are the reference string as cut from the index, of which REF
    is the normalised text, followed by the ALTs; and no two alleles are
    the same. *)
Theorem returned_record_alleles
    (g : VG) (site : Site) (index : ReferenceIndex) (locus : Locus)
    (vs : list Variant) :
  locus_to_variant g site index locus = Returned vs ->
  vs = [] \/
  exists v,
    vs = [v] /\
    Variant.ref v <> EmptyString /\ called_bases (Variant.ref v) = true /\
    Forall (fun alt => alt <> EmptyString /\ called_bases alt = true)
           (Variant.alt v) /\
    (exists raw, Variant.alleles v = raw :: Variant.alt v /\
                 Variant.ref v = fix_bases raw) /\
    NoDup (Variant.alleles v).
Proof.
  intros H. apply locus_to_variant_inv in H. destruct H as [H|H]; [now left|].
  destruct H as (s & e & start0 & refString & strs & _ & _ & _ & _ & Href & Hstrs & H).
  apply fill_variant_spec in H.
  destruct H as (v & best & a & b & -> & _ & Hr & Hall & Hnd & Halt & _).
  right. exists v. split; [reflexivity|]. rewrite Hr.
  split; [now apply fix_bases_nonempty|]. split; [apply fix_bases_called|].
  split; [|split; [eauto | exact Hnd]].
  eapply Forall_impl; [|exact Halt]. intros alt (x & Hx & ->).
  rewrite Forall_forall in Hstrs.
  split; [apply fix_bases_nonempty; auto | apply fix_bases_called].
Qed.

(** X17. In a record the emitter returns, the two allele numbers of the
    genotype are numbers of alleles of the record, and there is one
    likelihood for every unordered pair of its alleles: n (n + 1) / 2 for
    n alleles. *)
Theorem returned_record_genotype
    (g : VG) (site : Site) (index : ReferenceIndex) (locus : Locus) (v : Variant) :
  locus_to_variant g site index locus = Returned [v] ->
  fst (fst (Variant.GT v)) < List.length (Variant.alleles v) /\
  snd (Variant.GT v) < List.length (Variant.alleles v) /\
  List.length (Variant.PL v)
  = (List.length (Variant.alleles v) * (List.length (Variant.alleles v) + 1)) / 2.
Proof.
  intros H. apply locus_to_variant_inv in H. destruct H as [H|H]; [discriminate|].
  destruct H as (s & e & start0 & refString & strs & _ & _ & _ & _ & _ & _ & H).
  apply fill_variant_spec in H.
  destruct H as (v' & best & a & b & Hv & _ & _ & _ & _ & _ & _ & _ & Hgt & Hpl).
  inversion Hv; subst v'. destruct Hgt as (gt0 & gt1 & -> & _ & _ & H0 & H1).
  simpl. auto.
Qed.

(** Where the record starts: at the start of the reference interval, or
    one base before it when the reference string or one of the spelled
    alleles is empty. *)
Lemma locus_to_variant_start g site index locus vs :
  locus_to_variant g site index locus = Returned vs ->
  vs = [] \/
  exists s e strs strs',
    reference_interval g site index = Some (s, e) /\ s <= e /\
    spell_alleles g (Locus.allele locus) = Returned strs /\
    let stepped :=
      String.eqb (substring s (e - s) (ReferenceIndex.sequence index)) EmptyString
      || existsb (fun allele => String.eqb allele EmptyString) strs in
    let start := if stepped then s - 1 else s in
    (stepped = true -> 0 < s) /\
    fill_variant locus strs'
      (substring start (e - start) (ReferenceIndex.sequence index)) start
    = Returned vs.
Proof.
  unfold locus_to_variant, reference_interval.
  destruct (Locus.allele locus) as [|[|m first] others]; try discriminate.
  destruct (find Z.compare (node (start site)) (ReferenceIndex.byId index))
    as [fa|]; [|intros H; inversion H; auto].
  destruct (find Z.compare (node (end_ site)) (ReferenceIndex.byId index))
    as [la|]; [|intros H; inversion H; auto].
  set (s := fst fa + String.length (node_sequence g (node (start site)))).
  unfold assert. destruct (s <=? fst la) eqn:Hse; cbn [bind]; [|discriminate].
  apply Nat.leb_le in Hse.
  unfold substr at 1.
  destruct (String.length (ReferenceIndex.sequence index) <? s) eqn:Hlen;
    cbn [bind]; [discriminate|].
  destruct (spell_alleles g ((m :: first) :: others)) as [strs| | |]; cbn [bind];
    try discriminate.
  destruct (String.eqb _ _ || existsb _ strs) eqn:Hempty.
  - destruct (Nat.eqb_spec s 0) as [Hs0|Hs0]; cbn [bind]; [discriminate|].
    unfold substr.
    destruct (String.length (ReferenceIndex.sequence index) <? s - 1); cbn [bind];
      [discriminate|].
    intros H. right.
    exists s, (fst la), strs,
      (map (fun allele =>
              (substring (s - 1) 1 (ReferenceIndex.sequence index) ++ allele)%string)
           strs).
    split; [reflexivity|]. split; [exact Hse|]. split; [reflexivity|].
    cbv zeta. rewrite Hempty. split; [lia|].
    replace (fst la - (s - 1)) with (S (fst la - s)) by lia.
    rewrite <- (substring_cat (ReferenceIndex.sequence index) (s - 1) (fst la - s)).
    replace (S (s - 1)) with s by lia. exact H.
  - intros H. right. exists s, (fst la), strs, strs.
    split; [reflexivity|]. split; [exact Hse|]. split; [reflexivity|].
    cbv zeta. rewrite Hempty. split; [discriminate | exact H].
Qed.

(** X18. In a record the emitter returns, the position is the 1-based
    start of the site's reference interval; except when the reference
    string of the interval or one of the spelled alleles is empty: then,
    and only then, it is the base before.  REF is the normalised
    reference sequence from that position up to the first base of the
    site's end node. *)
Theorem returned_record_position
    (g : VG) (site : Site) (index : ReferenceIndex) (locus : Locus) (v : Variant) :
  locus_to_variant g site index locus = Returned [v] ->
  exists s e strs,
    reference_interval g site index = Some (s, e) /\ s <= e /\
    spell_alleles g (Locus.allele locus) = Returned strs /\
    1 <= Variant.position v /\
    Variant.position v
    = (if String.eqb (substring s (e - s) (ReferenceIndex.sequence index))
                     EmptyString
          || existsb (fun allele => String.eqb allele EmptyString) strs
       then s else s + 1) /\
    Variant.ref v
    = fix_bases (substring (Variant.position v - 1) (e - (Variant.position v - 1))
                   (ReferenceIndex.sequence index)).
Proof.
  intros H. apply locus_to_variant_start in H. destruct H as [H|H]; [discriminate|].
  destruct H as (s & e & strs & strs' & Hint & Hse & Hspell & Hpos0 & H).
  apply fill_variant_spec in H.
  destruct H as (v' & best & a & b & Hv & Hpos & Hr & _).
  inversion Hv; subst v'. exists s, e, strs.
  split; [exact Hint|]. split; [exact Hse|]. split; [exact Hspell|].
  rewrite Hpos, Hr.
  destruct (String.eqb _ _ || existsb _ strs).
  - specialize (Hpos0 eq_refl).
    replace (s - 1 + 1) with s by lia. repeat split; auto; lia.
  - replace (s + 1 - 1) with s by lia. repeat split; auto; lia.
Qed.

Lemma returned_record_alleles_witness :
  exists vs,
    locus_to_variant bubble_graph bubble_site bubble_index bubble_locus
    = Returned vs /\
    (vs = [] \/
     exists v,
       vs = [v] /\
       Variant.ref v <> EmptyString /\ called_bases (Variant.ref v) = true /\
       Forall (fun alt => alt <> EmptyString /\ called_bases alt = true)
              (Variant.alt v) /\
       (exists raw, Variant.alleles v = raw :: Variant.alt v /\
                    Variant.ref v = fix_bases raw) /\
       NoDup (Variant.alleles v)).
Proof.
  eexists. split; [reflexivity|].
  apply (@returned_record_alleles bubble_graph bubble_site bubble_index bubble_locus).
  reflexivity.
Defined.

Lemma returned_record_genotype_witness :
  exists v,
    locus_to_variant bubble_graph bubble_site bubble_index bubble_locus
    = Returned [v] /\
    fst (fst (Variant.GT v)) < List.length (Variant.alleles v) /\
    snd (Variant.GT v) < List.length (Variant.alleles v) /\
    List.length (Variant.PL v)
    = (List.length (Variant.alleles v) * (List.length (Variant.alleles v) + 1)) / 2.
Proof.
  eexists. split; [reflexivity|].
  apply (@returned_record_genotype bubble_graph bubble_site bubble_index bubble_locus).
  reflexivity.
Defined.

Lemma returned_record_position_witness :
  exists v,
    locus_to_variant bubble_graph bubble_site bubble_index bubble_locus
    = Returned [v] /\
    exists s e strs,
      reference_interval bubble_graph bubble_site bubble_index = Some (s, e) /\
      s <= e /\
      spell_alleles bubble_graph (Locus.allele bubble_locus) = Returned strs /\
      1 <= Variant.position v /\
      Variant.position v
      = (if String.eqb (substring s (e - s) (ReferenceIndex.sequence bubble_index))
                       EmptyString
            || existsb (fun allele => String.eqb allele EmptyString) strs
         then s else s + 1) /\
      Variant.ref v
      = fix_bases (substring (Variant.position v - 1) (e - (Variant.position v - 1))
                     (ReferenceIndex.sequence bubble_index)).
Proof.
  eexists. split; [reflexivity|].
  apply (@returned_record_position bubble_graph bubble_site bubble_index bubble_locus).
  reflexivity.
Defined.

(** With a deletion among the alleles the record starts one base to the
    left: the interval of the site starts at offset 1, the record is at
    position 1, and REF and ALT begin with the base "A" before the site. *)
Example deletion_variant_position :
  reference_interval bubble_graph bubble_site bubble_index = Some (1, 2) /\
  spell_alleles bubble_graph (Locus.allele deletion_locus)
  = Returned ["C"%string; EmptyString] /\
  exists v, locus_to_variant bubble_graph bubble_site bubble_index deletion_locus
            = Returned [v] /\
            Variant.position v = 1 /\ Variant.ref v = "AC"%string /\
            Variant.alt v = ["A"%string].
Proof.
  split; [reflexivity|]. split; [reflexivity|].
  eexists. split; [reflexivity|]. repeat split.
Qed.

(* ================================================================= *)
(** ** Further properties of the reference index *)

Lemma reverse_complement_length (s : string) :
  String.length (reverse_complement s) = String.length s.
Proof.
  induction s as [|c s IH]; simpl; auto.
  rewrite string_length_app, IH. simpl. lia.
Qed.

Lemma substring_all (b : string) : substring 0 (String.length b) b = b.
Proof. induction b as [|c b IH]; simpl; auto. now rewrite IH. Qed.

Lemma substring_app_r (a b : string) :
  substring (String.length a) (String.length b) (a ++ b) = b.
Proof. induction a as [|c a IH]; simpl; auto. apply substring_all. Qed.

Lemma substring_app_l (a b : string) : forall off n,
  off + n <= String.length a -> substring off n (a ++ b) = substring off n a.
Proof.
  induction a as [|c a IH]; intros off n H; simpl in H.
  - assert (off = 0) by lia. assert (n = 0) by lia. subst.
    simpl. now destruct b.
  - destruct off as [|off]; simpl.
    + destruct n as [|n]; auto. f_equal. apply IH. lia.
    + apply IH. lia.
Qed.

Lemma index_mapping_wf g index base last m index' base' last' :
  index_wf g index base ->
  index_mapping g (index, base, last) m = Returned (index', base', last') ->
  index_wf g index' base'.
Proof.
  intros [Hlen Hoff]. unfold index_mapping.
  set (seq := if base =? 0 then drop_invalid_leading (node_sequence g (node_id m))
              else node_sequence g (node_id m)).
  set (text := if is_reverse m then reverse_complement seq else seq).
  assert (Htext : String.length text = String.length seq).
  { unfold text. destruct (is_reverse m); auto using reverse_complement_length. }
  assert (Hold : forall id off rev,
            find Z.compare id (ReferenceIndex.byId index) = Some (off, rev) ->
            let s := if off =? 0 then drop_invalid_leading (node_sequence g id)
                     else node_sequence g id in
            off + String.length s
            <= String.length (ReferenceIndex.sequence index ++ text) /\
            substring off (String.length s) (ReferenceIndex.sequence index ++ text)
            = (if rev then reverse_complement s else s)).
  { intros id off rev Hf. destruct (Hoff id off rev Hf) as [Hle Hsub]. cbv zeta.
    split; [rewrite string_length_app; lia|].
    rewrite substring_app_l by exact Hle. exact Hsub. }
  destruct (count Z.compare (node_id m) (ReferenceIndex.byId index)) eqn:E;
    cbn [bind].
  - intros H; inversion H; subst; clear H. split.
    + cbn [ReferenceIndex.sequence]. rewrite string_length_app. fold seq text. lia.
    + cbn [ReferenceIndex.sequence ReferenceIndex.byId fst]. exact Hold.
  - unfold assert. destruct (last <? rank m)%Z; cbn [bind]; [|discriminate].
    intros H; inversion H; subst; clear H. split.
    + cbn [ReferenceIndex.sequence]. rewrite string_length_app. fold seq text. lia.
    + cbn [ReferenceIndex.sequence ReferenceIndex.byId fst].
      intros id off rev Hf. destruct (Z.eq_dec id (node_id m)) as [->|Hne].
      * rewrite zfind_insert_same in Hf. inversion Hf; subst off rev. cbv zeta.
        fold seq. fold text. split.
        -- rewrite string_length_app. lia.
        -- rewrite <- Htext. apply substring_app_r.
      * rewrite zfind_insert_other in Hf by auto. now apply Hold.
Qed.

Lemma for_each_index_wf g ms : forall index base last index' base' last',
  index_wf g index base ->
  for_each (index_mapping g) ms (index, base, last)
  = Returned (index', base', last') ->
  index_wf g index' base'.
Proof.
  induction ms as [|m ms IH]; intros index base last index' base' last' Hwf;
    cbn [for_each].
  - intros H; inversion H; subst. exact Hwf.
  - destruct (index_mapping g (index, base, last) m) as [[[i1 b1] l1]| | |] eqn:E;
      cbn [bind]; try discriminate.
    apply IH. eapply index_mapping_wf; eauto.
Qed.

(** X19. In a reference index that was built, the offset recorded for a
    node is where the reference sequence holds the sequence of that node,
    in the orientation recorded for it: the text of the node (without
    invalid leading characters when it is at offset 0) lies inside the
    reference sequence at that offset, reverse-complemented when the
    path first visits the node in reverse. *)
Theorem reference_index_offsets
    (g : VG) (refPathName : string) (index : ReferenceIndex)
    (id : id_t) (off : nat) (rev : bool) :
  build_reference_index g refPathName = Returned index ->
  find Z.compare id (ReferenceIndex.byId index) = Some (off, rev) ->
  let s := if off =? 0 then drop_invalid_leading (node_sequence g id)
           else node_sequence g id in
  off + String.length s <= String.length (ReferenceIndex.sequence index) /\
  substring off (String.length s) (ReferenceIndex.sequence index)
  = (if rev then reverse_complement s else s).
Proof.
  unfold build_reference_index.
  destruct (count String.compare refPathName (paths g)); simpl; [|discriminate].
  destruct (for_each _ _ _) as [[[i1 b1] l1]| | |] eqn:E; simpl; try discriminate.
  intros H; inversion H; subst; clear H.
  apply for_each_index_wf in E.
  - destruct E as [_ Hoff]. apply Hoff.
  - split; [reflexivity|]. intros id' off' rev' Hf. discriminate.
Qed.

Lemma reference_index_offsets_witness :
  build_reference_index bubble_graph "ref" = Returned bubble_index /\
  find Z.compare 2%Z (ReferenceIndex.byId bubble_index) = Some (1, false) /\
  1 + String.length (node_sequence bubble_graph 2)
  <= String.length (ReferenceIndex.sequence bubble_index) /\
  substring 1 (String.length (node_sequence bubble_graph 2))
    (ReferenceIndex.sequence bubble_index)
  = node_sequence bubble_graph 2.
Proof.
  assert (H1 : build_reference_index bubble_graph "ref" = Returned bubble_index)
    by reflexivity.
  assert (H2 : find Z.compare 2%Z (ReferenceIndex.byId bubble_index)
               = Some (1, false)) by reflexivity.
  split; [exact H1|]. split; [exact H2|].
  exact (@reference_index_offsets bubble_graph "ref" bubble_index 2%Z 1 false H1 H2).
Defined.

Lemma for_each_index_returns g ms : forall index base last,
  StronglySorted Z.lt (last :: map rank ms) ->
  exists state, for_each (index_mapping g) ms (index, base, last) = Returned state.
Proof.
  induction ms as [|m ms IH]; intros index base last Hs; cbn [for_each]; eauto.
  cbn [map] in Hs. apply StronglySorted_inv in Hs. destruct Hs as [Hs Hall].
  apply Forall_cons_iff in Hall. destruct Hall as [Hlt Hall].
  apply StronglySorted_inv in Hs. destruct Hs as [Hs Hall'].
  unfold index_mapping.
  destruct (count Z.compare (node_id m) (ReferenceIndex.byId index)); cbn [bind].
  - cbn [snd]. apply IH. constructor; auto.
  - unfold assert. replace (last <? rank m)%Z with true
      by (symmetry; apply Z.ltb_lt; exact Hlt).
    cbn [bind snd]. apply IH. constructor; auto.
Qed.

(** X20. The reference index is built, with no assertion failing, for a
    reference path that is in the graph and whose mappings have ranks
    that are not negative and go up strictly along the path. *)
Theorem reference_index_built (g : VG) (refPathName : string) :
  count String.compare refPathName (paths g) = true ->
  StronglySorted Z.lt ((-1)%Z :: map rank (get_path g refPathName)) ->
  exists index, build_reference_index g refPathName = Returned index.
Proof.
  intros Hc Hs. unfold build_reference_index. rewrite Hc. cbn [assert bind].
  destruct (@for_each_index_returns g (get_path g refPathName)
              {| ReferenceIndex.byId := []; ReferenceIndex.byStart := [];
                 ReferenceIndex.sequence := EmptyString |} 0 (-1)%Z Hs)
    as [state ->].
  cbn [bind]. eauto.
Qed.

Lemma reference_index_built_witness :
  count String.compare "ref"%string (paths bubble_graph) = true /\
  StronglySorted Z.lt ((-1)%Z :: map rank (get_path bubble_graph "ref"%string)) /\
  exists index, build_reference_index bubble_graph "ref"%string = Returned index.
Proof.
  assert (H1 : count String.compare "ref"%string (paths bubble_graph) = true)
    by reflexivity.
  assert (H2 : StronglySorted Z.lt
                 ((-1)%Z :: map rank (get_path bubble_graph "ref"%string))).
  { simpl. repeat constructor. }
  split; [exact H1|]. split; [exact H2|].
  exact (@reference_index_built bubble_graph "ref"%string H1 H2).
Defined.

(* ================================================================= *)
(** ** Further properties of [run]: the reads by name and the sites *)

Lemma index_reads_other n rest : forall i reads_by_name,
  ~ In n (map name rest) ->
  find String.compare n (index_reads rest i reads_by_name)
  = find String.compare n reads_by_name.
Proof.
  induction rest as [|a0 rest IH]; intros i M Hn; simpl; auto.
  simpl in Hn. rewrite IH by tauto. apply sfind_insert_other. intros ->. tauto.
Qed.

Lemma index_reads_lookup rest : forall i reads_by_name k a,
  nth_error rest k = Some a ->
  (forall j b, k < j -> nth_error rest j = Some b -> name b <> name a) ->
  find String.compare (name a) (index_reads rest i reads_by_name) = Some (i + k).
Proof.
  induction rest as [|a0 rest IH]; intros i M k a Hk Hlast;
    [destruct k; discriminate|].
  destruct k as [|k]; simpl in Hk |- *.
  - inversion Hk; subst a0. rewrite index_reads_other.
    + rewrite sfind_insert_same. f_equal. lia.
    + intros Hin. apply in_map_iff in Hin. destruct Hin as (b & Hb & Hin).
      apply In_nth_error in Hin. destruct Hin as [j Hj].
      apply (Hlast (S j) b); auto. lia.
  - rewrite (IH (S i) _ k a Hk).
    + f_equal. lia.
    + intros j b Hj Hb. apply (Hlast (S j) b); auto. lia.
Qed.

(** X21. [reads_by_name] finds every alignment under its name, at its
    place among the alignments, provided no later alignment has the same
    name (the last alignment of a name is the one that is kept). *)
Theorem build_reads_by_name_lookup
    (alignments : list Alignment) (k : nat) (a : Alignment) :
  nth_error alignments k = Some a ->
  (forall j b, k < j -> nth_error alignments j = Some b -> name b <> name a) ->
  find String.compare (name a) (build_reads_by_name alignments) = Some k.
Proof.
  intros Hk Hlast. unfold build_reads_by_name.
  now rewrite (@index_reads_lookup alignments 0 [] k a Hk Hlast).
Qed.

Lemma build_reads_by_name_lookup_witness :
  nth_error bubble_reads 1
  = Some (mk_read "read2"%string [mk_mapping 4 true; mk_mapping 3 true; mk_mapping 1 true]) /\
  (forall j b, 1 < j -> nth_error bubble_reads j = Some b ->
               name b <> "read2"%string) /\
  find String.compare "read2"%string (build_reads_by_name bubble_reads) = Some 1.
Proof.
  assert (H1 : nth_error bubble_reads 1
               = Some (mk_read "read2"%string [mk_mapping 4 true; mk_mapping 3 true;
                                        mk_mapping 1 true])) by reflexivity.
  assert (H2 : forall j b, 1 < j -> nth_error bubble_reads j = Some b ->
                           name b <> "read2"%string).
  { intros [|[|[|j]]] b Hj Hb; try lia.
    - inversion Hb; subst b. discriminate.
    - destruct j; discriminate. }
  split; [exact H1|]. split; [exact H2|].
  exact (@build_reads_by_name_lookup bubble_reads 1
           (mk_read "read2"%string [mk_mapping 4 true; mk_mapping 3 true; mk_mapping 1 true])
           H1 H2).
Defined.

Lemma enumerated_allele_anchored self g site allele :
  In allele (get_paths_through_site self g site) ->
  hd_error allele = Some (start site) /\ (forall d, last allele d = end_ site).
Proof.
  unfold get_paths_through_site. rewrite emitted_iff.
  intros (seq & Hfirst & _). apply first_traversal_In in Hfirst.
  apply completed_walk_origin in Hfirst. destruct Hfirst as (p & Hp & Hw).
  destruct (@start_mappings_on_start g site p Hp) as (m & Hd & Hn).
  destruct (@walk_from_shape self g site p m allele seq Hd Hn Hw) as (_ & H2 & H3 & _).
  auto.
Qed.

(** X22. The site and the alleles [run] goes on with, after its second
    try with the ends of the site exchanged: the site is the one given or
    the one with its ends exchanged, with the same contents; every allele
    starts with the start traversal of that site and ends with its end
    traversal; and there are no alleles only when neither way round gives
    any, in which case the site is the one given. *)
Theorem paths_for_site_anchored (self : Genotyper) (g : VG) (site : Site) :
  let used := fst (paths_for_site self g site) in
  let paths := snd (paths_for_site self g site) in
  (used = site \/ used = swap_ends site) /\
  contents used = contents site /\
  Forall (fun allele =>
            hd_error allele = Some (start used) /\
            forall d, last allele d = end_ used) paths /\
  (paths = [] <->
   get_paths_through_site self g site = [] /\
   get_paths_through_site self g (swap_ends site) = []) /\
  (paths = [] -> used = site).
Proof.
  cbv zeta. unfold paths_for_site.
  destruct (get_paths_through_site self g site) as [|a l] eqn:E1.
  - destruct (get_paths_through_site self g (swap_ends site)) as [|a' l'] eqn:E2;
      cbn [fst snd].
    + repeat split; auto.
    + repeat split; auto; try discriminate.
      * rewrite <- E2. apply Forall_forall. intros allele Hin.
        now apply enumerated_allele_anchored in Hin.
      * intros [_ H]. discriminate.
  - cbn [fst snd]. repeat split; auto; try discriminate.
    + rewrite <- E1. apply Forall_forall. intros allele Hin.
      now apply enumerated_allele_anchored in Hin.
    + intros [H _]. discriminate.
Qed.

(* ================================================================= *)
(** ** The test for informative reads of [get_affinities] *)

Lemma Z_compare_antisym (a b : Z) : Z.compare b a = CompOpp (Z.compare a b).
Proof. apply Z.compare_antisym. Qed.

Lemma Z_compare_lt_trans (a b c : Z) :
  Z.compare a b = Lt -> Z.compare b c = Lt -> Z.compare a c = Lt.
Proof. rewrite !Z.compare_lt_iff. lia. Qed.

Lemma zinsert_sorted (V : Type) (k : Z) (v : V) (m : list (Z * V)) :
  sorted Z.compare m -> sorted Z.compare (insert Z.compare k v m).
Proof.
  apply insert_sorted;
    [exact Z_compare_eq | exact Z_compare_antisym | exact Z_compare_lt_trans].
Qed.

Lemma touched_set_spec site ms : forall touched_set,
  sorted Z.compare touched_set ->
  let result :=
    fold_left
      (fun touched_set m =>
         let touched := node_id m in
         if in_contents site touched then insert Z.compare touched tt touched_set
         else touched_set)
      ms touched_set in
  sorted Z.compare result /\
  forall id, In id (keys result) <->
             In id (keys touched_set) \/
             (in_contents site id = true /\ exists m, In m ms /\ node_id m = id).
Proof.
  induction ms as [|m ms IH]; intros T Hs; cbv zeta; cbn [fold_left].
  - split; auto. intros id. split; auto. intros [H|[_ (m & [] & _)]]; auto.
  - destruct (in_contents site (node_id m)) eqn:E.
    + destruct (IH (insert Z.compare (node_id m) tt T)) as [Hs' Hk];
        [now apply zinsert_sorted|].
      split; auto. intros id. rewrite Hk, zkeys_insert. split.
      * intros [[->|H]|[Hc (m' & Hin & Hid)]].
        -- right. split; auto. exists m. simpl. auto.
        -- now left.
        -- right. split; auto. exists m'. simpl. auto.
      * intros [H|[Hc (m' & [->|Hin] & Hid)]].
        -- left. now right.
        -- left. left. now symmetry.
        -- right. split; auto. exists m'. auto.
    + destruct (IH T Hs) as [Hs' Hk]. split; auto.
      intros id. rewrite Hk. split.
      * intros [H|[Hc (m' & Hin & Hid)]].
        -- now left.
        -- right. split; auto. exists m'. simpl. auto.
      * intros [H|[Hc (m' & [->|Hin] & Hid)]].
        -- now left.
        -- congruence.
        -- right. split; auto. exists m'. auto.
Qed.

(** X23. The test of [get_affinities] calls a read informative exactly
    when it touches two different nodes of the site, or touches a node of
    the site that is neither the start node nor the end node. *)
Theorem informative_spec (site : Site) (read : Alignment) :
  informative site read = true <->
  (exists a b, a <> b /\ touches site read a /\ touches site read b) \/
  (exists a, touches site read a /\ a <> node (start site) /\ a <> node (end_ site)).
Proof.
  unfold informative.
  destruct (@touched_set_spec site (path read) []) as [Hs Hk]; [constructor|].
  cbv zeta in Hs, Hk.
  set (T := fold_left _ (path read) []) in *.
  assert (Hkeys : forall id, In id (keys T) <-> touches site read id).
  { intros id. rewrite Hk. unfold touches. simpl. tauto. }
  assert (Hnd : NoDup (keys T)) by (apply (sorted_NoDup_keys Z_compare_eq); exact Hs).
  destruct (2 <=? List.length T) eqn:E.
  - split; [intros _|reflexivity]. left. apply Nat.leb_le in E.
    destruct T as [|[x u] [|[y w] T']]; simpl in E; try lia.
    exists x, y. simpl in Hnd. inversion Hnd as [|? ? Hx _]; subst.
    split; [intros ->; apply Hx; simpl; auto|].
    split; apply Hkeys; simpl; auto.
  - apply Nat.leb_gt in E. split.
    + destruct (erase (node (end_ site)) (erase (node (start site)) T))
        as [|[x u] rest] eqn:Ee; [discriminate|].
      intros _. right. exists x.
      assert (Hin : In (x, u) (erase (node (end_ site)) (erase (node (start site)) T)))
        by (rewrite Ee; simpl; auto).
      unfold erase in Hin. rewrite !filter_In in Hin. simpl in Hin.
      destruct Hin as [[Hin Hstart] Hend].
      apply negb_true_iff, Z.eqb_neq in Hstart, Hend.
      split; [|auto]. apply Hkeys. unfold keys. apply in_map_iff.
      exists (x, u). auto.
    + intros [(a & b & Hab & Ha & Hb)|(a & Ha & Hstart & Hend)].
      * apply Hkeys in Ha, Hb.
        destruct T as [|[x u] [|[y w] T']]; simpl in *; try lia; intuition congruence.
      * apply Hkeys in Ha. unfold keys in Ha. apply in_map_iff in Ha.
        destruct Ha as ([x u] & Hx & Hin). simpl in Hx. subst x.
        assert (Hin' : In (a, u)
                         (erase (node (end_ site)) (erase (node (start site)) T))).
        { unfold erase. rewrite !filter_In. simpl.
          repeat split; auto; apply negb_true_iff, Z.eqb_neq; auto. }
        destruct (erase (node (end_ site)) (erase (node (start site)) T));
          [destruct Hin' | reflexivity].
Qed.

(* ================================================================= *)
(** ** The qualities of a read inside a site *)

Lemma subsequence_app_r (A : Type) (l l1 l2 : list A) :
  subsequence l l1 -> subsequence l (l1 ++ l2).
Proof. induction 1; simpl; constructor; auto. Qed.

Lemma subsequence_snoc (A : Type) (x : A) (l l1 : list A) :
  subsequence l l1 -> subsequence (l ++ [x]) (l1 ++ [x]).
Proof.
  induction 1 as [l1| |]; simpl; try (constructor; auto).
  induction l1 as [|y l1 IH]; simpl; repeat constructor. exact IH.
Qed.

Lemma firstn_snoc (A : Type) (q : list A) : forall p x,
  nth_error q p = Some x -> firstn (S p) q = firstn p q ++ [x].
Proof.
  induction q as [|y q IH]; intros [|p] x H; simpl in *; try discriminate.
  - now inversion H.
  - f_equal. now apply IH.
Qed.

Lemma firstn_prefix (A : Type) (q : list A) : forall p p',
  p <= p' -> exists rest, firstn p' q = firstn p q ++ rest.
Proof.
  induction q as [|y q IH]; intros p p' H.
  - exists []. now rewrite !firstn_nil.
  - destruct p as [|p]; [simpl; eauto|].
    destruct p' as [|p']; [lia|]. simpl.
    destruct (IH p p') as [rest ->]; [lia|]. eauto.
Qed.

Lemma take_qualities_subsequence qualities k : forall pos ret pos' ret',
  take_qualities qualities k pos ret = Some (pos', ret') ->
  subsequence ret (firstn pos qualities) ->
  subsequence ret' (firstn pos' qualities).
Proof.
  induction k as [|k IH]; intros pos ret pos' ret'; simpl.
  - intros H; inversion H; subst. auto.
  - destruct (nth_error qualities pos) as [q|] eqn:E; [|discriminate].
    intros H Hsub. apply IH in H; auto.
    rewrite (firstn_snoc _ _ E). now apply subsequence_snoc.
Qed.

Lemma scan_edits_subsequence qualities in_site edits : forall pos ret pos' ret',
  scan_edits qualities in_site edits pos ret = Some (pos', ret') ->
  subsequence ret (firstn pos qualities) ->
  subsequence ret' (firstn pos' qualities).
Proof.
  induction edits as [|to_length edits IH]; intros pos ret pos' ret'; simpl.
  - intros H; inversion H; subst. auto.
  - destruct in_site.
    + destruct (take_qualities qualities to_length pos ret) as [[p1 r1]|] eqn:E;
        [|discriminate].
      intros H Hsub. apply IH in H; auto.
      eapply take_qualities_subsequence; eauto.
    + intros H Hsub. apply IH in H; auto.
      destruct (@firstn_prefix _ qualities pos (pos + to_length)) as [rest ->];
        [lia|].
      now apply subsequence_app_r.
Qed.

Lemma scan_mappings_subsequence site qualities mappings :
  forall in_site expected pos ret,
    subsequence ret (firstn pos qualities) ->
    subsequence (scan_mappings site qualities mappings in_site expected pos ret)
                qualities.
Proof.
  induction mappings as [|m mappings IH]; intros in_site expected pos ret Hsub.
  - simpl. rewrite <- (firstn_skipn pos qualities). now apply subsequence_app_r.
  - cbn [scan_mappings].
    destruct (if in_site then (in_site, expected)
              else if nt_eqb _ (start site) then (true, end_ site)
              else if nt_eqb _ (nt_reverse (end_ site))
                   then (true, nt_reverse (start site))
              else (in_site, expected)) as [in_site' expected'].
    destruct (scan_edits qualities in_site' (edit_to_length m) pos ret)
      as [[p1 r1]|] eqn:E; [|constructor].
    apply IH. eapply scan_edits_subsequence; eauto.
Qed.

(** X24. The qualities [get_qualities_in_site] keeps for a read are
    qualities of the read, in the order of the read, each position used
    at most once; so they are never more than the read has, and a read
    without qualities keeps none. *)
Theorem get_qualities_in_site_subsequence (site : Site) (alignment : Alignment) :
  subsequence (get_qualities_in_site site alignment) (quality alignment) /\
  List.length (get_qualities_in_site site alignment)
  <= List.length (quality alignment).
Proof.
  assert (H : subsequence (get_qualities_in_site site alignment) (quality alignment)).
  { unfold get_qualities_in_site. apply scan_mappings_subsequence. constructor. }
  split; [exact H|].
  induction H; simpl; lia.
Qed.

(* ================================================================= *)
(** ** From the enumerator to the emitter *)

Lemma spell_inner g inner : forall acc,
  fold_left
    (fun acc m =>
       let node_string := node_sequence g (node_id m) in
       (acc ++ (if is_reverse m then reverse_complement node_string
                else node_string))%string)
    (path_from_node_traversals inner) acc
  = (acc ++ traversals_to_string g inner)%string.
Proof.
  induction inner as [|t inner IH]; intros acc; simpl.
  - now rewrite string_app_nil_r.
  - rewrite IH, string_app_assoc. reflexivity.
Qed.

(** X25. For an allele that goes from a first traversal through [inner]
    to a last one, the string the emitter spells is the sequence of
    [inner] alone: the nodes of the two ends are left out. *)
Theorem allele_to_string_inner
    (g : VG) (first last_ : NodeTraversal) (inner : list NodeTraversal) :
  allele_to_string g (path_from_node_traversals (first :: inner ++ [last_]))
  = Returned (traversals_to_string g inner).
Proof.
  unfold allele_to_string, path_from_node_traversals. cbn [map].
  rewrite map_app. cbn [map]. rewrite removelast_last.
  f_equal. apply (spell_inner g inner EmptyString).
Qed.

(** X26. The affinities the fast scorer returns for a site can always be
    genotyped: with them, and the alleles they were computed for,
    [genotype_site] returns a Locus, without an index out of range or an
    exception. *)
Theorem scored_site_is_genotyped
    (self : Genotyper) (g : VG) (reads_by_name : list (string * nat))
    (alignments : list Alignment) (site : Site)
    (superbubble_paths : list (list NodeTraversal))
    (to_return : list (nat * list Affinity)) :
  distinct_reads reads_by_name ->
  get_affinities_fast g reads_by_name alignments site superbubble_paths
  = Some to_return ->
  exists locus,
    genotype_site self site alignments superbubble_paths to_return = Some locus.
Proof.
  intros Hd H.
  apply (@genotype_site_defined self site alignments
           (List.length superbubble_paths)); [reflexivity|].
  apply Forall_forall. intros [read affs] Hin.
  destruct (@get_affinities_fast_scored _ _ _ _ Hd _ _ _ _ H Hin)
    as (read_name & alignment & _ & Ha & _ & Hall).
  split; simpl.
  - apply nth_error_Some. congruence.
  - apply Forall2_length in Hall. now rewrite length_map in Hall.
Qed.

Lemma scored_site_is_genotyped_witness :
  distinct_reads (build_reads_by_name overrun_reads) /\
  get_affinities_fast overrun_graph (build_reads_by_name overrun_reads) overrun_reads
    overrun_site bubble_alleles = Some overrun_to_return /\
  exists locus,
    genotype_site (settings 100 1) overrun_site overrun_reads bubble_alleles
      overrun_to_return = Some locus.
Proof.
  assert (H1 := build_reads_by_name_distinct overrun_reads).
  assert (H2 : get_affinities_fast overrun_graph (build_reads_by_name overrun_reads)
                 overrun_reads overrun_site bubble_alleles = Some overrun_to_return)
    by reflexivity.
  split; [exact H1|]. split; [exact H2|].
  exact (@scored_site_is_genotyped (settings 100 1) overrun_graph
           (build_reads_by_name overrun_reads) overrun_reads overrun_site
           bubble_alleles overrun_to_return H1 H2).
Defined.
